(** * Raster-to-vector path pipeline: tracer, bridger, filters, merger, serializer

    A shallow embedding of the algorithmic core of the line-art
    vectoriser (the variant scripts [optimized_lines.py], [clean_smooth.py],
    [continuous_no_gap.py], [final_smooth.py], [final_continuous.py],
    [very_smooth.py], [smooth_bspline.py]) together with the properties
    its specification states about it. *)

From Stdlib Require Import ZArith QArith Qminmax Qabs Qround Reals Qreals Psatz.
From stdpp Require Import base tactics option list numbers gmap.

Local Open Scope Z_scope.

(** ** Two-dimensional arrays

    A NumPy array of shape [(height, width)] is a list of [height] rows of
    [width] cells.  The code only indexes it behind the guard
    [0 <= nx < width and 0 <= ny < height], so reads default to [0] and
    writes do nothing out of range; neither is reached. *)

Abbreviation image := (list (list Z)).

Definition img_height (a : image) : nat := length a.
Definition img_width (a : image) : nat := length (hd [] a).

(** [a[y, x]] *)
Definition get2 (a : image) (y x : Z) : Z :=
  default 0 (a !! Z.to_nat y ≫= λ row : list Z, row !! Z.to_nat x).

(** [a[y, x] = v] *)
Definition set2 (a : image) (y x : Z) (v : Z) : image :=
  alter (λ row : list Z, <[Z.to_nat x := v]> row) (Z.to_nat y) a.

(** [np.zeros((h, w), np.uint8)] *)
Definition zeros (h w : nat) : image := replicate h (replicate w 0).

(** Every row has the array's width, as in a NumPy array. *)
Definition rectangular (a : image) : Prop :=
  Forall (λ row : list Z, length row = img_width a) a.

(** An array of shape [(h, w)]. *)
Definition shaped (h w : nat) (a : image) : Prop :=
  length a = h ∧ Forall (λ row : list Z, length row = w) a.

(** ** Component tracer *)

Module Tracer.

(** A traced point is the Python tuple [(x, y)]. *)
Abbreviation pixel := (Z * Z)%type.

(** The two nested loops [for dy in [-1, 0, 1]: for dx in [-1, 0, 1]],
    in the order they run; each entry is [(dx, dy)]. *)
Definition offsets : list (Z * Z) :=
  dy ← [-1; 0; 1]; dx ← [-1; 0; 1]; [(dx, dy)].

(** Body of the neighbour loops for the popped pixel [(cx, cy)].  The state
    is the stack (its head is the end of the Python list, where [append]
    and [pop] work) and the visited array. *)
Definition visit (skeleton : image) (width height : Z) (cx cy : Z)
    (st : list pixel * image) (d : Z * Z) : list pixel * image :=
  let '(stack, visited) := st in
  let '(dx, dy) := d in
  if (dx =? 0) && (dy =? 0) then st
  else
    let nx := cx + dx in
    let ny := cy + dy in
    if (0 <=? nx) && (nx <? width) && (0 <=? ny) && (ny <? height) then
      if (get2 skeleton ny nx >? 0) && (get2 visited ny nx =? 0) then
        ((nx, ny) :: stack, set2 visited ny nx 255)
      else st
    else st.

(** [while stack: ...].  One unit of fuel is spent per iteration; [None]
    means the fuel ran out before the stack emptied. *)
Fixpoint flood (fuel : nat) (skeleton : image) (width height : Z)
    (stack points : list pixel) (visited : image)
    : option (list pixel * image) :=
  match stack with
  | [] => Some (points, visited)
  | (cx, cy) :: rest =>
      match fuel with
      | O => None
      | S fuel' =>
          let '(stack', visited') :=
            foldl (visit skeleton width height cx cy) (rest, visited) offsets in
          flood fuel' skeleton width height stack' (points ++ [(cx, cy)]) visited'
      end
  end.

(** The scan positions of [for y in range(height): for x in range(width)],
    each as the pixel [(x, y)]. *)
Definition scan_order (height width : nat) : list pixel :=
  y ← seq 0 height; x ← seq 0 width; [(Z.of_nat x, Z.of_nat y)].

(** Body of the scan for one position; [keep] is the length filter that
    decides whether the component is appended. *)
Definition scan_step (keep : nat → bool) (skeleton : image)
    (st : option (image * list (list pixel))) (p : pixel)
    : option (image * list (list pixel)) :=
  '(visited, contours) ← st;
  let '(x, y) := p in
  if (get2 skeleton y x =? 0) || negb (get2 visited y x =? 0) then
    Some (visited, contours)
  else
    let height := img_height skeleton in
    let width := img_width skeleton in
    '(points, visited') ←
      flood (height * width) skeleton (Z.of_nat width) (Z.of_nat height)
            [(x, y)] [] (set2 visited y x 255);
    Some (visited', if keep (length points) then contours ++ [points] else contours).

(** The tracing function shared, up to the length filter, by
    [trace_all_contours], [skeleton_to_contours], [remove_noise_from_skeleton]
    and the other variants. *)
Definition trace (keep : nat → bool) (skeleton : image)
    : option (list (list pixel)) :=
  let height := img_height skeleton in
  let width := img_width skeleton in
  snd <$> foldl (scan_step keep skeleton)
                (Some (zeros height width, []))
                (scan_order height width).

(** [optimized_lines.trace_all_contours]: keeps [len(points) > 5]. *)
Definition trace_all_contours (skeleton : image) : option (list (list pixel)) :=
  trace (λ n, 5 <? n)%nat skeleton.

(** [continuous_no_gap.skeleton_to_contours]: the same code. *)
Definition skeleton_to_contours (skeleton : image) : option (list (list pixel)) :=
  trace (λ n, 5 <? n)%nat skeleton.

(** [clean_smooth.remove_noise_from_skeleton]: keeps
    [len(points) >= min_length]. *)
Definition remove_noise_from_skeleton (skeleton : image) (min_length : Z)
    : option (list (list pixel)) :=
  trace (λ n, min_length <=? Z.of_nat n) skeleton.

(** Chebyshev distance 1. *)
Definition adjacent8 (p q : pixel) : Prop :=
  Z.max (Z.abs (p.1 - q.1)) (Z.abs (p.2 - q.2)) = 1.

(** Foreground pixels of a mask. *)
Definition in_bounds (a : image) (p : pixel) : Prop :=
  0 <= p.1 < Z.of_nat (img_width a) ∧ 0 <= p.2 < Z.of_nat (img_height a).

Definition foreground (a : image) (p : pixel) : Prop :=
  in_bounds a p ∧ get2 a p.2 p.1 ≠ 0.

(** A pixel claimed in the visited array. *)
Definition marked (visited : image) (p : pixel) : Prop :=
  0 <= p.1 ∧ 0 <= p.2 ∧ get2 visited p.2 p.1 ≠ 0.

(** [p] has an 8-neighbour among the points [seen] that precede it, unless
    nothing precedes it. *)
Definition attached (seen : list pixel) (p : pixel) : Prop :=
  seen = [] ∨ ∃ q, q ∈ seen ∧ adjacent8 q p.

(** Every point of the path but the first is 8-adjacent to an earlier one. *)
Definition tree_order (path : list pixel) : Prop :=
  ∀ l1 p l2, path = l1 ++ p :: l2 → attached l1 p.

(** Every pair of consecutive points is 8-adjacent. *)
Fixpoint consecutive_adjacent (path : list pixel) : Prop :=
  match path with
  | p :: (q :: _) as rest => adjacent8 p q ∧ consecutive_adjacent rest
  | _ => True
  end.

(** What one run of the neighbour loops does to the (stack, visited) state:
    it pushes the pixels [new], all fresh foreground neighbours of [c]. *)
Definition pushed (skeleton : image) (c : pixel) (st : list pixel * image) (new : list pixel)
    (st' : list pixel * image) : Prop :=
  st'.1 = new ++ st.1 ∧ shaped (img_height skeleton) (img_width skeleton) st'.2 ∧ NoDup new ∧
  (∀ p, p ∈ new → foreground skeleton p ∧ ¬ marked st.2 p ∧ adjacent8 c p) ∧
  (∀ p, marked st'.2 p ↔ marked st.2 p ∨ p ∈ new).

(** The state of the [while stack] loop: [points ++ stack] lists, without
    repetition, exactly the pixels marked since the component was started
    (when the visited array was [v0]); they are foreground pixels, and
    each hangs on an earlier point of the path. *)
Definition flood_inv (skeleton : image) (v0 : image) (stack points : list pixel) (v : image)
    : Prop :=
  shaped (img_height skeleton) (img_width skeleton) v ∧
  NoDup (points ++ stack) ∧
  (∀ p, p ∈ points ++ stack → foreground skeleton p ∧ ¬ marked v0 p) ∧
  (∀ p, marked v p ↔ marked v0 p ∨ p ∈ points ++ stack) ∧
  tree_order points ∧
  ((points = [] ∧ (length stack ≤ 1)%nat) ∨
   (∀ s, s ∈ stack → ∃ q, q ∈ points ∧ adjacent8 q s)).

(** The state of the row-major scan after the positions [pre]. *)
Definition scan_inv (skeleton : image) (keep : nat → bool) (pre : list pixel)
    (st : option (image * list (list pixel))) : Prop :=
  ∃ visited contours, st = Some (visited, contours) ∧
    shaped (img_height skeleton) (img_width skeleton) visited ∧
    NoDup (concat contours) ∧
    (∀ p, p ∈ concat contours → marked visited p) ∧
    (∀ p, marked visited p → foreground skeleton p) ∧
    (∀ p, p ∈ pre → foreground skeleton p → marked visited p) ∧
    (∀ path, path ∈ contours →
       path ≠ [] ∧ tree_order path ∧ keep (length path) = true) ∧
    ((∀ n, (1 ≤ n)%nat → keep n = true) →
       ∀ p, marked visited p → p ∈ concat contours).

(** A mask with one component, two arms that meet at the top pixel. *)
Definition vee : image :=
  [ [0; 0; 0; 255; 0; 0; 0];
    [0; 0; 255; 0; 255; 0; 0];
    [0; 255; 0; 0; 0; 255; 0];
    [255; 0; 0; 0; 0; 0; 255] ].

End Tracer.

(** ** Points, paths and distances

    After tracing, a path is a NumPy array of points whose coordinates may
    be fractional; they are exact rationals here.  The code takes
    [np.sqrt] of a sum of squares only to compare it with a threshold or
    with another such root, so a distance is kept as its square and the
    comparisons are made on squares.

    The code computes in binary64.  On pixel coordinates (integers, as the
    tracer gives them) the squared distance is an integer that binary64
    holds exactly, and the rounded root of an integer never crosses an
    integer threshold nor the rounded root of another integer, so there
    the exact comparisons below are the code's comparisons; see
    [rounded_sqrt_lt], [rounded_sqrt_gt], [rounded_sqrt_order] and
    [pixel_sqrt_lt].  With fractional coordinates or thresholds the two
    can differ in the last bit, which is why the properties that depend on
    the outcome of a comparison are stated for pixel paths and whole
    thresholds. *)

Abbreviation point := (Q * Q)%type.
Abbreviation path := (list point).

Definition Qltb (a b : Q) : bool := negb (Qle_bool b a).

(** [(p[0] - q[0])**2 + (p[1] - q[1])**2] *)
Definition sqdist (p q : point) : Q :=
  ((p.1 - q.1) * (p.1 - q.1) + (p.2 - q.2) * (p.2 - q.2))%Q.

(** [np.sqrt(s) < t], for a sum of squares [s], over exact arithmetic. *)
Definition sqrt_lt (s t : Q) : bool := Qltb 0 t && Qltb s (t * t).

(** [np.sqrt(s) >= t], over exact arithmetic. *)
Definition sqrt_ge (s t : Q) : bool := negb (sqrt_lt s t).

(** [np.sqrt(s) > t], over exact arithmetic. *)
Definition sqrt_gt (s t : Q) : bool := Qltb t 0 || Qltb (t * t) s.

(** A whole number below [2^20] in size: a pixel coordinate, or a
    threshold such as [max_gap=40] or [tolerance=10]. *)
Definition whole (c : Q) : bool :=
  Qeq_bool c (inject_Z (Qfloor c)) && (Z.abs (Qfloor c) <? 2 ^ 20).

Definition pixel_point (p : Q * Q) : bool := whole p.1 && whole p.2.

(** A path of pixels, as the tracer and the filters that only select
    points give it. *)
Definition pixel_path (points : list (Q * Q)) : bool :=
  forallb pixel_point points.

(** A chord along a row or a column of the raster.  The distance of a
    pixel from such a chord is a whole number that the Douglas-Peucker
    variants compute without rounding. *)
Definition axis_parallel (a b : Q * Q) : bool :=
  Qeq_bool a.1 b.1 || Qeq_bool a.2 b.2.

(** [points[i]], for an index the code keeps in range. *)
Definition point_at (points : path) (i : nat) : point :=
  default (0, 0)%Q (points !! i).

(** [np.array(points)] of a traced pixel list. *)
Definition to_points (pixels : list (Z * Z)) : path :=
  map (λ p : Z * Z, (inject_Z p.1, inject_Z p.2)) pixels.

(** ** Path filters *)

Module Filters.

(** *** Distance decimation

    The loop shared by [simplify_path_points], [simplify_path],
    [simplify_contour], [simplify_with_epsilon], [aggressive_simplify],
    [simple_simplify] (which return short paths, [len(points) < 3],
    as they are) and by [merge_close_points], [remove_redundant_points],
    [reduce_point_density] ([len(points) < 2]).  [far p l] is the test
    [dist >= tolerance] between the point [p] and the last kept point [l]. *)
Definition decimate_step {P} (far : P → P → bool) (simplified : list P) (p : P)
    : list P :=
  match list.last simplified with
  | Some l => if far p l then simplified ++ [p] else simplified
  | None => simplified
  end.

Definition decimate {P} (far : P → P → bool) (guard : nat) (points : list P)
    : list P :=
  if (length points <? guard)%nat then points
  else
    match points with
    | [] => points
    | p0 :: rest => foldl (decimate_step far) [p0] rest
    end.

Definition far_apart (tolerance : Q) (p l : point) : bool :=
  sqrt_ge (sqdist p l) tolerance.

(** [clean_smooth.simplify_path_points] *)
Definition simplify_path_points (points : path) (tolerance : Q) : path :=
  decimate (far_apart tolerance) 3 points.

(** [very_smooth.simplify_path] *)
Definition simplify_path (points : path) (tolerance : Q) : path :=
  decimate (far_apart tolerance) 3 points.

(** [clean_smooth.merge_close_points] *)
Definition merge_close_points (points : path) (threshold : Q) : path :=
  decimate (far_apart threshold) 2 points.

(** [optimized_lines.remove_redundant_points] *)
Definition remove_redundant_points (points : path) (min_dist : Q) : path :=
  decimate (far_apart min_dist) 2 points.

(** The kept points after the last kept point [l], by recursion on the
    points still to walk. *)
Fixpoint kept_after {P} (far : P → P → bool) (l : P) (rest : list P) : list P :=
  match rest with
  | [] => []
  | p :: rest' =>
      if far p l then p :: kept_after far p rest' else kept_after far l rest'
  end.

(** *** Douglas-Peucker simplification *)

(** [np.allclose(a, b)]: [|a - b| <= atol + rtol * |b|] on each coordinate,
    with NumPy's [atol = 1e-8] and [rtol = 1e-5]. *)
Definition isclose (a b : Q) : bool :=
  Qle_bool (Qabs (a - b)) (1e-8 + 1e-5 * Qabs b)%Q.
Definition allclose (a b : point) : bool :=
  isclose a.1 b.1 && isclose a.2 b.2.

(** [np.clip(x, lo, hi)] *)
Definition clip (x lo hi : Q) : Q := Qmin (Qmax x lo) hi.

(** The square of [perpendicular_distance] in [ramer_douglas_pecker].  The
    code clips [proj_length = dot(point_vec, line_vec / line_len)] to
    [0, line_len] and steps [proj_length] along the unit vector; that is
    the step [t = clip(dot(point_vec, line_vec) / line_len**2, 0, 1)] along
    [line_vec].  This is the distance over exact arithmetic.  The code
    rounds the unit vector and the projection, so its value can be off in
    the last bits (a pixel on a slanted chord is at a distance of about
    [1e-16], not 0); it is the exact value for pixels and a chord along a
    row or a column, where every step is a whole number. *)
Definition perpendicular_distance_sq (p line_start line_end : point) : Q :=
  if allclose line_start line_end then sqdist p line_start
  else
    let line_vec := (line_end.1 - line_start.1, line_end.2 - line_start.2)%Q in
    let point_vec := (p.1 - line_start.1, p.2 - line_start.2)%Q in
    let len_sq := (line_vec.1 * line_vec.1 + line_vec.2 * line_vec.2)%Q in
    let t := clip ((point_vec.1 * line_vec.1 + point_vec.2 * line_vec.2)
                   / len_sq)%Q 0 1 in
    let nearest := (line_start.1 + t * line_vec.1,
                    line_start.2 + t * line_vec.2)%Q in
    sqdist p nearest.

(** The loop [for i in range(start + 1, end)] that keeps the largest
    distance seen and its index; the state is [(max_dist**2, max_idx)]. *)
Definition farthest (dist_sq : point → Q) (points : path) (start end_ : nat)
    : Q * nat :=
  foldl (λ (st : Q * nat) (i : nat),
           let d := dist_sq (point_at points i) in
           if Qltb st.1 d then (d, i) else st)
        (0%Q, start) (seq (start + 1) (end_ - start - 1)).

(** [rdp] in [final_smooth.ramer_douglas_pecker].  [depth] is the number of
    nested calls the interpreter still allows; a call that needs one more
    raises [RecursionError], which is [None]. *)
Fixpoint rdp (depth : nat) (points : path) (start end_ : nat) (eps : Q)
    : option path :=
  match depth with
  | O => None
  | S depth' =>
      if (end_ <=? start + 1)%nat then Some [point_at points start]
      else
        let '(max_sq, max_idx) :=
          farthest (λ p, perpendicular_distance_sq p (point_at points start)
                                                   (point_at points end_))
                   points start end_ in
        if sqrt_gt max_sq eps then
          left ← rdp depth' points start max_idx eps;
          right ← rdp depth' points max_idx end_ eps;
          Some (removelast left ++ right)
        else Some [point_at points start; point_at points end_]
  end.

(** [limit] is the number of nested calls of [rdp] that the interpreter
    allows: CPython allows 1000 frames in all, the scripts never raise
    that number, and [limit] is what is left of it after the frames of the
    callers and of the routines that a call of [rdp] itself calls.  A path
    that needs a deeper recursion raises [RecursionError]. *)
Definition ramer_douglas_pecker (limit : nat) (points : path) (epsilon : Q)
    : option path :=
  if (length points <? 3)%nat then Some points
  else rdp limit points 0 (length points - 1) epsilon.

(** The square of the distance [optimized_lines.optimize_contour] uses:
    [abs(dx * (sy - py) - dy * (sx - px)) / line_len], over exact
    arithmetic.  For pixels the code computes the numerator without
    rounding, so a pixel on the line is at distance 0 there too, and the
    quotient is the exact value for a chord along a row or a column. *)
Definition line_distance_sq (p start_point end_point : point) : Q :=
  let dx := (end_point.1 - start_point.1)%Q in
  let dy := (end_point.2 - start_point.2)%Q in
  let cross := (dx * (start_point.2 - p.2) - dy * (start_point.1 - p.1))%Q in
  (cross * cross / (dx * dx + dy * dy))%Q.

(** [douglas_peucker] in [optimize_contour]; [depth] as in [rdp]. *)
Fixpoint douglas_peucker (depth : nat) (start end_ : nat) (pts : path) (eps : Q)
    : option path :=
  match depth with
  | O => None
  | S depth' =>
      if (Z.of_nat end_ - Z.of_nat start <? 2)%Z then
        Some [point_at pts start; point_at pts end_]
      else
        let start_point := point_at pts start in
        let end_point := point_at pts end_ in
        if sqrt_lt (sqdist end_point start_point) 0.001 then Some [start_point]
        else
          let '(max_sq, max_idx) :=
            farthest (λ p, line_distance_sq p start_point end_point)
                     pts start end_ in
          if sqrt_gt max_sq eps then
            left ← douglas_peucker depth' start max_idx pts eps;
            right ← douglas_peucker depth' max_idx end_ pts eps;
            Some (left ++ right)
          else Some [start_point; end_point]
  end.

(** [limit] is the number of nested calls of [douglas_peucker] that the
    interpreter allows, as in [ramer_douglas_pecker]. *)
Definition optimize_contour (limit : nat) (points : path) (epsilon : Q)
    : option path :=
  if (length points <? 3)%nat then
    Some (if (1 <? length points)%nat then points else [])
  else douglas_peucker limit 0 (length points - 1) points epsilon.

(** The smallest axis-parallel box that holds the path, and the square of
    its diagonal. *)
Definition coord_max (xs : list Q) : Q := foldr Qmax (hd 0%Q xs) xs.
Definition coord_min (xs : list Q) : Q := foldr Qmin (hd 0%Q xs) xs.

Definition diagonal_sq (points : path) : Q :=
  let w := (coord_max points.*1 - coord_min points.*1)%Q in
  let h := (coord_max points.*2 - coord_min points.*2)%Q in
  (w * w + h * h)%Q.

(** [epsilon] is larger than the bounding diagonal. *)
Definition exceeds_diagonal (epsilon : Q) (points : path) : Prop :=
  (0 < epsilon ∧ diagonal_sq points < epsilon * epsilon)%Q.

(** *** Moving average, local polynomial smoothing and curve fitting *)

(** The slice [l[start:stop]]: a negative bound counts from the end, and
    both bounds are cut to the list. *)
Definition py_bound (n i : Z) : Z :=
  if i <? 0 then Z.max 0 (i + n) else Z.min i n.

Definition py_slice {A} (l : list A) (start stop : Z) : list A :=
  let n := Z.of_nat (length l) in
  take (Z.to_nat (py_bound n stop - py_bound n start))
       (drop (Z.to_nat (py_bound n start)) l).

(** [np.mean] *)
Definition mean (xs : list Q) : Q :=
  (foldr Qplus 0 xs / inject_Z (Z.of_nat (length xs)))%Q.

(** [int(v)] and [astype(int)]: the fraction is cut off. *)
Definition py_int (v : Q) : Z := Z.quot (Qnum v) (Z.pos (Qden v)).

(** [np.linspace(0, 1, n)] *)
Definition linspace01 (n : nat) : list Q :=
  map (λ i, inject_Z (Z.of_nat i) / inject_Z (Z.of_nat n - 1))%Q (seq 0 n).

(** [clean_smooth.smooth_path] *)
Definition smooth_path (points : path) (window : Z) : path :=
  if Z.of_nat (length points) <? window then points
  else
    foldl (λ smoothed i,
             let start := Z.max 0 (Z.of_nat i - window / 2) in
             let end_ := Z.min (Z.of_nat (length points))
                               (Z.of_nat i + window / 2 + 1) in
             let window_points := py_slice points start end_ in
             if (0 <? length window_points)%nat then
               smoothed ++ [(inject_Z (py_int (mean window_points.*1)),
                             inject_Z (py_int (mean window_points.*2)))]
             else smoothed)
          [] (seq 0 (length points)).

(** [very_smooth.savitzky_golay_smooth].  [fit_at x ys order x_new] stands
    for the body of each [try]: [np.polyfit(x, ys, order)] evaluated at
    [x_new], or [None] when the body raises. *)
Definition savitzky_golay_smooth
    (fit_at : list Q → list Q → Z → Q → option Q)
    (points : path) (window order : Z) : path :=
  if Z.of_nat (length points) <? window then points
  else
    let half := window / 2 in
    map (λ i,
           let start := Z.max 0 (Z.of_nat i - half) in
           let end_ := Z.min (Z.of_nat (length points)) (Z.of_nat i + half + 1) in
           let window_pts := py_slice points start end_ in
           let x := map (λ k, inject_Z (Z.of_nat k)) (seq 0 (length window_pts)) in
           let x_new := inject_Z (Z.of_nat i - start) in
           let smoothed_x :=
             match fit_at x window_pts.*1 order x_new with
             | Some v => inject_Z (py_int v)
             | None => (point_at points i).1
             end in
           let smoothed_y :=
             match fit_at x window_pts.*2 order x_new with
             | Some v => inject_Z (py_int v)
             | None => (point_at points i).2
             end in
           (smoothed_x, smoothed_y))
        (seq 0 (length points)).

(** [very_smooth.curve_fitting_smooth].  [interp t v t_new] stands for
    [interp1d(t, v, kind='cubic')(t_new)], or [None] when it raises. *)
Definition curve_fitting_smooth
    (interp : list Q → list Q → list Q → option (list Q))
    (points : path) (n_points : option nat) : path :=
  if (length points <? 4)%nat then points
  else
    let n_points := default (length points) n_points in
    let t := linspace01 (length points) in
    let t_new := linspace01 n_points in
    let x := points.*1 in
    let y := points.*2 in
    let fitted :=
      x_new ← interp t x t_new;
      y_new ← interp t y t_new;
      Some (zip (map (λ v, inject_Z (py_int v)) x_new)
                (map (λ v, inject_Z (py_int v)) y_new)) in
    match fitted with
    | Some result => result
    | None => points
    end.

(** [smooth_bspline.fit_smooth_curve].  [spline x y s u] stands for
    [splev(u, splprep([x, y], s=s, k=3)[0])], or [None] when either
    raises. *)
Definition fit_smooth_curve
    (spline : list Q → list Q → Q → list Q → option (list Q * list Q))
    (points : path) (smoothing : Q) : path :=
  if (length points <? 4)%nat then points
  else
    let x := points.*1 in
    let y := points.*2 in
    let fitted :=
      '(x_smooth, y_smooth) ← spline x y smoothing (linspace01 (length points));
      Some (zip (map (λ v, inject_Z (py_int v)) x_smooth)
                (map (λ v, inject_Z (py_int v)) y_smooth)) in
    match fitted with
    | Some result => result
    | None => points
    end.

(** *** Chaikin corner cutting ([clean_smooth.chaikin_smooth]) *)

(** The points [q] and [r] that replace the edge [(p0, p1)]. *)
Definition cut_q (p0 p1 : point) : point :=
  (0.75 * p0.1 + 0.25 * p1.1, 0.75 * p0.2 + 0.25 * p1.2)%Q.
Definition cut_r (p0 p1 : point) : point :=
  (0.25 * p0.1 + 0.75 * p1.1, 0.25 * p0.2 + 0.75 * p1.2)%Q.

(** [chaikin_step]; [pts[0]] and [pts[-1]] raise on an empty array, which
    is [None]. *)
Definition chaikin_step (pts : path) : option path :=
  first ← list.head pts;
  final ← list.last pts;
  Some (first ::
        flat_map (λ e : point * point, [cut_q e.1 e.2; cut_r e.1 e.2])
                 (zip pts (tail pts))
        ++ [final]).

Definition chaikin_smooth (points : path) (iterations : Z) : option path :=
  if (length points <? 4)%nat || (iterations <=? 0) then Some points
  else Nat.iter (Z.to_nat iterations) (λ result, result ≫= chaikin_step)
                (Some points).

(** The scenario input: the diagonal of a 50 by 50 mask, and its pixels in
    scan order. *)
Definition diagonal_mask (n : nat) : image :=
  map (λ y, map (λ x, if (x =? y)%nat then 255 else 0) (seq 0 n)) (seq 0 n).

Definition diagonal (n : nat) : list (Z * Z) :=
  map (λ i, (Z.of_nat i, Z.of_nat i)) (seq 0 n).

End Filters.

(** ** Endpoint bridger ([continuous_no_gap.find_close_endpoints]) *)

Module Bridger.

(** The value of [min_dist]: the caller's [max_dist] until a candidate is
    found, then the distance to the closest candidate so far (kept as its
    square). *)
Inductive bound :=
  | Limit (max_dist : Q)
  | Found (dist_sq : Q).

(** [dist < min_dist] *)
Definition below (dist_sq : Q) (min_dist : bound) : bool :=
  match min_dist with
  | Limit max_dist => sqrt_lt dist_sq max_dist
  | Found other_sq => Qltb dist_sq other_sq
  end.

(** Body of [for j in range(i + 1, n)]; the state is [(min_dist, closest)],
    with [None] for [closest = -1]. *)
Definition nearest_step (endpoints : path) (used : gset nat) (i : nat)
    (st : bound * option nat) (j : nat) : bound * option nat :=
  if bool_decide (j ∈ used) then st
  else
    let dist := sqdist (point_at endpoints i) (point_at endpoints j) in
    if below dist st.1 then (Found dist, Some j) else st.

Definition nearest (endpoints : path) (used : gset nat) (max_dist : Q)
    (i : nat) : bound * option nat :=
  foldl (nearest_step endpoints used i) (Limit max_dist, None)
        (seq (i + 1) (length endpoints - (i + 1))).

(** Body of [for i in range(n)]; the state is [(connections, used)], with
    each connection kept as the pair of indices [(i, closest)] whose
    coordinates the code appends. *)
Definition pair_step (endpoints : path) (max_dist : Q)
    (st : list (nat * nat) * gset nat) (i : nat)
    : list (nat * nat) * gset nat :=
  if bool_decide (i ∈ st.2) then st
  else
    match (nearest endpoints st.2 max_dist i).2 with
    | Some closest => (st.1 ++ [(i, closest)], {[closest]} ∪ ({[i]} ∪ st.2))
    | None => st
    end.

Definition find_close_pairs (endpoints : path) (max_dist : Q)
    : list (nat * nat) :=
  if (length endpoints <? 2)%nat then []
  else (foldl (pair_step endpoints max_dist) ([], ∅)
              (seq 0 (length endpoints))).1.

Definition find_close_endpoints (endpoints : path) (max_dist : Q)
    : list (point * point) :=
  map (λ c : nat * nat, (point_at endpoints c.1, point_at endpoints c.2))
      (find_close_pairs endpoints max_dist).

(** The indices that occur in a list of pairs, with repetition. *)
Definition paired (connections : list (nat * nat)) : list nat :=
  connections ≫= λ c, [c.1; c.2].

(** The state of the inner loop: a candidate, if any, is an unused later
    endpoint closer than [max_dist], and [min_dist] is its distance. *)
Definition nearest_inv (endpoints : path) (used : gset nat) (max_dist : Q)
    (i : nat) (st : bound * option nat) : Prop :=
  match st.2 with
  | None => st.1 = Limit max_dist
  | Some j =>
      st.1 = Found (sqdist (point_at endpoints i) (point_at endpoints j)) ∧
      (j ∉ used) ∧ (i < j < length endpoints)%nat ∧
      sqrt_lt (sqdist (point_at endpoints i) (point_at endpoints j)) max_dist
        = true
  end.

(** The state of the outer loop. *)
Definition pair_inv (endpoints : path) (max_dist : Q)
    (st : list (nat * nat) * gset nat) : Prop :=
  (∀ k, k ∈ st.2 ↔ k ∈ paired st.1) ∧
  NoDup (paired st.1) ∧
  (∀ i j, (i, j) ∈ st.1 →
     (i < j < length endpoints)%nat ∧
     sqrt_lt (sqdist (point_at endpoints i) (point_at endpoints j)) max_dist
       = true).

End Bridger.

(** ** Path merger ([final_continuous.merge_adjacent_paths],
    [optimized_lines.merge_nearby_contours], [optimized_lines.connect_contours]) *)

Module Merger.

(** Body of [for j in range(i + 1, len(connected))].  The state is
    [(current, used, changed)]; [current[-1]], [other[0]], [current[0]] and
    [other[-1]] raise on an empty array, which is [None]. *)
Definition join_step (max_gap : Q) (connected : list path)
    (st : option (path * list bool * bool)) (j : nat)
    : option (path * list bool * bool) :=
  '(current, used, changed) ← st;
  if default false (used !! j) then Some (current, used, changed)
  else
    other ← connected !! j;
    current_tail ← list.last current;
    other_head ← list.head other;
    current_head ← list.head current;
    other_tail ← list.last other;
    let d1 := sqdist current_tail other_head in
    let d2 := sqdist current_head other_tail in
    if sqrt_lt d1 max_gap || sqrt_lt d2 max_gap then
      Some (if Qltb d1 d2 then current ++ other else other ++ current,
            <[j := true]> used, true)
    else Some (current, used, changed).

(** Body of [for i in range(len(connected))]; the state is
    [(result, used, changed)]. *)
Definition merge_step (max_gap : Q) (connected : list path)
    (st : option (list path * list bool * bool)) (i : nat)
    : option (list path * list bool * bool) :=
  '(result, used, changed) ← st;
  if default false (used !! i) then Some (result, used, changed)
  else
    current ← connected !! i;
    '(current', used', changed') ←
      foldl (join_step max_gap connected)
            (Some (current, <[i := true]> used, changed))
            (seq (i + 1) (length connected - (i + 1)));
    Some (result ++ [current'], used', changed').

(** One round over the collection: the merged paths, and whether any two
    were joined. *)
Definition merge_pass (max_gap : Q) (connected : list path)
    : option (list path * bool) :=
  '(result, _, changed) ←
    foldl (merge_step max_gap connected)
          (Some ([], replicate (length connected) false, false))
          (seq 0 (length connected));
  Some (result, changed).

Definition merge_adjacent_paths (paths : list path) (max_gap : Q)
    : option (list path) :=
  if (length paths <=? 1)%nat then Some paths
  else fst <$> merge_pass max_gap paths.

Definition merge_nearby_contours (contours : list path) (max_gap : Q)
    : option (list path) :=
  if (length contours <? 2)%nat then Some contours
  else fst <$> merge_pass max_gap contours.

(** [while changed and iterations < max_iterations], with [budget] the
    iterations still allowed. *)
Fixpoint connect_loop (budget : nat) (max_gap : Q) (connected : list path)
    : option (list path) :=
  match budget with
  | O => Some connected
  | S budget' =>
      '(result, changed) ← merge_pass max_gap connected;
      if changed : bool then connect_loop budget' max_gap result
      else Some result
  end.

Definition connect_contours (contours : list path) (max_gap : Q)
    : option (list path) :=
  if (length contours <? 2)%nat then Some contours
  else connect_loop (length contours) max_gap contours.

(** The input paths that make up the groups already used. *)
Fixpoint members (used : list bool) (groups : list (list path)) : list path :=
  match used, groups with
  | b :: used', g :: groups' =>
      (if b : bool then g else []) ++ members used' groups'
  | _, _ => []
  end.

(** The test that joins [b] behind [a]: the tail of [a] is closer than
    [max_gap] to the head of [b]. *)
Definition junction (max_gap : Q) (a b : path) : bool :=
  match list.last a, list.head b with
  | Some a_tail, Some b_head => sqrt_lt (sqdist a_tail b_head) max_gap
  | _, _ => false
  end.

(** Every path of the group but the last passes that test with the path
    that follows it. *)
Fixpoint linked (max_gap : Q) (group : list path) : bool :=
  match group with
  | a :: rest =>
      match rest with
      | b :: _ => junction max_gap a b && linked max_gap rest
      | [] => true
      end
  | [] => true
  end.

(** A group of non-empty paths, linked from each to the next. *)
Definition chain (max_gap : Q) (group : list path) : Prop :=
  Forall (λ p : path, p ≠ []) group ∧ linked max_gap group = true.

(** State of the inner loop at index [i]: [current] is the concatenation of
    the input paths [cg], in that order; with those of the finished groups
    [rg] they are the input paths of the groups marked used.  [good] is
    what is known of every group. *)
Definition join_inv (good : list path → Prop) (groups rg : list (list path))
    (seen : list nat) (st : option (path * list bool * bool)) : Prop :=
  ∃ cg used changed,
    st = Some (concat cg, used, changed) ∧ concat cg ≠ [] ∧ good cg ∧
    length used = length groups ∧
    concat rg ++ cg ≡ₚ members used groups ∧
    (∀ k, k ∈ seen → used !! k = Some true).

(** State of the outer loop after the indices [seen]. *)
Definition merge_inv (good : list path → Prop) (groups : list (list path))
    (seen : list nat) (st : option (list path * list bool * bool)) : Prop :=
  ∃ rg used changed,
    st = Some (@concat point <$> rg, used, changed) ∧
    Forall (λ g, concat g ≠ []) rg ∧ Forall good rg ∧
    length used = length groups ∧
    concat rg ≡ₚ members used groups ∧
    (∀ k, k ∈ seen → used !! k = Some true).

End Merger.

(** ** Vector serializer ([clean_smooth.output_ai], [clean_smooth.output_svg]) *)

Module Serializer.

(** The text is built by appending formatted pieces to a string; a piece is
    kept as the statement that formats it, with the numbers it prints. *)
Inductive ai_line :=
  | AiHeader (width height : Z) (paths : nat)
  | AiPathComment (number points : nat)
  | AiNewpath
  | AiMoveto (x y : Q)
  | AiLineto (x y : Q)
  | AiStroke
  | AiShowpage
  | AiEndDocument.

Inductive svg_piece :=
  | SvgHeader (width height : Z) (paths total_points : nat)
  | SvgPathOpen (id : nat)
  | SvgM (x y : Q)
  | SvgL (x y : Q)
  | SvgPathClose
  | SvgFooter.

(** Body of [for i, path in enumerate(paths)] in [output_ai]. *)
Definition ai_path (height : Z) (ai_content : list ai_line) (entry : nat * path)
    : list ai_line :=
  let '(i, path) := entry in
  if (length path <? 2)%nat then ai_content
  else
    let points := path in
    let ai_content := ai_content ++ [AiPathComment (i + 1) (length points)] in
    let ai_content := ai_content ++ [AiNewpath] in
    let ai_content :=
      ai_content ++ [AiMoveto (point_at points 0).1
                              (inject_Z height - (point_at points 0).2)] in
    let ai_content :=
      foldl (λ content j,
               let '(x, y) := point_at points j in
               content ++ [AiLineto x (inject_Z height - y)])
            ai_content (seq 1 (length points - 1)) in
    ai_content ++ [AiStroke].

Definition output_ai (paths : list path) (width height : Z) : list ai_line :=
  foldl (ai_path height) [AiHeader width height (length paths)]
        (zip (seq 0 (length paths)) paths)
  ++ [AiShowpage] ++ [AiEndDocument].

(** Body of [for i, path in enumerate(paths)] in [output_svg]. *)
Definition svg_path (svg_content : list svg_piece) (entry : nat * path)
    : list svg_piece :=
  let '(i, path) := entry in
  if (length path <? 2)%nat then svg_content
  else
    let points := path in
    let svg_content := svg_content ++ [SvgPathOpen i] in
    let svg_content :=
      svg_content ++ [SvgM (point_at points 0).1 (point_at points 0).2] in
    let svg_content :=
      foldl (λ content j,
               content ++ [SvgL (point_at points j).1 (point_at points j).2])
            svg_content (seq 1 (length points - 1)) in
    svg_content ++ [SvgPathClose].

(** The written text and the returned [total_points]. *)
Definition output_svg (paths : list path) (width height : Z)
    : list svg_piece * nat :=
  let total_points := sum_list (length <$> paths) in
  (foldl svg_path [SvgHeader width height (length paths) total_points]
         (zip (seq 0 (length paths)) paths)
   ++ [SvgFooter],
   total_points).

(** Path geometry: the move-to and line-to commands of an output. *)
Inductive command :=
  | MoveTo (x y : Q)
  | LineTo (x y : Q).

Definition ai_command (line : ai_line) : option command :=
  match line with
  | AiMoveto x y => Some (MoveTo x y)
  | AiLineto x y => Some (LineTo x y)
  | _ => None
  end.

Definition svg_command (piece : svg_piece) : option command :=
  match piece with
  | SvgM x y => Some (MoveTo x y)
  | SvgL x y => Some (LineTo x y)
  | _ => None
  end.

(** The commands the specification asks for one path: nothing for fewer
    than 2 points, else a move to the first point and a line to each later
    point in order; [vertical] is applied to every vertical coordinate. *)
Definition path_commands (vertical : Q → Q) (path : path) : list command :=
  match path with
  | first :: (_ :: _) as rest =>
      MoveTo first.1 (vertical first.2)
      :: map (λ p : point, LineTo p.1 (vertical p.2)) rest
  | _ => []
  end.

End Serializer.

(** ** Segment-distance simplification ([final_continuous.simplify_path_douglas]) *)

Module Douglas.

(** The square of [point_to_line_dist], over exact arithmetic.  The code
    rounds [t] and the nearest point; for pixels and a chord along a row
    or a column its value is the exact one whenever that is not 0. *)
Definition point_to_line_dist_sq (p a b : point) : Q :=
  let dx := (b.1 - a.1)%Q in
  let dy := (b.2 - a.2)%Q in
  if Qeq_bool dx 0 && Qeq_bool dy 0 then sqdist p a
  else
    let t := Qmax 0 (Qmin 1 (((p.1 - a.1) * dx + (p.2 - a.2) * dy)
                             / (dx * dx + dy * dy)))%Q in
    let nearest := (a.1 + t * dx, a.2 + t * dy)%Q in
    sqdist p nearest.

(** [recursive_simplify]; [depth] is the number of nested calls the
    interpreter still allows, and [None] is its [RecursionError].
    [right[1:]] is [tail right]. *)
Fixpoint recursive_simplify (depth : nat) (pts : path) (start end_ : nat)
    (tol : Q) : option path :=
  match depth with
  | O => None
  | S depth' =>
      if (Z.of_nat end_ - Z.of_nat start <=? 1)%Z then Some [point_at pts start]
      else
        let '(max_sq, max_idx) :=
          Filters.farthest
            (λ p, point_to_line_dist_sq p (point_at pts start) (point_at pts end_))
            pts start end_ in
        if sqrt_gt max_sq tol then
          left ← recursive_simplify depth' pts start max_idx tol;
          right ← recursive_simplify depth' pts max_idx end_ tol;
          Some (left ++ tail right)
        else Some [point_at pts start; point_at pts end_]
  end.

(** [limit] is the number of nested calls of [recursive_simplify] that the
    interpreter allows. *)
Definition simplify_path_douglas (limit : nat) (points : path) (tolerance : Q)
    : option path :=
  if (length points <=? 2)%nat then Some points
  else recursive_simplify limit points 0 (length points - 1) tolerance.

End Douglas.

(** ** Progress of the connection rounds

    Bookkeeping to follow the flag [changed] through the two loops of
    [connect_contours]. *)

Module Connector.

(** Number of paths already marked in [used]. *)
Fixpoint count_used (used : list bool) : nat :=
  match used with
  | [] => 0
  | b :: used' => (if b : bool then 1 else 0) + count_used used'
  end.

(** The test [d1 < max_gap or d2 < max_gap] between [current] and [other]. *)
Definition joinable (max_gap : Q) (current other : path) : bool :=
  match list.last current, list.head other,
        list.head current, list.last other with
  | Some current_tail, Some other_head, Some current_head, Some other_tail =>
      sqrt_lt (sqdist current_tail other_head) max_gap
      || sqrt_lt (sqdist current_head other_tail) max_gap
  | _, _, _, _ => false
  end.

(** No path can be joined to a later one. *)
Definition separated (max_gap : Q) (connected : list path) : Prop :=
  ∀ a b pa pb, (a < b)%nat →
    connected !! a = Some pa → connected !! b = Some pb →
    joinable max_gap pa pb = false.

(** State of the inner loop of index [i] before the index [j]; the loop
    started with the flags [start] and the flag [changed0]. *)
Definition join_progress (max_gap : Q) (connected : list path) (i : nat)
    (start : list bool) (changed0 : bool) (j : nat)
    (st : option (path * list bool * bool)) : Prop :=
  ∃ current used changed,
    st = Some (current, used, changed) ∧ current ≠ [] ∧
    length used = length connected ∧
    (count_used start ≤ count_used used)%nat ∧
    (∀ k, start !! k = Some true → used !! k = Some true) ∧
    (changed = false →
       changed0 = false ∧ connected !! i = Some current ∧ used = start ∧
       ∀ j' other, (i < j' < j)%nat → start !! j' = Some false →
         connected !! j' = Some other →
         joinable max_gap current other = false) ∧
    (changed = true →
       changed0 = true ∨ (count_used start < count_used used)%nat).

(** State of the outer loop before the index [i]. *)
Definition merge_progress (max_gap : Q) (connected : list path) (i : nat)
    (st : option (list path * list bool * bool)) : Prop :=
  ∃ result used changed,
    st = Some (result, used, changed) ∧
    Forall (λ p, p ≠ []) result ∧
    length used = length connected ∧
    (∀ k, (k < i)%nat → used !! k = Some true) ∧
    (∀ k, used !! k = Some true → result ≠ []) ∧
    (changed = false →
       result = take i connected ∧
       used = replicate i true ++ replicate (length connected - i) false ∧
       ∀ a b pa pb, (a < i)%nat → (a < b)%nat →
         connected !! a = Some pa → connected !! b = Some pb →
         joinable max_gap pa pb = false) ∧
    (changed = true → (length result < count_used used)%nat).

End Connector.

(** ** Components of the mask *)

Module Components.
Import Tracer.

(** No cell of the mask is negative, as in a [uint8] array. *)
Definition nonnegative (a : image) : bool :=
  forallb (forallb (λ c, 0 <=? c)) a.

(** The test [skeleton[ny, nx] > 0] of the neighbour loops, behind its
    bounds guard. *)
Definition positive (a : image) (p : pixel) : Prop :=
  in_bounds a p ∧ 0 < get2 a p.2 p.1.

(** Every positive 8-neighbour of a pixel of [l] is claimed in [visited]. *)
Definition neighbours_marked (skeleton visited : image) (l : list pixel)
    : Prop :=
  ∀ p q, p ∈ l → adjacent8 p q → positive skeleton q → marked visited q.

(** [l] holds every foreground 8-neighbour of its pixels. *)
Definition closed (skeleton : image) (l : list pixel) : Prop :=
  ∀ p q, p ∈ l → adjacent8 p q → foreground skeleton q → q ∈ l.

(** The state of the scan: the claimed pixels are closed under foreground
    adjacency, and so is each path; a claimed pixel is in a path or in a
    component that the length filter turned down. *)
Definition scan_closed (skeleton : image) (keep : nat → bool)
    (st : option (image * list (list pixel))) : Prop :=
  ∃ visited contours, st = Some (visited, contours) ∧
    (∀ p q, marked visited p → adjacent8 p q → foreground skeleton q →
       marked visited q) ∧
    (∀ path, path ∈ contours → closed skeleton path) ∧
    (∀ p, marked visited p →
       p ∈ concat contours ∨
       ∃ comp, p ∈ comp ∧ closed skeleton comp ∧ tree_order comp ∧
               keep (length comp) = false).

End Components.

(** ** Sampling a contour down to a target size *)

Module Sampler.

(** [points[::step]], for [step >= 1]: the points at the indices
    [0, step, 2 * step, ...]. *)
Definition py_stride (points : path) (step : nat) : path :=
  (λ k, point_at points (k * step))
    <$> seq 0 ((length points + step - 1) / step).

(** [optimized_lines.simplify_contour_aggressive]; the division by a zero
    [target_points] raises, which is [None]. *)
Definition simplify_contour_aggressive (points : path) (target_points : Z)
    : option path :=
  if Z.of_nat (length points) <=? target_points then Some points
  else if target_points =? 0 then None
  else
    let step := Z.of_nat (length points) / target_points in
    let step := if step <? 1 then 1 else step in
    let simplified := py_stride points (Z.to_nat step) in
    let simplified :=
      if Z.of_nat (length simplified) >? target_points
      then Filters.py_slice simplified 0 target_points
      else simplified in
    let simplified :=
      if (2 <? length simplified)%nat then
        if Filters.allclose (point_at simplified 0)
                            (point_at simplified (length simplified - 1))
        then Filters.py_slice simplified 0 (-1)
        else simplified
      else simplified in
    Some simplified.

End Sampler.

(** ** Numbering of the written paths *)

Module Numbering.
Import Serializer.

(** The [id] of a [<path>] element: [p{i}]. *)
Definition svg_id (piece : svg_piece) : option nat :=
  match piece with
  | SvgPathOpen id => Some id
  | _ => None
  end.

(** The comment that opens a path of the AI file: [% Path {number}
    ({points} points)]. *)
Definition ai_comment (line : ai_line) : option (nat * nat) :=
  match line with
  | AiPathComment number points => Some (number, points)
  | _ => None
  end.

(** The paths that pass the test [len(path) < 2: continue], each with its
    position in the collection. *)
Definition written (paths : list path) : list (nat * path) :=
  filter (λ entry, 2 ≤ length entry.2)%nat (zip (seq 0 (length paths)) paths).

End Numbering.

(** ** Component tracer with a queue

    [smooth_bspline.extract_long_paths] walks a component with a list
    [queue] that only grows and an index [idx] into it, where the other
    variants pop from a stack. *)

Module Queue.
Import Tracer.

(** Body of the neighbour loops; the state is the queue and the visited
    array. *)
Definition visit (skeleton : image) (width height : Z) (cx cy : Z)
    (st : list pixel * image) (d : Z * Z) : list pixel * image :=
  let '(queue, visited) := st in
  let '(dx, dy) := d in
  if (dx =? 0) && (dy =? 0) then st
  else
    let nx := cx + dx in
    let ny := cy + dy in
    if (0 <=? nx) && (nx <? width) && (0 <=? ny) && (ny <? height) then
      if (get2 skeleton ny nx >? 0) && (get2 visited ny nx =? 0) then
        (queue ++ [(nx, ny)], set2 visited ny nx 255)
      else st
    else st.

(** [while idx < len(queue): ...], one unit of fuel per iteration. *)
Fixpoint flood (fuel : nat) (skeleton : image) (width height : Z)
    (queue : list pixel) (idx : nat) (points : list pixel) (visited : image)
    {struct fuel} : option (list pixel * image) :=
  match queue !! idx with
  | None => Some (points, visited)
  | Some (cx, cy) =>
      match fuel with
      | O => None
      | S fuel' =>
          let '(queue', visited') :=
            foldl (visit skeleton width height cx cy) (queue, visited) offsets in
          flood fuel' skeleton width height queue' (S idx)
                (points ++ [(cx, cy)]) visited'
      end
  end.

Definition scan_step (keep : nat → bool) (skeleton : image)
    (st : option (image * list (list pixel))) (p : pixel)
    : option (image * list (list pixel)) :=
  '(visited, paths) ← st;
  let '(x, y) := p in
  if (get2 skeleton y x =? 0) || negb (get2 visited y x =? 0) then
    Some (visited, paths)
  else
    let height := img_height skeleton in
    let width := img_width skeleton in
    '(points, visited') ←
      flood (height * width) skeleton (Z.of_nat width) (Z.of_nat height)
            [(x, y)] 0 [] (set2 visited y x 255);
    Some (visited', if keep (length points) then paths ++ [points] else paths).

Definition trace (keep : nat → bool) (skeleton : image)
    : option (list (list pixel)) :=
  let height := img_height skeleton in
  let width := img_width skeleton in
  snd <$> foldl (scan_step keep skeleton)
                (Some (zeros height width, []))
                (scan_order height width).

(** [smooth_bspline.extract_long_paths]: keeps
    [len(points) >= min_length]. *)
Definition extract_long_paths (skeleton : image) (min_length : Z)
    : option (list (list pixel)) :=
  trace (λ n, min_length <=? Z.of_nat n) skeleton.

(** The states of the two scans agree: the same pixels are claimed, and
    the paths are the same up to the order of the points of each. *)
Definition agree (skeleton : image)
    (st1 st2 : option (image * list (list pixel))) : Prop :=
  ∃ visited1 contours visited2 paths,
    st1 = Some (visited1, contours) ∧ st2 = Some (visited2, paths) ∧
    shaped (img_height skeleton) (img_width skeleton) visited2 ∧
    (∀ p, marked visited1 p ↔ marked visited2 p) ∧
    Forall2 (≡ₚ) paths contours ∧
    Forall tree_order paths.

End Queue.

(** ** The optimising pipeline ([optimized_lines.process_optimized]) *)

Module Pipeline.




(** Body of [for segment in segments] in [clean_smooth.smooth_and_clean];
    the state is the list [smoothed_segments]. *)
Definition clean_step (st : option (list path)) (segment : list (Z * Z))
    : option (list path) :=
  smoothed_segments ← st;
  if (length segment <? 10)%nat then Some smoothed_segments
  else
    let smoothed := Filters.smooth_path (to_points segment) 7 in
    if (4 <? length smoothed)%nat then
      chaikin ← Filters.chaikin_smooth smoothed 1;
      if (4 <? length chaikin)%nat then
        let simplified := Filters.simplify_path_points chaikin 10 in
        if (4 <? length simplified)%nat then
          let merged := Filters.merge_close_points simplified 8 in
          if (4 <? length merged)%nat then Some (smoothed_segments ++ [merged])
          else Some smoothed_segments
        else Some smoothed_segments
      else Some smoothed_segments
    else Some smoothed_segments.

(** [clean_smooth.smooth_and_clean], from the thinned mask on. *)
Definition smooth_and_clean (skeleton : image) : option (list path) :=
  segments ← Tracer.remove_noise_from_skeleton skeleton 80;
  foldl clean_step (Some []) segments.

End Pipeline.

(** * Properties *)

(** ** Two-dimensional arrays *)

Lemma shaped_zeros h w : shaped h w (zeros h w).
Proof.
  split; [apply length_replicate|].
  apply Forall_replicate, length_replicate.
Qed.

Lemma shaped_set2 h w a y x v : shaped h w a → shaped h w (set2 a y x v).
Proof.
  intros [Hl Hr]. split.
  - unfold set2. by rewrite length_alter.
  - unfold set2. apply Forall_alter; [done|].
    intros row _ Hrow. by rewrite length_insert.
Qed.

Lemma get2_set2 h w a y x v y' x' :
  shaped h w a →
  0 <= y < Z.of_nat h → 0 <= x < Z.of_nat w → 0 <= y' → 0 <= x' →
  get2 (set2 a y x v) y' x' =
    if decide (y' = y ∧ x' = x) then v else get2 a y' x'.
Proof.
  intros [Hl Hr] Hy Hx Hy' Hx'. unfold get2, set2.
  destruct (decide (y' = y)) as [->|Hne].
  - rewrite list_lookup_alter_eq.
    destruct (a !! Z.to_nat y) as [row|] eqn:Hrow.
    + assert (length row = w) as Hw.
      { eapply Forall_lookup_1 in Hr; eauto. }
      simpl. destruct (decide (x' = x)) as [->|Hnx].
      * rewrite decide_True by done.
        rewrite list_lookup_insert_eq by lia. done.
      * rewrite decide_False by tauto.
        rewrite list_lookup_insert_ne by lia. done.
    + apply lookup_ge_None in Hrow. lia.
  - rewrite decide_False by tauto.
    rewrite list_lookup_alter_ne by lia. done.
Qed.

(** ** Loops as folds *)

(** A property of the loop state that every iteration preserves holds when
    the loop ends. *)
Lemma foldl_invariant {A B} (f : A → B → A) (P : A → Prop) (l : list B) :
  (∀ a x, x ∈ l → P a → P (f a x)) → ∀ a, P a → P (foldl f a l).
Proof.
  induction l as [|x l IH]; intros Hstep a Ha; simpl; [done|].
  apply IH.
  - intros a' y Hy. apply Hstep. by right.
  - apply Hstep; [left|done].
Qed.

(** ** Component tracer *)

Section tracer.
Import Tracer.

Variable skeleton : image.

Let H := img_height skeleton.
Let W := img_width skeleton.

Local Abbreviation pushed := (Tracer.pushed skeleton).
Local Abbreviation flood_inv := (Tracer.flood_inv skeleton).
Local Abbreviation scan_inv := (Tracer.scan_inv skeleton).

Lemma marked_set2 v x y p :
  shaped H W v → 0 <= x < Z.of_nat W → 0 <= y < Z.of_nat H →
  marked (set2 v y x 255) p ↔ marked v p ∨ p = (x, y).
Proof.
  intros Hs Hx Hy. destruct p as [px py]. unfold marked. simpl. split.
  - intros (Hpx & Hpy & Hm).
    rewrite (get2_set2 H W) in Hm by (done || lia).
    destruct (decide (py = y ∧ px = x)) as [[-> ->]|]; [by right|by left].
  - intros [(Hpx & Hpy & Hm)|[= -> ->]].
    + split_and!; [done..|].
      rewrite (get2_set2 H W) by (done || lia). by case_decide.
    + split_and!; [lia..|].
      rewrite (get2_set2 H W) by (done || lia).
      rewrite decide_True by done. done.
Qed.

Lemma length_bind_seq {A} (f : nat → list A) (k : nat) a n :
  (∀ i, length (f i) = k) → length (seq a n ≫= f) = (n * k)%nat.
Proof.
  intros Hf. revert a. induction n as [|n IH]; intros a; [done|].
  simpl. by rewrite length_app, IH, Hf.
Qed.

Lemma scan_order_length h w : length (scan_order h w) = (h * w)%nat.
Proof.
  unfold scan_order. apply length_bind_seq. intros y.
  rewrite (length_bind_seq _ 1%nat); [lia|done].
Qed.

Lemma elem_of_scan_order p :
  p ∈ scan_order H W ↔ in_bounds skeleton p.
Proof.
  unfold scan_order, in_bounds. fold H W. destruct p as [px py]. simpl. split.
  - intros (y & (x & Hin & Hx)%list_elem_of_bind & Hy)%list_elem_of_bind.
    apply elem_of_seq in Hx, Hy. apply list_elem_of_singleton in Hin.
    injection Hin as -> ->. lia.
  - intros [Hx Hy]. apply list_elem_of_bind. exists (Z.to_nat py). split.
    + apply list_elem_of_bind. exists (Z.to_nat px). split.
      * apply list_elem_of_singleton. f_equal; lia.
      * apply elem_of_seq. lia.
    + apply elem_of_seq. lia.
Qed.

(** No duplicate-free list of in-bounds pixels is longer than the grid. *)
Lemma in_bounds_length (l : list pixel) :
  NoDup l → (∀ p, p ∈ l → in_bounds skeleton p) → (length l ≤ H * W)%nat.
Proof.
  intros Hnd Hin. rewrite <- scan_order_length.
  apply submseteq_length, NoDup_submseteq; [done|].
  intros p Hp. by apply elem_of_scan_order, Hin.
Qed.

Lemma pushed_nil c st : shaped H W st.2 → pushed c st [] st.
Proof.
  intros Hs. split_and!; [done|done|constructor|..].
  - intros p Hp. by apply elem_of_nil in Hp.
  - intros p. rewrite elem_of_nil. tauto.
Qed.

Lemma pushed_trans c st1 new1 st2 new2 st3 :
  pushed c st1 new1 st2 → pushed c st2 new2 st3 →
  pushed c st1 (new2 ++ new1) st3.
Proof.
  intros (Hst1 & Hs1 & Hnd1 & Hnew1 & Hm1) (Hst2 & Hs2 & Hnd2 & Hnew2 & Hm2).
  split_and!.
  - rewrite Hst2, Hst1. by rewrite (assoc_L (++)).
  - done.
  - apply list.NoDup_app. split_and!; [done| |done].
    intros p Hp2 Hp1. apply Hnew2 in Hp2 as (_ & Hnm & _).
    apply Hnm, Hm1. by right.
  - intros p [Hp|Hp]%elem_of_app.
    + apply Hnew2 in Hp as (Hfg & Hnm & Hadj). split_and!; [done| |done].
      intros Hm. apply Hnm, Hm1. by left.
    + by apply Hnew1.
  - intros p. rewrite Hm2, Hm1, elem_of_app. tauto.
Qed.

Lemma visit_pushed cx cy st d :
  shaped H W st.2 → d ∈ offsets →
  ∃ new, pushed (cx, cy) st new
           (visit skeleton (Z.of_nat W) (Z.of_nat H) cx cy st d).
Proof.
  intros Hs Hd. destruct st as [stack v], d as [dx dy]. simpl in Hs.
  unfold visit.
  destruct ((dx =? 0) && (dy =? 0)) eqn:Hzero;
    [exists []; by apply pushed_nil|].
  cbv zeta.
  destruct ((0 <=? cx + dx) && (cx + dx <? Z.of_nat W)
            && (0 <=? cy + dy) && (cy + dy <? Z.of_nat H)) eqn:Hin;
    [|exists []; by apply pushed_nil].
  destruct ((get2 skeleton (cy + dy) (cx + dx) >? 0)
            && (get2 v (cy + dy) (cx + dx) =? 0)) eqn:Hfg;
    [|exists []; by apply pushed_nil].
  exists [(cx + dx, cy + dy)].
  repeat (apply andb_prop in Hin as [Hin ?]). apply andb_prop in Hfg as [Hfg Hun].
  assert (Z.max (Z.abs dx) (Z.abs dy) = 1) as Hadj.
  { apply andb_false_iff in Hzero. unfold offsets in Hd.
    repeat (apply elem_of_cons in Hd as [[= -> ->]|Hd]); try lia.
    by apply elem_of_nil in Hd. }
  split_and!; simpl.
  - done.
  - by apply shaped_set2.
  - apply NoDup_singleton.
  - intros p ->%list_elem_of_singleton. split_and!.
    + split; [split; simpl; lia|simpl; lia].
    + intros (_ & _ & Hm). simpl in Hm. lia.
    + unfold adjacent8. simpl. lia.
  - intros p. rewrite list_elem_of_singleton. apply marked_set2; [done|lia..].
Qed.

Lemma foldl_visit_pushed cx cy ds : ∀ st,
  shaped H W st.2 → (∀ d, d ∈ ds → d ∈ offsets) →
  ∃ new, pushed (cx, cy) st new
           (foldl (visit skeleton (Z.of_nat W) (Z.of_nat H) cx cy) st ds).
Proof.
  induction ds as [|d ds IH]; intros st Hs Hds; simpl.
  - exists []. by apply pushed_nil.
  - destruct (visit_pushed cx cy st d) as [new1 Hp1];
      [done|apply Hds; left|].
    destruct (IH (visit skeleton (Z.of_nat W) (Z.of_nat H) cx cy st d))
      as [new2 Hp2].
    + apply Hp1.
    + intros d' Hd'. apply Hds. by right.
    + exists (new2 ++ new1). by eapply pushed_trans.
Qed.

Lemma tree_order_nil : tree_order [].
Proof. intros l1 p l2 Heq. by destruct l1. Qed.

Lemma tree_order_snoc l c :
  tree_order l → attached l c → tree_order (l ++ [c]).
Proof.
  intros Hl Hc l1 p l2 Heq.
  destruct l2 as [|q l2 _] using rev_ind.
  - apply app_inj_tail in Heq as [-> ->]. done.
  - rewrite app_comm_cons, (assoc_L (++)) in Heq.
    apply app_inj_tail in Heq as [-> _]. by eapply Hl.
Qed.

Lemma flood_inv_step v0 cx cy rest points v stack' v' :
  flood_inv v0 ((cx, cy) :: rest) points v →
  foldl (visit skeleton (Z.of_nat W) (Z.of_nat H) cx cy) (rest, v) offsets
    = (stack', v') →
  flood_inv v0 stack' (points ++ [(cx, cy)]) v' ∧
  (∀ p, p ∈ points ++ (cx, cy) :: rest → p ∈ (points ++ [(cx, cy)]) ++ stack').
Proof.
  intros (Hs & Hnd & Hfg & Hm & Hto & Hst) Hfold.
  destruct (foldl_visit_pushed cx cy offsets (rest, v)) as [new Hp];
    [done|done|].
  rewrite Hfold in Hp. destruct Hp as (Hst' & Hs' & Hndn & Hnew & Hm').
  simpl in *. subst stack'.
  assert (∀ p, p ∈ new → p ∉ points ++ (cx, cy) :: rest) as Hfresh.
  { intros p Hp Hin. apply Hnew in Hp as (_ & Hnm & _).
    apply Hnm, Hm. by right. }
  split; [|intros p; rewrite !elem_of_app, !elem_of_cons, elem_of_nil; tauto].
  split_and!.
  - done.
  - assert ((points ++ [(cx, cy)]) ++ new ++ rest
            ≡ₚ new ++ points ++ (cx, cy) :: rest) as -> by solve_Permutation.
    apply list.NoDup_app. split_and!; done.
  - intros p Hp.
    assert (p ∈ new ∨ p ∈ points ++ (cx, cy) :: rest) as [Hpn|Hpo].
    { revert Hp. rewrite !elem_of_app, !elem_of_cons, elem_of_nil. tauto. }
    + destruct (Hnew p Hpn) as (Hf & Hnm & _). split; [done|].
      intros Hm0. apply Hnm, Hm. by left.
    + by apply Hfg.
  - intros p. rewrite Hm', Hm.
    rewrite !elem_of_app, !elem_of_cons, elem_of_nil. tauto.
  - apply tree_order_snoc; [done|].
    destruct Hst as [[-> _]|Hst]; [by left|].
    right. apply Hst. left.
  - right. intros s [Hsn|Hsr]%elem_of_app.
    + exists (cx, cy). split; [apply elem_of_app; right; left|].
      by apply Hnew.
    + destruct Hst as [[-> Hlen]|Hst].
      * simpl in Hlen. destruct rest; [by apply elem_of_nil in Hsr|simpl in Hlen; lia].
      * destruct (Hst s) as (q & Hq & Hadj); [by right|].
        exists q. split; [apply elem_of_app; by left|done].
Qed.

Lemma flood_unfold fuel w h cx cy rest points v :
  flood (S fuel) skeleton w h ((cx, cy) :: rest) points v =
    let '(stack', v') :=
      foldl (visit skeleton w h cx cy) (rest, v) offsets in
    flood fuel skeleton w h stack' (points ++ [(cx, cy)]) v'.
Proof. reflexivity. Qed.

(** With fuel for every pixel not yet in [points], the loop finishes, and
    the invariant holds of its result with an empty stack. *)
Lemma flood_spec v0 fuel : ∀ stack points v,
  flood_inv v0 stack points v →
  (H * W ≤ fuel + length points)%nat →
  ∃ pts v',
    flood fuel skeleton (Z.of_nat W) (Z.of_nat H) stack points v
      = Some (pts, v') ∧
    flood_inv v0 [] pts v' ∧
    (∀ p, p ∈ points ++ stack → p ∈ pts).
Proof.
  induction fuel as [|fuel IH]; intros stack points v Hinv Hfuel.
  - destruct stack as [|[cx cy] rest].
    + exists points, v. split_and!; [done|done|].
      intros p. by rewrite app_nil_r.
    + exfalso. destruct Hinv as (_ & Hnd & Hfg & _).
      pose proof (in_bounds_length _ Hnd (λ p Hp, proj1 (proj1 (Hfg p Hp)))) as Hl.
      rewrite length_app in Hl. simpl in *. lia.
  - destruct stack as [|[cx cy] rest].
    + exists points, v. split_and!; [done|done|].
      intros p. by rewrite app_nil_r.
    + rewrite flood_unfold.
      destruct (foldl (visit skeleton (Z.of_nat W) (Z.of_nat H) cx cy)
                      (rest, v) offsets) as [stack' v'] eqn:Hfold.
      destruct (flood_inv_step _ _ _ _ _ _ _ _ Hinv Hfold) as [Hinv' Hkeep].
      destruct (IH stack' (points ++ [(cx, cy)]) v' Hinv')
        as (pts & v'' & Hfl & Hres & Hsub).
      { rewrite length_app. simpl. lia. }
      exists pts, v''. split_and!; [done|done|].
      intros p Hp. by apply Hsub, Hkeep.
Qed.

Lemma scan_inv_init keep : scan_inv keep [] (Some (zeros H W, [])).
Proof.
  assert (∀ p, ¬ marked (zeros H W) p) as Hz.
  { intros [px py] (Hx & Hy & Hm). apply Hm. simpl in *.
    unfold get2, zeros.
    destruct (replicate H (replicate W 0) !! Z.to_nat py) as [row|] eqn:Hrow;
      [|done].
    apply lookup_replicate in Hrow as [-> _]. simpl.
    destruct (replicate W 0 !! Z.to_nat px) as [c|] eqn:Hc; [|done].
    by apply lookup_replicate in Hc as [-> _]. }
  exists (zeros H W), []. split_and!.
  - done.
  - apply shaped_zeros.
  - constructor.
  - intros p Hp. by apply elem_of_nil in Hp.
  - intros p Hp. by apply Hz in Hp.
  - intros p Hp. by apply elem_of_nil in Hp.
  - intros path Hp. by apply elem_of_nil in Hp.
  - intros _ p Hp. by apply Hz in Hp.
Qed.

Lemma scan_inv_step keep pre st p :
  in_bounds skeleton p → scan_inv keep pre st →
  scan_inv keep (pre ++ [p]) (scan_step keep skeleton st p).
Proof.
  intros Hin (visited & contours & -> & Hs & Hnd & Hcm & Hmf & Hpre & Hpaths & Hall).
  destruct p as [x y]. destruct Hin as [Hx Hy]. simpl in Hx, Hy.
  unfold scan_step. simpl.
  destruct ((get2 skeleton y x =? 0) || negb (get2 visited y x =? 0)) eqn:Hskip.
  - exists visited, contours. split_and!; try done.
    intros q [Hq| ->%list_elem_of_singleton]%elem_of_app Hfg; [by apply Hpre|].
    apply orb_prop in Hskip as [Hbg|Hvis].
    + destruct Hfg as [_ Hfg]. simpl in Hfg. lia.
    + apply negb_true_iff in Hvis. split_and!; simpl; lia.
  - apply orb_false_elim in Hskip as [Hfg Hvis].
    apply negb_false_iff in Hvis.
    assert (foreground skeleton (x, y)) as Hseed by (split; [split|]; simpl; lia).
    assert (¬ marked visited (x, y)) as Hnew by (intros (_ & _ & Hm); simpl in Hm; lia).
    destruct (flood_spec visited (H * W) [(x, y)] [] (set2 visited y x 255))
      as (pts & v' & Hfl & (Hs' & Hnd' & Hfg' & Hm' & Hto' & _) & Hsub).
    { split_and!.
      - by apply shaped_set2.
      - apply NoDup_singleton.
      - intros q ->%list_elem_of_singleton. done.
      - intros q. simpl. rewrite list_elem_of_singleton.
        by apply marked_set2.
      - apply tree_order_nil.
      - left. split; [done|simpl; lia]. }
    { simpl. lia. }
    fold H W. rewrite Hfl. simpl.
    rewrite app_nil_r in Hnd', Hfg', Hm'.
    assert ((x, y) ∈ pts) as Hseed_in by (apply Hsub; left).
    assert (pts ≠ []) as Hne by (intros ->; by apply elem_of_nil in Hseed_in).
    assert (∀ q, marked v' q → foreground skeleton q) as Hmf'.
    { intros q [Hq|Hq]%Hm'; [by apply Hmf|by apply Hfg']. }
    assert (∀ q, q ∈ pre ++ [(x, y)] → foreground skeleton q → marked v' q)
      as Hpre'.
    { intros q [Hq| ->%list_elem_of_singleton]%elem_of_app Hq'; apply Hm'.
      - left. by apply Hpre.
      - by right. }
    destruct (keep (length pts)) eqn:Hkeep.
    + exists v', (contours ++ [pts]).
      rewrite concat_app. simpl. rewrite app_nil_r.
      split_and!; try done.
      * apply list.NoDup_app. split_and!; [done| |done].
        intros q Hq Hq'. apply Hfg' in Hq' as [_ Hq']. by apply Hq', Hcm.
      * intros q [Hq|Hq]%elem_of_app; apply Hm'; [left; by apply Hcm|by right].
      * intros path [Hp| ->%list_elem_of_singleton]%elem_of_app;
          [by apply Hpaths|done].
      * intros Hk q [Hq|Hq]%Hm'; apply elem_of_app; [left; by apply Hall|by right].
    + exists v', contours. split_and!; try done.
      * intros q Hq. apply Hm'. left. by apply Hcm.
      * intros Hk. rewrite Hk in Hkeep; [done|].
        destruct pts; [done|simpl; lia].
Qed.

Lemma foldl_scan_inv keep (l pre : list pixel) st :
  (∀ p, p ∈ l → in_bounds skeleton p) → scan_inv keep pre st →
  scan_inv keep (pre ++ l) (foldl (scan_step keep skeleton) st l).
Proof.
  revert pre st. induction l as [|p l IH]; intros pre st Hl Hinv; simpl.
  - by rewrite app_nil_r.
  - rewrite (cons_middle p pre l), (assoc_L (++)). apply IH.
    + intros q Hq. apply Hl. by right.
    + apply scan_inv_step; [apply Hl; left|done].
Qed.

(** What every variant of the tracer guarantees, whatever its length
    filter: it returns, and the paths it returns are non-empty, pairwise
    disjoint, repetition-free lists of foreground pixels in tree order;
    when the filter keeps every non-empty component, no foreground pixel
    is missing. *)
Lemma trace_spec keep :
  ∃ contours, trace keep skeleton = Some contours ∧
    NoDup (concat contours) ∧
    (∀ p, p ∈ concat contours → foreground skeleton p) ∧
    (∀ path, path ∈ contours →
       path ≠ [] ∧ tree_order path ∧ keep (length path) = true) ∧
    ((∀ n, (1 ≤ n)%nat → keep n = true) →
       ∀ p, foreground skeleton p → p ∈ concat contours).
Proof.
  destruct (foldl_scan_inv keep (scan_order H W) [] (Some (zeros H W, [])))
    as (visited & contours & Hst & Hs & Hnd & Hcm & Hmf & Hpre & Hpaths & Hall).
  { intros p Hp. by apply elem_of_scan_order. }
  { apply scan_inv_init. }
  exists contours. unfold trace. fold H W. rewrite Hst. simpl.
  split_and!; try done.
  - intros p Hp. by apply Hmf, Hcm.
  - intros Hk p Hp. apply Hall; [done|]. apply Hpre; [|done].
    simpl. apply elem_of_scan_order, Hp.
Qed.

End tracer.

Lemma elem_of_concat {A} (x : A) (ls : list (list A)) :
  x ∈ concat ls ↔ ∃ l i, ls !! i = Some l ∧ x ∈ l.
Proof.
  induction ls as [|l0 ls IH]; simpl.
  - rewrite elem_of_nil. split; [done|]. by intros (l & i & Hl & _).
  - rewrite elem_of_app, IH. split.
    + intros [Hx|(l & i & Hl & Hx)]; [by exists l0, 0%nat|by exists l, (S i)].
    + intros (l & [|i] & Hl & Hx); simplify_eq/=; [by left|right; eauto].
Qed.

Lemma NoDup_concat_unique {A} (ls : list (list A)) i j a b x :
  NoDup (concat ls) → ls !! i = Some a → ls !! j = Some b →
  x ∈ a → x ∈ b → i = j.
Proof.
  revert i j. induction ls as [|l0 ls IH]; intros i j Hnd Hi Hj Ha Hb; [done|].
  simpl in Hnd. apply list.NoDup_app in Hnd as (_ & Hdisj & Hnd).
  destruct i as [|i], j as [|j]; simplify_eq/=; [done| | |f_equal; eauto].
  - exfalso. apply (Hdisj x Ha), elem_of_concat. eauto.
  - exfalso. apply (Hdisj x Hb), elem_of_concat. eauto.
Qed.

Lemma NoDup_concat_each {A} (ls : list (list A)) i a :
  NoDup (concat ls) → ls !! i = Some a → NoDup a.
Proof.
  revert i. induction ls as [|l0 ls IH]; intros i Hnd Hi; [done|].
  simpl in Hnd. apply list.NoDup_app in Hnd as (Hl0 & _ & Hnd).
  destruct i as [|i]; simplify_eq/=; eauto.
Qed.

(** C1: with a minimum length that discards no component ([min_length <= 1]),
    [remove_noise_from_skeleton] returns a path collection such that every
    foreground pixel of the mask lies in a path, in one path only, and once
    in that path (no path repeats a pixel, and the concatenation of all
    paths repeats none); the paths hold foreground pixels only; and on an
    all-background mask the collection is empty. *)
Theorem remove_noise_partitions (skeleton : image) (min_length : Z) :
  min_length <= 1 →
  ∃ contours,
    Tracer.remove_noise_from_skeleton skeleton min_length = Some contours ∧
    (∀ p, Tracer.foreground skeleton p →
       ∃ i path, contours !! i = Some path ∧ p ∈ path ∧
         ∀ j path', contours !! j = Some path' → p ∈ path' → j = i) ∧
    (∀ i path, contours !! i = Some path → NoDup path) ∧
    NoDup (concat contours) ∧
    (∀ p, p ∈ concat contours ↔ Tracer.foreground skeleton p) ∧
    ((∀ x y, get2 skeleton y x = 0) → contours = []).
Proof.
  intros Hmin.
  destruct (trace_spec skeleton (λ n, min_length <=? Z.of_nat n))
    as (contours & Htr & Hnd & Hfg & Hpaths & Hall).
  assert (∀ p, Tracer.foreground skeleton p → p ∈ concat contours) as Hall'.
  { apply Hall. intros n Hn. lia. }
  exists contours. split_and!; [done| | |done| |].
  - intros p Hp. apply Hall', elem_of_concat in Hp as (path & i & Hi & Hin).
    exists i, path. split_and!; [done..|].
    intros j path' Hj Hin'. by eapply (NoDup_concat_unique contours j i).
  - intros i path Hi. by eapply NoDup_concat_each.
  - intros p. split; [apply Hfg|apply Hall'].
  - intros Hbg. destruct contours as [|path contours]; [done|]. exfalso.
    destruct (Hpaths path) as (Hne & _); [left|].
    destruct path as [|p path]; [done|].
    destruct (Hfg p) as [_ Hp]; [simpl; left|].
    by apply Hp, Hbg.
Qed.

Lemma remove_noise_partitions_witness :
  ∃ contours,
    Tracer.remove_noise_from_skeleton Tracer.vee 1 = Some contours ∧
    (∀ p, Tracer.foreground Tracer.vee p →
       ∃ i path, contours !! i = Some path ∧ p ∈ path ∧
         ∀ j path', contours !! j = Some path' → p ∈ path' → j = i) ∧
    (∀ i path, contours !! i = Some path → NoDup path) ∧
    NoDup (concat contours) ∧
    (∀ p, p ∈ concat contours ↔ Tracer.foreground Tracer.vee p) ∧
    ((∀ x y, get2 Tracer.vee y x = 0) → contours = []).
Proof. apply (remove_noise_partitions Tracer.vee 1). lia. Defined.

(** C2, as stated, fails: on the mask [vee], [trace_all_contours] returns one
    path, and the path steps from the end of one arm, [(6, 3)], to the start of
    the other, [(2, 1)]. *)
Lemma trace_all_contours_jumps :
  ∃ path, Tracer.trace_all_contours Tracer.vee = Some [path] ∧
          ¬ Tracer.consecutive_adjacent path.
Proof.
  exists [(3, 0); (4, 1); (5, 2); (6, 3); (2, 1); (1, 2); (0, 3)].
  split; [by vm_compute|].
  unfold Tracer.consecutive_adjacent, Tracer.adjacent8. simpl. lia.
Qed.

(** C2, amended: [trace_all_contours] and [skeleton_to_contours] return, and
    in every path they return each point but the first is 8-adjacent to some
    point earlier in the same path (not always to the one just before it). *)
Theorem trace_all_contours_tree_order (skeleton : image) :
  ∃ contours,
    Tracer.trace_all_contours skeleton = Some contours ∧
    Tracer.skeleton_to_contours skeleton = Some contours ∧
    ∀ path, path ∈ contours → Tracer.tree_order path.
Proof.
  destruct (trace_spec skeleton (λ n, 5 <? n)%nat)
    as (contours & Htr & _ & _ & Hpaths & _).
  exists contours. split_and!; [done|done|].
  intros path Hp. by apply Hpaths.
Qed.

(** ** Distance decimation *)

Section decimation.
Import Filters.

Context {P : Type} (far : P → P → bool).

(** The loop, started from the kept points [acc ++ [l]], appends the points
    [kept_after] selects. *)
Lemma foldl_decimate_step rest : ∀ acc l,
  foldl (decimate_step far) (acc ++ [l]) rest = acc ++ l :: kept_after far l rest.
Proof.
  induction rest as [|p rest IH]; intros acc l; simpl; [done|].
  unfold decimate_step at 2. rewrite last_snoc.
  destruct (far p l).
  - rewrite IH. by rewrite <- (assoc_L (++)).
  - apply IH.
Qed.

Lemma decimate_cons guard p0 rest :
  (guard ≤ length (p0 :: rest))%nat →
  decimate far guard (p0 :: rest) = p0 :: kept_after far p0 rest.
Proof.
  intros Hlen. unfold decimate.
  destruct (Nat.ltb_spec (length (p0 :: rest)) guard) as [Hlt|_]; [lia|].
  apply (foldl_decimate_step rest [] p0).
Qed.

Lemma decimate_short guard points :
  (length points < guard)%nat → decimate far guard points = points.
Proof.
  intros Hlen. unfold decimate.
  by destruct (Nat.ltb_spec (length points) guard) as [_|Hge]; [|lia].
Qed.

Lemma decimate_nil guard : decimate far guard [] = [].
Proof. unfold decimate. by destruct (_ <? _)%nat. Qed.

(** Walking the kept points again keeps them all. *)
Lemma kept_after_idemp rest : ∀ l,
  kept_after far l (kept_after far l rest) = kept_after far l rest.
Proof.
  induction rest as [|p rest IH]; intros l; simpl; [done|].
  destruct (far p l) eqn:Hfar; simpl; [|apply IH].
  by rewrite Hfar, IH.
Qed.

Lemma decimate_idemp guard points :
  decimate far guard (decimate far guard points) = decimate far guard points.
Proof.
  destruct (decide (length points < guard)%nat) as [Hlt|Hge].
  - rewrite (decimate_short guard points) by done. by apply decimate_short.
  - destruct points as [|p0 rest]; [by rewrite !decimate_nil|].
    rewrite (decimate_cons guard p0 rest) by lia.
    destruct (decide (length (p0 :: kept_after far p0 rest) < guard)%nat).
    + by apply decimate_short.
    + rewrite decimate_cons by lia. by rewrite kept_after_idemp.
Qed.

Lemma decimate_head guard points :
  list.head (decimate far guard points) = list.head points.
Proof.
  destruct (decide (length points < guard)%nat) as [Hlt|Hge].
  - by rewrite decimate_short.
  - destruct points as [|p0 rest]; [by rewrite !decimate_nil|].
    by rewrite decimate_cons by lia.
Qed.

End decimation.

(** C4, as stated, fails: decimating the 50-point diagonal with tolerance 5
    keeps the points (0,0), (4,4), ..., (48,48); the last kept point is
    (48,48), and the input's last point (49,49) is dropped. *)
Lemma diagonal_last_point_dropped :
  ¬ ((length (Filters.simplify_path_points (to_points (Filters.diagonal 50)) 5)
        < 50)%nat ∧
     (2 ≤ length (Filters.simplify_path_points (to_points (Filters.diagonal 50)) 5))%nat ∧
     list.head (Filters.simplify_path_points (to_points (Filters.diagonal 50)) 5)
       = list.head (to_points (Filters.diagonal 50)) ∧
     list.last (Filters.simplify_path_points (to_points (Filters.diagonal 50)) 5)
       = list.last (to_points (Filters.diagonal 50))).
Proof.
  intros (_ & _ & _ & Hlast).
  vm_compute in Hlast. discriminate Hlast.
Qed.

(** C4, amended: the tracer turns the 50-pixel diagonal (minimum length 10)
    into one path of 50 points; decimating it with tolerance 5 (by
    [simplify_path_points] or [simplify_path]) gives 13 points, fewer than 50
    and at least 2; the first point is the input's first point, (0,0), and
    the last is (48,48), not the input's last point. *)
Theorem diagonal_decimation :
  Tracer.remove_noise_from_skeleton (Filters.diagonal_mask 50) 10
    = Some [Filters.diagonal 50] ∧
  length (to_points (Filters.diagonal 50)) = 50%nat ∧
  Filters.simplify_path (to_points (Filters.diagonal 50)) 5
    = Filters.simplify_path_points (to_points (Filters.diagonal 50)) 5 ∧
  length (Filters.simplify_path_points (to_points (Filters.diagonal 50)) 5)
    = 13%nat ∧
  list.head (Filters.simplify_path_points (to_points (Filters.diagonal 50)) 5)
    = list.head (to_points (Filters.diagonal 50)) ∧
  list.last (Filters.simplify_path_points (to_points (Filters.diagonal 50)) 5)
    = Some (48%Q, 48%Q).
Proof. by vm_compute. Qed.

(** C5: applying [simplify_path_points] twice with one tolerance gives what
    applying it once gives, for every path and every tolerance. *)
Theorem simplify_path_points_idempotent (points : path) (tolerance : Q) :
  Filters.simplify_path_points (Filters.simplify_path_points points tolerance)
                               tolerance
  = Filters.simplify_path_points points tolerance.
Proof. apply decimate_idemp. Qed.

(** ** Chaikin corner cutting *)

Lemma chaikin_step_ends pts :
  pts ≠ [] →
  ∃ r, Filters.chaikin_step pts = Some r ∧
       list.head r = list.head pts ∧ list.last r = list.last pts.
Proof.
  intros Hne. unfold Filters.chaikin_step.
  destruct pts as [|p0 rest]; [done|]. simpl.
  destruct (list.last (p0 :: rest)) as [final|] eqn:Hlast.
  - simpl. eexists. split; [done|]. split; [done|].
    by rewrite app_comm_cons, last_snoc.
  - by apply last_None in Hlast.
Qed.

Lemma chaikin_iter_ends n pts :
  pts ≠ [] →
  ∃ r, Nat.iter n (λ result, result ≫= Filters.chaikin_step) (Some pts) = Some r ∧
       list.head r = list.head pts ∧ list.last r = list.last pts.
Proof.
  intros Hne. induction n as [|n (r & Hr & Hh & Hl)]; simpl.
  - by exists pts.
  - rewrite Hr. simpl.
    destruct (chaikin_step_ends r) as (r' & Hr' & Hh' & Hl').
    { intros ->. destruct pts; [done|discriminate Hh]. }
    exists r'. split; [done|]. by rewrite Hh', Hl'.
Qed.

(** C6: for every path and every iteration count, [chaikin_smooth] returns
    a path whose first and last points are the input's first and last
    points. *)
Theorem chaikin_smooth_endpoints (points : path) (iterations : Z) :
  ∃ result,
    Filters.chaikin_smooth points iterations = Some result ∧
    list.head result = list.head points ∧
    list.last result = list.last points.
Proof.
  unfold Filters.chaikin_smooth.
  destruct ((length points <? 4)%nat || (iterations <=? 0)) eqn:Hguard.
  - by exists points.
  - apply chaikin_iter_ends. intros ->. done.
Qed.

(** ** Douglas-Peucker simplification *)

Lemma Qltb_lt a b : Qltb a b = true ↔ (a < b)%Q.
Proof.
  unfold Qltb. rewrite negb_true_iff, <- not_true_iff_false, Qle_bool_iff.
  split; [apply Qnot_le_lt|apply Qlt_not_le].
Qed.

Lemma Qltb_ge a b : Qltb a b = false ↔ (b <= a)%Q.
Proof. unfold Qltb. by rewrite negb_false_iff, Qle_bool_iff. Qed.

(** The comparisons on squares are the comparisons the code makes on the
    roots, read over the real numbers. *)
Lemma sqrt_lt_real (s t : Q) :
  (0 <= s)%Q → sqrt_lt s t = true ↔ (sqrt (Q2R s) < Q2R t)%R.
Proof.
  intros Hs%Qle_Rle. rewrite RMicromega.Q2R_0 in Hs.
  unfold sqrt_lt. rewrite andb_true_iff, !Qltb_lt. split.
  - intros [Ht%Qlt_Rlt Hst%Qlt_Rlt].
    rewrite RMicromega.Q2R_0 in Ht. rewrite Q2R_mult in Hst.
    rewrite <- (sqrt_square (Q2R t)) by lra.
    apply sqrt_lt_1; [lra|nra|lra].
  - intros Hlt. pose proof (sqrt_pos (Q2R s)) as Hpos.
    pose proof (sqrt_sqrt (Q2R s) Hs) as Hsq.
    split; apply Rlt_Qlt.
    + rewrite RMicromega.Q2R_0. lra.
    + rewrite Q2R_mult. nra.
Qed.

Lemma sqrt_ge_real (s t : Q) :
  (0 <= s)%Q → sqrt_ge s t = true ↔ (Q2R t <= sqrt (Q2R s))%R.
Proof.
  intros Hs. unfold sqrt_ge. rewrite negb_true_iff, <- not_true_iff_false.
  rewrite (sqrt_lt_real s t Hs). split; lra.
Qed.

Lemma sqrt_gt_real (s t : Q) :
  (0 <= s)%Q → sqrt_gt s t = true ↔ (Q2R t < sqrt (Q2R s))%R.
Proof.
  intros Hs%Qle_Rle. rewrite RMicromega.Q2R_0 in Hs.
  pose proof (sqrt_pos (Q2R s)) as Hpos.
  pose proof (sqrt_sqrt (Q2R s) Hs) as Hsq.
  unfold sqrt_gt. rewrite orb_true_iff, !Qltb_lt. split.
  - intros [Ht%Qlt_Rlt|Hts%Qlt_Rlt].
    + rewrite RMicromega.Q2R_0 in Ht. lra.
    + rewrite Q2R_mult in Hts.
      destruct (Rlt_le_dec (Q2R t) 0) as [Hneg|Hnn]; [lra|].
      rewrite <- (sqrt_square (Q2R t)) by lra.
      apply sqrt_lt_1; [nra|lra|lra].
  - intros Hlt. destruct (Rlt_le_dec (Q2R t) 0) as [Hneg|Hnn].
    + left. apply Rlt_Qlt. by rewrite RMicromega.Q2R_0.
    + right. apply Rlt_Qlt. rewrite Q2R_mult. nra.
Qed.

Lemma sqrt_lt_sqrt_real (s s' : Q) :
  (0 <= s)%Q → (0 <= s')%Q →
  Qltb s s' = true ↔ (sqrt (Q2R s) < sqrt (Q2R s'))%R.
Proof.
  intros Hs%Qle_Rle Hs'%Qle_Rle. rewrite RMicromega.Q2R_0 in Hs, Hs'.
  rewrite Qltb_lt. split.
  - intros Hlt%Qlt_Rlt. by apply sqrt_lt_1.
  - intros Hlt. apply Rlt_Qlt. by apply sqrt_lt_0.
Qed.

Lemma sqdist_nonneg p q : (0 <= sqdist p q)%Q.
Proof.
  unfold sqdist. generalize (p.1 - q.1)%Q (p.2 - q.2)%Q. intros a b. nra.
Qed.

(** ** Rounding

    [rnd] is rounding to binary64 on the range the code uses: it is
    monotone, it leaves a whole number of up to 53 bits as it is, and from
    1 up to [2^53] its result is within one part in [2^53] of its
    argument.  The code's [np.sqrt(s)] is [rnd (sqrt s)].  The lemmas below
    show that on pixel coordinates and whole thresholds the code's
    comparisons of rounded roots are the comparisons on squares made by
    [sqrt_lt], [sqrt_ge], [sqrt_gt] and [Qltb]. *)

Lemma whole_spec c :
  whole c = true → ∃ z : Z, (Z.abs z < 2 ^ 20)%Z ∧ Q2R c = IZR z.
Proof.
  unfold whole. intros [Heq%Qeq_bool_eq Hb%Z.ltb_lt]%andb_true_iff.
  exists (Qfloor c). split; [done|].
  rewrite (Qeq_eqR _ _ Heq). unfold Q2R, inject_Z. simpl. lra.
Qed.

(** The squared distance of two pixels is a whole number of at most 43
    bits: the code computes it without rounding. *)
Lemma pixel_sqdist p q :
  pixel_point p = true → pixel_point q = true →
  ∃ s : Z, (0 <= s < 2 ^ 43)%Z ∧ Q2R (sqdist p q) = IZR s.
Proof.
  unfold pixel_point.
  intros [(a & Ha & Hpa)%whole_spec (b & Hb & Hpb)%whole_spec]%andb_true_iff
         [(c & Hc & Hqc)%whole_spec (d & Hd & Hqd)%whole_spec]%andb_true_iff.
  exists ((a - c) * (a - c) + (b - d) * (b - d))%Z. split.
  - assert (∀ x : Z, - 2097152 < x < 2097152 → 0 <= x * x < 4398046511104)%Z
      as Hsquare by (intros x Hx; nia).
    pose proof (Hsquare (a - c)%Z ltac:(lia)).
    pose proof (Hsquare (b - d)%Z ltac:(lia)).
    lia.
  - unfold sqdist. rewrite Q2R_plus, !Q2R_mult, !Q2R_minus, Hpa, Hpb, Hqc, Hqd.
    by rewrite plus_IZR, !mult_IZR, !minus_IZR.
Qed.

Section rounding.

Variable rnd : R → R.
Hypothesis rnd_monotone : ∀ x y, (x <= y)%R → (rnd x <= rnd y)%R.
Hypothesis rnd_whole : ∀ n : Z, (Z.abs n <= 2 ^ 53)%Z → rnd (IZR n) = IZR n.
Hypothesis rnd_error :
  ∀ x, (1 <= x <= 9007199254740992)%R →
       (Rabs (rnd x - x) * 9007199254740992 <= x)%R.

Lemma rnd_bounds x :
  (1 <= x <= 9007199254740992)%R →
  (9007199254740991 * x <= 9007199254740992 * rnd x
   <= 9007199254740993 * x)%R.
Proof.
  intros Hx. pose proof (rnd_error x Hx) as He.
  destruct (Rcase_abs (rnd x - x)) as [Hneg|Hpos].
  - rewrite (Rabs_left _ Hneg) in He. lra.
  - rewrite (Rabs_right _ Hpos) in He. lra.
Qed.

Lemma sqrt_whole (s : Z) :
  (0 <= s)%Z →
  (0 <= sqrt (IZR s))%R ∧ (sqrt (IZR s) * sqrt (IZR s) = IZR s)%R ∧
  ((1 <= s)%Z → (1 <= sqrt (IZR s))%R).
Proof.
  intros Hs%IZR_le. split_and!.
  - apply sqrt_pos.
  - by apply sqrt_sqrt.
  - intros H1%IZR_le. rewrite <- sqrt_1. by apply sqrt_le_1; lra.
Qed.

Lemma square_lt_whole (s t : Z) :
  (IZR s < IZR t * IZR t)%R → (IZR s <= IZR t * IZR t - 1)%R.
Proof.
  rewrite <- mult_IZR. intros Hlt%lt_IZR.
  rewrite <- minus_IZR. apply IZR_le. lia.
Qed.

(** The rounded root of a whole number is below a whole threshold exactly
    when the root is. *)
Lemma rounded_sqrt_lt (s t : Z) :
  (0 <= s)%Z → (Z.abs t < 2 ^ 26)%Z →
  (rnd (sqrt (IZR s)) < IZR t ↔ sqrt (IZR s) < IZR t)%R.
Proof.
  intros Hs Ht. destruct (sqrt_whole s Hs) as (Hpos & Hsq & Hone).
  split.
  - intros Hlt. destruct (Rlt_le_dec (sqrt (IZR s)) (IZR t)) as [|Hge]; [done|].
    apply rnd_monotone in Hge. rewrite rnd_whole in Hge by lia. lra.
  - intros Hlt.
    destruct (decide (s = 0%Z)) as [->|Hnz].
    { rewrite sqrt_0 in *. change 0%R with (IZR 0). rewrite rnd_whole by lia.
      done. }
    specialize (Hone ltac:(lia)).
    assert (IZR s <= IZR t * IZR t - 1)%R as Hgap
      by (apply square_lt_whole; nra).
    assert (IZR t <= 67108863)%R as Htop by (apply IZR_le; lia).
    pose proof (rnd_bounds (sqrt (IZR s)) ltac:(lra)) as [_ Hup].
    enough (9007199254740993 * sqrt (IZR s) < 9007199254740992 * IZR t)%R by lra.
    destruct (Rlt_le_dec (9007199254740993 * sqrt (IZR s))
                         (9007199254740992 * IZR t)) as [|Hno]; [done|].
    exfalso.
    assert (9007199254740992 * IZR t * (9007199254740992 * IZR t)
            <= 9007199254740993 * sqrt (IZR s)
               * (9007199254740993 * sqrt (IZR s)))%R as Hsquare
      by (apply Rmult_le_compat; lra).
    assert (IZR t * IZR t <= 67108863 * 67108863)%R as Htt by nra.
    nra.
Qed.

(** The rounded root of a whole number is above a whole threshold exactly
    when the root is. *)
Lemma rounded_sqrt_gt (s t : Z) :
  (0 <= s < 2 ^ 53)%Z → (Z.abs t < 2 ^ 26)%Z →
  (IZR t < rnd (sqrt (IZR s)) ↔ IZR t < sqrt (IZR s))%R.
Proof.
  intros [Hs Hb] Ht. destruct (sqrt_whole s Hs) as (Hpos & Hsq & Hone).
  split.
  - intros Hlt. destruct (Rlt_le_dec (IZR t) (sqrt (IZR s))) as [|Hge]; [done|].
    apply rnd_monotone in Hge. rewrite rnd_whole in Hge by lia. lra.
  - intros Hlt.
    destruct (decide (s = 0%Z)) as [->|Hnz].
    { rewrite sqrt_0 in *. change 0%R with (IZR 0). rewrite rnd_whole by lia.
      done. }
    specialize (Hone ltac:(lia)).
    assert (IZR s <= 9007199254740991)%R as Hbound by (apply IZR_le; lia).
    pose proof (rnd_bounds (sqrt (IZR s)) ltac:(nra)) as [Hlow _].
    destruct (Rlt_le_dec (IZR t) 0) as [Hneg|Hnn]; [lra|].
    assert (IZR t * IZR t + 1 <= IZR s)%R as Hgap.
    { rewrite <- mult_IZR, <- plus_IZR. apply IZR_le.
      assert (IZR (t * t) < IZR s)%R as Hts%lt_IZR by (rewrite mult_IZR; nra).
      lia. }
    assert (IZR t <= 67108863)%R as Htop by (apply IZR_le; lia).
    enough (9007199254740992 * IZR t < 9007199254740991 * sqrt (IZR s))%R by lra.
    destruct (Rlt_le_dec (9007199254740992 * IZR t)
                         (9007199254740991 * sqrt (IZR s))) as [|Hno]; [done|].
    exfalso.
    assert (9007199254740991 * sqrt (IZR s)
            * (9007199254740991 * sqrt (IZR s))
            <= 9007199254740992 * IZR t * (9007199254740992 * IZR t))%R
      as Hsquare by (apply Rmult_le_compat; lra).
    assert (IZR t * IZR t <= 67108863 * 67108863)%R as Htt by nra.
    nra.
Qed.

(** The rounded roots of two whole numbers are ordered as the numbers
    are. *)
Lemma rounded_sqrt_order (s1 s2 : Z) :
  (0 <= s1 < 2 ^ 51)%Z → (0 <= s2 < 2 ^ 51)%Z →
  (rnd (sqrt (IZR s1)) < rnd (sqrt (IZR s2))
   ↔ sqrt (IZR s1) < sqrt (IZR s2))%R.
Proof.
  intros [Hs1 Hb1] [Hs2 Hb2].
  destruct (sqrt_whole s1 Hs1) as (Hpos1 & Hsq1 & Hone1).
  destruct (sqrt_whole s2 Hs2) as (Hpos2 & Hsq2 & Hone2).
  split.
  - intros Hlt.
    destruct (Rlt_le_dec (sqrt (IZR s1)) (sqrt (IZR s2))) as [|Hge]; [done|].
    apply rnd_monotone in Hge. lra.
  - intros Hlt.
    assert (IZR s1 + 1 <= IZR s2)%R as Hgap.
    { rewrite <- plus_IZR. apply IZR_le.
      assert (IZR s1 < IZR s2)%R as Hss%lt_IZR by nra. lia. }
    assert (1 <= s2)%Z as Hs2' by (apply le_IZR; pose proof (IZR_le _ _ Hs1); simpl in *; lra).
    specialize (Hone2 Hs2').
    assert (IZR s2 <= 2251799813685247)%R as Htop2 by (apply IZR_le; lia).
    pose proof (rnd_bounds (sqrt (IZR s2)) ltac:(nra)) as [Hlow2 _].
    destruct (decide (s1 = 0%Z)) as [->|Hnz].
    { rewrite sqrt_0 in *. change 0%R with (IZR 0). rewrite rnd_whole by lia.
      simpl. lra. }
    specialize (Hone1 ltac:(lia)).
    assert (IZR s1 <= 2251799813685247)%R as Htop by (apply IZR_le; lia).
    pose proof (rnd_bounds (sqrt (IZR s1)) ltac:(nra)) as [_ Hup1].
    enough (9007199254740993 * sqrt (IZR s1)
            < 9007199254740991 * sqrt (IZR s2))%R by lra.
    destruct (Rlt_le_dec (9007199254740993 * sqrt (IZR s1))
                         (9007199254740991 * sqrt (IZR s2))) as [|Hno]; [done|].
    exfalso.
    assert (9007199254740991 * sqrt (IZR s2)
            * (9007199254740991 * sqrt (IZR s2))
            <= 9007199254740993 * sqrt (IZR s1)
               * (9007199254740993 * sqrt (IZR s1)))%R
      as Hsquare by (apply Rmult_le_compat; lra).
    nra.
Qed.

(** On pixels and whole thresholds the tests of the code are the tests on
    squares. *)
Lemma pixel_sqrt_lt p q t :
  pixel_point p = true → pixel_point q = true → whole t = true →
  sqrt_lt (sqdist p q) t = true
  ↔ (rnd (sqrt (Q2R (sqdist p q))) < Q2R t)%R.
Proof.
  intros Hp Hq Ht. rewrite (sqrt_lt_real _ _ (sqdist_nonneg p q)).
  destruct (pixel_sqdist p q Hp Hq) as (s & Hs & ->).
  destruct (whole_spec t Ht) as (z & Hz & ->).
  symmetry. apply rounded_sqrt_lt; lia.
Qed.

Lemma pixel_sqrt_ge p q t :
  pixel_point p = true → pixel_point q = true → whole t = true →
  sqrt_ge (sqdist p q) t = true
  ↔ (Q2R t <= rnd (sqrt (Q2R (sqdist p q))))%R.
Proof.
  intros Hp Hq Ht. unfold sqrt_ge.
  rewrite negb_true_iff, <- not_true_iff_false, (pixel_sqrt_lt p q t) by done.
  split; lra.
Qed.

Lemma pixel_sqrt_gt p q t :
  pixel_point p = true → pixel_point q = true → whole t = true →
  sqrt_gt (sqdist p q) t = true
  ↔ (Q2R t < rnd (sqrt (Q2R (sqdist p q))))%R.
Proof.
  intros Hp Hq Ht. rewrite (sqrt_gt_real _ _ (sqdist_nonneg p q)).
  destruct (pixel_sqdist p q Hp Hq) as (s & Hs & ->).
  destruct (whole_spec t Ht) as (z & Hz & ->).
  symmetry. apply rounded_sqrt_gt; lia.
Qed.

Lemma pixel_sqrt_order p q p' q' :
  pixel_point p = true → pixel_point q = true →
  pixel_point p' = true → pixel_point q' = true →
  Qltb (sqdist p q) (sqdist p' q') = true
  ↔ (rnd (sqrt (Q2R (sqdist p q))) < rnd (sqrt (Q2R (sqdist p' q'))))%R.
Proof.
  intros Hp Hq Hp' Hq'.
  rewrite (sqrt_lt_sqrt_real _ _ (sqdist_nonneg p q) (sqdist_nonneg p' q')).
  destruct (pixel_sqdist p q Hp Hq) as (s & Hs & ->).
  destruct (pixel_sqdist p' q' Hp' Hq') as (s' & Hs' & ->).
  symmetry. apply rounded_sqrt_order; lia.
Qed.

End rounding.

Lemma sqrt_gt_bounded s b eps :
  (s <= b)%Q → (0 <= eps)%Q → (b <= eps * eps)%Q → sqrt_gt s eps = false.
Proof.
  intros Hs Heps Hb. unfold sqrt_gt. apply orb_false_iff.
  split; apply Qltb_ge; lra.
Qed.

Section farthest.
Import Filters.

Lemma farthest_le dist_sq points start end_ (b : Q) :
  (0 <= b)%Q →
  (∀ i, (start < i < end_)%nat → (dist_sq (point_at points i) <= b)%Q) →
  ((farthest dist_sq points start end_).1 <= b)%Q.
Proof.
  intros Hb Hd. unfold farthest.
  apply (foldl_invariant _ (λ st : Q * nat, (st.1 <= b)%Q)); [|done].
  intros st i Hi%elem_of_seq Hst.
  destruct (Qltb st.1 (dist_sq (point_at points i))); [|done].
  apply Hd. lia.
Qed.

End farthest.



Lemma coord_max_ge (xs : list Q) x : x ∈ xs → (x <= Filters.coord_max xs)%Q.
Proof.
  unfold Filters.coord_max. generalize (hd 0%Q xs). intros d.
  induction 1 as [x xs|x y xs _ IH]; simpl.
  - apply Q.le_max_l.
  - eapply Qle_trans; [apply IH|apply Q.le_max_r].
Qed.

Lemma coord_min_le (xs : list Q) x : x ∈ xs → (Filters.coord_min xs <= x)%Q.
Proof.
  unfold Filters.coord_min. generalize (hd 0%Q xs). intros d.
  induction 1 as [x xs|x y xs _ IH]; simpl.
  - apply Q.le_min_l.
  - eapply Qle_trans; [apply Q.le_min_r|apply IH].
Qed.

(** Two points of a path are no farther apart than its bounding diagonal. *)
Lemma sqdist_le_diagonal (points : path) p q :
  p ∈ points → q ∈ points → (sqdist p q <= Filters.diagonal_sq points)%Q.
Proof.
  intros Hp Hq. unfold Filters.diagonal_sq, sqdist. cbv zeta.
  pose proof (coord_max_ge points.*1 p.1 (list_elem_of_fmap_2 fst _ _ Hp)).
  pose proof (coord_max_ge points.*1 q.1 (list_elem_of_fmap_2 fst _ _ Hq)).
  pose proof (coord_min_le points.*1 p.1 (list_elem_of_fmap_2 fst _ _ Hp)).
  pose proof (coord_min_le points.*1 q.1 (list_elem_of_fmap_2 fst _ _ Hq)).
  pose proof (coord_max_ge points.*2 p.2 (list_elem_of_fmap_2 snd _ _ Hp)).
  pose proof (coord_max_ge points.*2 q.2 (list_elem_of_fmap_2 snd _ _ Hq)).
  pose proof (coord_min_le points.*2 p.2 (list_elem_of_fmap_2 snd _ _ Hp)).
  pose proof (coord_min_le points.*2 q.2 (list_elem_of_fmap_2 snd _ _ Hq)).
  generalize dependent (Filters.coord_max points.*1).
  generalize dependent (Filters.coord_min points.*1).
  generalize dependent (Filters.coord_max points.*2).
  generalize dependent (Filters.coord_min points.*2).
  intros. nra.
Qed.

Lemma point_at_elem_of (points : path) i :
  (i < length points)%nat → point_at points i ∈ points.
Proof.
  intros Hi. unfold point_at.
  destruct (points !! i) as [p|] eqn:Hp.
  - by eapply list_elem_of_lookup_2.
  - apply lookup_ge_None in Hp. lia.
Qed.

Lemma point_at_head (points : path) first :
  list.head points = Some first → point_at points 0 = first.
Proof. destruct points; [done|]. by intros [= ->]. Qed.

Lemma point_at_last (points : path) final :
  list.last points = Some final → point_at points (length points - 1) = final.
Proof.
  intros Hl. unfold point_at. rewrite last_lookup in Hl.
  replace (length points - 1)%nat with (Init.Nat.pred (length points)) by lia.
  by rewrite Hl.
Qed.

Lemma rdp_unfold depth points start end_ eps :
  Filters.rdp (S depth) points start end_ eps =
    if (end_ <=? start + 1)%nat then Some [point_at points start]
    else
      let '(max_sq, max_idx) :=
        Filters.farthest
          (λ p, Filters.perpendicular_distance_sq p (point_at points start)
                                                  (point_at points end_))
          points start end_ in
      if sqrt_gt max_sq eps then
        left ← Filters.rdp depth points start max_idx eps;
        right ← Filters.rdp depth points max_idx end_ eps;
        Some (removelast left ++ right)
      else Some [point_at points start; point_at points end_].
Proof. reflexivity. Qed.

Lemma douglas_peucker_unfold depth start end_ pts eps :
  Filters.douglas_peucker (S depth) start end_ pts eps =
    if (Z.of_nat end_ - Z.of_nat start <? 2)%Z then
      Some [point_at pts start; point_at pts end_]
    else
      if sqrt_lt (sqdist (point_at pts end_) (point_at pts start)) 0.001
      then Some [point_at pts start]
      else
        let '(max_sq, max_idx) :=
          Filters.farthest
            (λ p, Filters.line_distance_sq p (point_at pts start)
                                           (point_at pts end_))
            pts start end_ in
        if sqrt_gt max_sq eps then
          left ← Filters.douglas_peucker depth start max_idx pts eps;
          right ← Filters.douglas_peucker depth max_idx end_ pts eps;
          Some (left ++ right)
        else Some [point_at pts start; point_at pts end_].
Proof. reflexivity. Qed.




(** The index kept by [farthest] is [start] as long as no distance was
    positive, and an interior index afterwards. *)
Lemma farthest_index dist_sq points start end_ :
  (Filters.farthest dist_sq points start end_ = (0%Q, start)) ∨
  (start < (Filters.farthest dist_sq points start end_).2 < end_)%nat.
Proof.
  unfold Filters.farthest.
  apply (foldl_invariant _
           (λ st : Q * nat, st = (0%Q, start) ∨ (start < st.2 < end_)%nat));
    [|by left].
  intros st i Hi%elem_of_seq Hst.
  destruct (Qltb st.1 (dist_sq (point_at points i))); [|done].
  right. simpl. lia.
Qed.

Lemma sqrt_gt_zero_false eps : (0 <= eps)%Q → sqrt_gt 0 eps = false.
Proof. intros Heps. apply (sqrt_gt_bounded 0 0 eps); [lra|done|nra]. Qed.

(** For a tolerance that is not negative, a split is strictly inside the
    span, so the recursion is no deeper than the span is long: both
    functions return when the interpreter allows a depth of
    [len(points)]. *)
Lemma rdp_total (points : path) (eps : Q) :
  (0 <= eps)%Q →
  ∀ depth start end_, (end_ - start < depth)%nat →
    is_Some (Filters.rdp depth points start end_ eps).
Proof.
  intros Heps. induction depth as [|depth IH]; intros start end_ Hdepth; [lia|].
  rewrite rdp_unfold.
  destruct (end_ <=? start + 1)%nat; [done|].
  destruct (farthest_index
              (λ p, Filters.perpendicular_distance_sq
                      p (point_at points start) (point_at points end_))
              points start end_) as [Hnone|Hidx].
  - rewrite Hnone. by rewrite sqrt_gt_zero_false.
  - destruct (Filters.farthest _ points start end_) as [max_sq max_idx].
    simpl in Hidx. destruct (sqrt_gt max_sq eps); [|done].
    destruct (IH start max_idx) as [left ->]; [lia|].
    destruct (IH max_idx end_) as [right ->]; [lia|].
    done.
Qed.

Lemma douglas_peucker_total (pts : path) (eps : Q) :
  (0 <= eps)%Q →
  ∀ depth start end_, (end_ - start < depth)%nat →
    is_Some (Filters.douglas_peucker depth start end_ pts eps).
Proof.
  intros Heps. induction depth as [|depth IH]; intros start end_ Hdepth; [lia|].
  rewrite douglas_peucker_unfold.
  destruct (Z.of_nat end_ - Z.of_nat start <? 2); [done|].
  destruct (sqrt_lt _ 0.001); [done|].
  destruct (farthest_index
              (λ p, Filters.line_distance_sq
                      p (point_at pts start) (point_at pts end_))
              pts start end_) as [Hnone|Hidx].
  - rewrite Hnone. by rewrite sqrt_gt_zero_false.
  - destruct (Filters.farthest _ pts start end_) as [max_sq max_idx].
    simpl in Hidx. destruct (sqrt_gt max_sq eps); [|done].
    destruct (IH start max_idx) as [left ->]; [lia|].
    destruct (IH max_idx end_) as [right ->]; [lia|].
    done.
Qed.

Lemma simplifiers_return (limit : nat) (points : path) (eps : Q) :
  (0 <= eps)%Q → (length points ≤ limit)%nat →
  is_Some (Filters.ramer_douglas_pecker limit points eps) ∧
  is_Some (Filters.optimize_contour limit points eps).
Proof.
  intros Heps Hlimit.
  unfold Filters.ramer_douglas_pecker, Filters.optimize_contour.
  destruct (Nat.ltb_spec (length points) 3) as [|Hlen]; [done|].
  split; [apply rdp_total|apply douglas_peucker_total]; (done || lia).
Qed.


(** Where a split happens the two halves are joined as [left[:-1] + right]
    although a two-point span returns its start alone, and points are
    lost; [optimize_contour] repeats the split point instead. *)
Example ramer_douglas_pecker_split :
  Filters.ramer_douglas_pecker 1000 [(0, 0); (2, 2); (4, 0)]%Q 0
    = Some [(2, 2)]%Q ∧
  Filters.optimize_contour 1000 [(0, 0); (2, 2); (4, 0)]%Q 0
    = Some [(0, 0); (2, 2); (2, 2); (4, 0)]%Q.
Proof. by vm_compute. Qed.






(** ** Endpoint bridger *)

Section bridger.
Import Bridger.

Variables (endpoints : path) (max_dist : Q).

Lemma nearest_step_inv used i st j :
  (i < j < length endpoints)%nat →
  nearest_inv endpoints used max_dist i st →
  nearest_inv endpoints used max_dist i (nearest_step endpoints used i st j).
Proof.
  intros Hj Hinv. unfold nearest_step.
  case_bool_decide as Hused; [done|].
  destruct (below _ st.1) eqn:Hbelow; [|done].
  unfold nearest_inv. simpl. split_and!; try done; try lia.
  unfold nearest_inv in Hinv. destruct st as [min_dist [c|]]; simpl in *.
  - destruct Hinv as (-> & _ & _ & Hc). simpl in Hbelow.
    apply Qltb_lt in Hbelow. unfold sqrt_lt in *.
    apply andb_true_iff in Hc as [Hpos Hc]. apply andb_true_iff. split; [done|].
    apply Qltb_lt in Hc. apply Qltb_lt. lra.
  - by subst.
Qed.

Lemma nearest_spec used i :
  nearest_inv endpoints used max_dist i (nearest endpoints used max_dist i).
Proof.
  unfold nearest. apply foldl_invariant; [|done].
  intros st j Hj%elem_of_seq Hst. apply nearest_step_inv; [lia|done].
Qed.

Lemma paired_snoc connections i j :
  paired (connections ++ [(i, j)]) = paired connections ++ [i; j].
Proof. unfold paired. by rewrite bind_app. Qed.

Lemma pair_step_inv st i :
  pair_inv endpoints max_dist st →
  pair_inv endpoints max_dist (pair_step endpoints max_dist st i).
Proof.
  intros (Hused & Hnd & Hpairs). unfold pair_step.
  case_bool_decide as Hi; [done|].
  pose proof (nearest_spec st.2 i) as Hnear. unfold nearest_inv in Hnear.
  destruct (nearest endpoints st.2 max_dist i).2 as [c|]; [|done].
  destruct Hnear as (_ & Hc & Hic & Hlt).
  split_and!; simpl.
  - intros k. rewrite paired_snoc, elem_of_app, !elem_of_union, !elem_of_singleton.
    rewrite !elem_of_cons, elem_of_nil, Hused. tauto.
  - rewrite paired_snoc. apply list.NoDup_app. split_and!; [done| |].
    + intros k Hk [->| [->|[]%elem_of_nil]%elem_of_cons]%elem_of_cons.
      * by apply Hi, Hused.
      * by apply Hc, Hused.
    + apply NoDup_cons. split; [|apply NoDup_singleton].
      intros ->%list_elem_of_singleton. lia.
  - intros a b [Hab| [= -> ->]%list_elem_of_singleton]%elem_of_app;
      [by apply Hpairs|done].
Qed.

Lemma foldl_pair_inv l st :
  pair_inv endpoints max_dist st →
  pair_inv endpoints max_dist (foldl (pair_step endpoints max_dist) st l).
Proof.
  apply foldl_invariant. intros st' i _. apply pair_step_inv.
Qed.

Lemma find_close_pairs_inv :
  ∃ used, pair_inv endpoints max_dist
                   (find_close_pairs endpoints max_dist, used).
Proof.
  assert (pair_inv endpoints max_dist ([], ∅)) as Hinit.
  { split_and!; simpl.
    - intros k. rewrite elem_of_nil. set_solver.
    - constructor.
    - intros i j []%elem_of_nil. }
  unfold find_close_pairs. destruct (length endpoints <? 2)%nat.
  - by exists ∅.
  - destruct (foldl (pair_step endpoints max_dist) ([], ∅)
                    (seq 0 (length endpoints))) as [pairs used] eqn:Hfold.
    exists used. simpl. rewrite <- Hfold. by apply foldl_pair_inv.
Qed.

End bridger.

(** C7: for every endpoint list and every max-gap [max_dist], the
    connections [find_close_endpoints] returns join pairs of endpoints
    (given by their indices [i < j] in the list) whose squared distance is
    below the square of a positive [max_dist], that is, whose distance is
    strictly below [max_dist]; no index occurs in two pairs or twice in
    one; and fewer than 2 endpoints give no connection. *)
Theorem find_close_endpoints_greedy (endpoints : path) (max_dist : Q) :
  Bridger.find_close_endpoints endpoints max_dist
    = map (λ c : nat * nat, (point_at endpoints c.1, point_at endpoints c.2))
          (Bridger.find_close_pairs endpoints max_dist) ∧
  (∀ i j, (i, j) ∈ Bridger.find_close_pairs endpoints max_dist →
     (i < j < length endpoints)%nat ∧
     (0 < max_dist)%Q ∧
     (sqdist (point_at endpoints i) (point_at endpoints j)
      < max_dist * max_dist)%Q) ∧
  NoDup (Bridger.paired (Bridger.find_close_pairs endpoints max_dist)) ∧
  ((length endpoints < 2)%nat →
     Bridger.find_close_endpoints endpoints max_dist = []).
Proof.
  split_and!.
  - done.
  - intros i j Hij.
    destruct (find_close_pairs_inv endpoints max_dist) as (used & _ & _ & Hp).
    destruct (Hp i j Hij) as [Hlt Hd]. split; [done|].
    by apply andb_true_iff in Hd as [H1%Qltb_lt H2%Qltb_lt].
  - by destruct (find_close_pairs_inv endpoints max_dist) as (used & _ & Hnd & _).
  - intros Hlen. unfold Bridger.find_close_endpoints, Bridger.find_close_pairs.
    by destruct (Nat.ltb_spec (length endpoints) 2) as [_|?]; [|lia].
Qed.

(** ** Path merger *)

Lemma sqdist_sym p q : (sqdist p q == sqdist q p)%Q.
Proof. unfold sqdist. ring. Qed.

Section merger.
Import Merger.

Lemma members_none n groups : members (replicate n false) groups = [].
Proof.
  revert groups. induction n as [|n IH]; intros [|g groups]; simpl; auto.
Qed.

Lemma members_all used groups :
  length used = length groups →
  (∀ k, (k < length groups)%nat → used !! k = Some true) →
  members used groups = concat groups.
Proof.
  revert groups. induction used as [|b used IH]; intros [|g groups] Hlen Hall;
    simpl in *; try done.
  pose proof (Hall 0%nat ltac:(lia)) as [= ->].
  f_equal. apply IH; [lia|]. intros k Hk. apply (Hall (S k)). lia.
Qed.

Lemma members_insert used groups j g :
  used !! j = Some false → groups !! j = Some g →
  members (<[j := true]> used) groups ≡ₚ g ++ members used groups.
Proof.
  revert groups j. induction used as [|b used IH]; intros [|g0 groups] [|j] Hu Hg;
    simpl in *; try done.
  - by simplify_eq.
  - rewrite (IH groups j) by done. solve_Permutation.
Qed.

Variables (max_gap : Q) (groups : list (list path)).
Hypothesis groups_nonempty : Forall (λ g : list path, concat g ≠ []) groups.

(** What is known of every group, and kept when two are joined at a
    junction that passes the test. *)
Variable good : list path → Prop.
Hypothesis groups_good : Forall good groups.
Hypothesis good_join : ∀ a b t h,
  good a → good b →
  list.last (concat a) = Some t → list.head (concat b) = Some h →
  sqrt_lt (sqdist t h) max_gap = true → good (a ++ b).

Lemma join_step_inv rg seen st j :
  (j < length groups)%nat →
  join_inv good groups rg seen st →
  join_inv good groups rg seen
           (join_step max_gap (@concat point <$> groups) st j).
Proof.
  intros Hj (cg & used & changed & -> & Hne & Hgood & Hlen & Hperm & Hseen).
  unfold join_step. simpl.
  destruct (used !! j) as [b|] eqn:Hu; [|apply lookup_ge_None in Hu; lia].
  destruct b; simpl; [by exists cg, used, changed|].
  destruct (groups !! j) as [g|] eqn:Hg; [|apply lookup_ge_None in Hg; lia].
  rewrite list_lookup_fmap, Hg. simpl.
  assert (concat g ≠ []) as Hgne.
  { eapply Forall_lookup_1 in groups_nonempty; eauto. }
  assert (good g) as Hgg.
  { eapply Forall_lookup_1 in groups_good; eauto. }
  destruct (list.last (concat cg)) as [ct|] eqn:Hct; [|by apply last_None in Hct].
  destruct (list.head (concat g)) as [oh|] eqn:Hoh; [|by destruct (concat g)].
  destruct (list.head (concat cg)) as [ch|] eqn:Hch; [|by destruct (concat cg)].
  destruct (list.last (concat g)) as [ot|] eqn:Hot; [|by apply last_None in Hot].
  simpl.
  destruct (sqrt_lt (sqdist ct oh) max_gap || sqrt_lt (sqdist ch ot) max_gap)
    eqn:Hnear; [|by exists cg, used, changed].
  assert (∀ k, k ∈ seen → <[j := true]> used !! k = Some true) as Hseen'.
  { intros k Hk. destruct (decide (j = k)) as [->|Hjk].
    - apply list_lookup_insert_eq. lia.
    - rewrite list_lookup_insert_ne by done. by apply Hseen. }
  destruct (Qltb (sqdist ct oh) (sqdist ch ot)) eqn:Hfirst.
  - exists (cg ++ g), (<[j := true]> used), true. split_and!.
    + by rewrite concat_app.
    + rewrite concat_app. by destruct (concat cg).
    + apply (good_join cg g ct oh); [done..|].
      apply Qltb_lt in Hfirst. unfold sqrt_lt in *.
      apply orb_true_iff in Hnear as [Hd|Hd]; [done|].
      apply andb_true_iff in Hd as [Hpos Hd%Qltb_lt].
      rewrite Hpos. apply Qltb_lt. lra.
    + by rewrite length_insert.
    + rewrite members_insert by done. rewrite <- Hperm. solve_Permutation.
    + done.
  - exists (g ++ cg), (<[j := true]> used), true. split_and!.
    + by rewrite concat_app.
    + rewrite concat_app. by destruct (concat g).
    + apply (good_join g cg ot ch); [done..|].
      apply Qltb_ge in Hfirst. unfold sqrt_lt in *.
      pose proof (sqdist_sym ot ch) as Hsym.
      apply orb_true_iff in Hnear as [Hd|Hd];
        apply andb_true_iff in Hd as [Hpos Hd%Qltb_lt];
        rewrite Hpos; apply Qltb_lt; lra.
    + by rewrite length_insert.
    + rewrite members_insert by done. rewrite <- Hperm. solve_Permutation.
    + done.
Qed.

Lemma foldl_join_inv rg seen l st :
  (∀ j, j ∈ l → (j < length groups)%nat) →
  join_inv good groups rg seen st →
  join_inv good groups rg seen
           (foldl (join_step max_gap (@concat point <$> groups)) st l).
Proof.
  intros Hl. apply foldl_invariant.
  intros st' j Hj. apply join_step_inv. by apply Hl.
Qed.

Lemma merge_step_inv seen st i :
  (i < length groups)%nat →
  merge_inv good groups seen st →
  merge_inv good groups (seen ++ [i])
            (merge_step max_gap (@concat point <$> groups) st i).
Proof.
  intros Hi (rg & used & changed & -> & Hrg & Hrgood & Hlen & Hperm & Hseen).
  unfold merge_step. simpl.
  destruct (used !! i) as [b|] eqn:Hu; [|apply lookup_ge_None in Hu; lia].
  destruct b; simpl.
  { exists rg, used, changed. split_and!; try done.
    intros k [Hk| ->%list_elem_of_singleton]%elem_of_app; [by apply Hseen|done]. }
  destruct (groups !! i) as [g|] eqn:Hg; [|apply lookup_ge_None in Hg; lia].
  rewrite list_lookup_fmap, Hg. simpl.
  assert (concat g ≠ []) as Hgne.
  { eapply Forall_lookup_1 in groups_nonempty; eauto. }
  assert (good g) as Hgg.
  { eapply Forall_lookup_1 in groups_good; eauto. }
  destruct (foldl_join_inv rg (seen ++ [i])
              (seq (i + 1) (length (@concat point <$> groups) - (i + 1)))
              (Some (concat g, <[i := true]> used, changed)))
    as (cg & used' & changed' & Hfold & Hne & Hcgood & Hlen' & Hperm' & Hseen').
  { intros j Hj%elem_of_seq. rewrite length_fmap in Hj. lia. }
  { exists g, (<[i := true]> used), changed. split_and!; try done.
    - by rewrite length_insert.
    - rewrite members_insert by done. rewrite <- Hperm. solve_Permutation.
    - intros k [Hk| ->%list_elem_of_singleton]%elem_of_app.
      + destruct (decide (i = k)) as [->|Hik].
        * apply list_lookup_insert_eq. lia.
        * rewrite list_lookup_insert_ne by done. by apply Hseen.
      + apply list_lookup_insert_eq. lia. }
  rewrite Hfold. simpl.
  exists (rg ++ [cg]), used', changed'. split_and!; try done.
  - by rewrite fmap_app.
  - apply Forall_app. split; [done|]. by apply Forall_singleton.
  - apply Forall_app. split; [done|]. by apply Forall_singleton.
  - rewrite concat_app. simpl. by rewrite app_nil_r.
Qed.

Lemma foldl_merge_inv l seen st :
  (∀ i, i ∈ l → (i < length groups)%nat) →
  merge_inv good groups seen st →
  merge_inv good groups (seen ++ l)
            (foldl (merge_step max_gap (@concat point <$> groups)) st l).
Proof.
  revert seen st. induction l as [|i l IH]; intros seen st Hl Hst; simpl.
  - by rewrite app_nil_r.
  - rewrite (cons_middle i seen l), (assoc_L (++)). apply IH.
    + intros k Hk. apply Hl. by right.
    + apply merge_step_inv; [apply Hl; left|done].
Qed.

(** One round regroups: its result concatenates groups [groups'] made of
    the same input paths, and what was known of every group still is. *)
Lemma merge_pass_regroups :
  ∃ groups' changed,
    merge_pass max_gap (@concat point <$> groups)
      = Some (@concat point <$> groups', changed) ∧
    Forall (λ g : list path, concat g ≠ []) groups' ∧
    Forall good groups' ∧
    concat groups' ≡ₚ concat groups.
Proof.
  destruct (foldl_merge_inv (seq 0 (length (@concat point <$> groups))) []
              (Some ([], replicate (length (@concat point <$> groups)) false, false)))
    as (rg & used & changed & Hfold & Hrg & Hrgood & Hlen & Hperm & Hseen).
  { intros i Hi%elem_of_seq. rewrite length_fmap in Hi. lia. }
  { exists [], (replicate (length (@concat point <$> groups)) false), false.
    split_and!; try done.
    - by rewrite length_replicate, length_fmap.
    - by rewrite members_none.
    - intros k []%elem_of_nil. }
  exists rg, changed. unfold merge_pass. rewrite Hfold. simpl.
  split_and!; [done..|].
  rewrite Hperm, members_all; [done..|].
  intros k Hk. apply Hseen. simpl. apply elem_of_seq.
  rewrite length_fmap. lia.
Qed.

End merger.

Lemma merge_pass_groups max_gap (groups : list (list path)) :
  Forall (λ g : list path, concat g ≠ []) groups →
  ∃ groups' changed,
    Merger.merge_pass max_gap (@concat point <$> groups)
      = Some (@concat point <$> groups', changed) ∧
    Forall (λ g : list path, concat g ≠ []) groups' ∧
    concat groups' ≡ₚ concat groups.
Proof.
  intros Hne.
  destruct (merge_pass_regroups max_gap groups Hne (λ _, True))
    as (groups' & changed & Hpass & Hne' & _ & Hperm);
    [by apply Forall_true|done|].
  by exists groups', changed.
Qed.

(** The rounds of [connect_contours] regroup as one round does. *)
Lemma connect_loop_regroups max_gap (good : list path → Prop) :
  (∀ a b t h,
     good a → good b →
     list.last (concat a) = Some t → list.head (concat b) = Some h →
     sqrt_lt (sqdist t h) max_gap = true → good (a ++ b)) →
  ∀ budget (groups : list (list path)),
    Forall (λ g : list path, concat g ≠ []) groups → Forall good groups →
    ∃ groups',
      Merger.connect_loop budget max_gap (@concat point <$> groups)
        = Some (@concat point <$> groups') ∧
      Forall good groups' ∧
      concat groups' ≡ₚ concat groups.
Proof.
  intros Hjoin. induction budget as [|budget IH]; intros groups Hne Hgood; simpl.
  - by exists groups.
  - destruct (merge_pass_regroups max_gap groups Hne good Hgood Hjoin)
      as (groups1 & changed & -> & Hne1 & Hgood1 & Hperm1). simpl.
    destruct changed; [|by exists groups1].
    destruct (IH groups1 Hne1 Hgood1) as (groups2 & -> & Hgood2 & Hperm2).
    exists groups2. split_and!; [done..|]. by rewrite Hperm2.
Qed.

Lemma connect_loop_groups max_gap budget (groups : list (list path)) :
  Forall (λ g : list path, concat g ≠ []) groups →
  ∃ groups',
    Merger.connect_loop budget max_gap (@concat point <$> groups)
      = Some (@concat point <$> groups') ∧
    concat groups' ≡ₚ concat groups.
Proof.
  intros Hne.
  destruct (connect_loop_regroups max_gap (λ _, True) ltac:(done)
              budget groups Hne)
    as (groups' & Hloop & _ & Hperm); [by apply Forall_true|].
  by exists groups'.
Qed.

Lemma singleton_groups (paths : list path) :
  @concat point <$> ((λ p, [p]) <$> paths) = paths ∧
  concat ((λ p, [p]) <$> paths) = paths.
Proof.
  induction paths as [|p paths [IH1 IH2]]; [done|]. simpl.
  rewrite app_nil_r. split; f_equal; done.
Qed.

Lemma singleton_groups_nonempty (paths : list path) :
  Forall (λ p, p ≠ []) paths →
  Forall (λ g : list path, concat g ≠ []) ((λ p, [p]) <$> paths).
Proof.
  intros Hne. apply Forall_fmap. eapply Forall_impl; [done|].
  intros p Hp. simpl. by rewrite app_nil_r.
Qed.

(** The ends of a concatenation of non-empty paths are the head of the
    first path and the tail of the last. *)
Lemma head_concat_nonempty (g : list path) :
  Forall (λ p : path, p ≠ []) g →
  list.head (concat g) = list.head g ≫= list.head.
Proof.
  intros Hne. destruct Hne as [|p g Hp _]; [done|].
  simpl. by destruct p.
Qed.

Lemma last_concat_nonempty (g : list path) :
  Forall (λ p : path, p ≠ []) g →
  list.last (concat g) = list.last g ≫= list.last.
Proof.
  induction 1 as [|p g Hp Hg IH]; [done|].
  cbn [concat]. rewrite last_app, IH.
  destruct g as [|q g]; [done|].
  rewrite last_cons_cons.
  destruct (list.last (q :: g)) as [z|] eqn:Hz; [|by apply last_None in Hz].
  simpl.
  assert (z ≠ []) as Hzne.
  { apply last_Some_elem_of in Hz. by apply (proj1 (Forall_forall _ _) Hg z). }
  destruct (list.last z) eqn:Hlz; [done|by apply last_None in Hlz].
Qed.

Lemma linked_app max_gap (a b : list path) :
  Merger.linked max_gap a = true → Merger.linked max_gap b = true →
  (∀ x y, list.last a = Some x → list.head b = Some y →
     Merger.junction max_gap x y = true) →
  Merger.linked max_gap (a ++ b) = true.
Proof.
  intros Ha Hb Hab. induction a as [|x [|y a] IH]; [done| |].
  - destruct b as [|y b]; [done|]. simpl.
    rewrite (Hab x y) by done. by destruct b.
  - change (Merger.linked max_gap (x :: y :: a))
      with (Merger.junction max_gap x y && Merger.linked max_gap (y :: a)) in Ha.
    apply andb_true_iff in Ha as [Hxy Ha].
    change (Merger.linked max_gap ((x :: y :: a) ++ b))
      with (Merger.junction max_gap x y
            && Merger.linked max_gap ((y :: a) ++ b)).
    rewrite Hxy. simpl andb. apply IH; [done|].
    intros x' y' Hx'. apply Hab. by rewrite last_cons_cons.
Qed.

(** Joining two chains at a junction that passes the test gives a chain. *)
Lemma chain_join max_gap (a b : list path) t h :
  Merger.chain max_gap a → Merger.chain max_gap b →
  list.last (concat a) = Some t → list.head (concat b) = Some h →
  sqrt_lt (sqdist t h) max_gap = true →
  Merger.chain max_gap (a ++ b).
Proof.
  intros [Hane Ha] [Hbne Hb] Ht Hh Hnear. split; [by apply Forall_app|].
  apply linked_app; [done..|].
  intros x y Hx Hy. unfold Merger.junction.
  rewrite last_concat_nonempty, Hx in Ht by done.
  rewrite head_concat_nonempty, Hy in Hh by done.
  simpl in Ht, Hh. by rewrite Ht, Hh.
Qed.

Lemma singleton_groups_chain max_gap (paths : list path) :
  Forall (λ p, p ≠ []) paths →
  Forall (Merger.chain max_gap) ((λ p, [p]) <$> paths).
Proof.
  intros Hne. apply Forall_fmap. eapply Forall_impl; [done|].
  intros p Hp. split; [by apply Forall_singleton|done].
Qed.

(** [merge_nearby_contours] is [merge_adjacent_paths] under another name. *)
Lemma merge_nearby_contours_same (contours : list path) (max_gap : Q) :
  Merger.merge_nearby_contours contours max_gap
  = Merger.merge_adjacent_paths contours max_gap.
Proof.
  unfold Merger.merge_nearby_contours, Merger.merge_adjacent_paths.
  by destruct contours as [|a [|b rest]].
Qed.

Lemma lookup_prefix_flags a b k :
  (a ≤ k < a + b)%nat →
  (replicate a true ++ replicate b false) !! k = Some false.
Proof.
  intros Hk. rewrite lookup_app_r by (rewrite length_replicate; lia).
  rewrite length_replicate. apply lookup_replicate_2. lia.
Qed.

Lemma insert_prefix_flags i n :
  (i < n)%nat →
  <[i := true]> (replicate i true ++ replicate (n - i) false)
  = replicate (S i) true ++ replicate (n - S i) false.
Proof.
  intros Hi. replace (n - i)%nat with (S (n - S i)) by lia.
  rewrite insert_app_r_alt by (rewrite length_replicate; lia).
  rewrite length_replicate, Nat.sub_diag.
  by rewrite (replicate_S_end i true), <- (assoc_L (++)).
Qed.

(** Paths none of which can be joined to a later one go through a round
    as they are. *)
Lemma join_fold_apart max_gap (connected : list path) current used changed l :
  Forall (λ p, p ≠ []) connected → current ≠ [] →
  (∀ j, j ∈ l → (j < length connected)%nat) →
  (∀ j other, j ∈ l → connected !! j = Some other →
     Connector.joinable max_gap current other = false) →
  foldl (Merger.join_step max_gap connected) (Some (current, used, changed)) l
  = Some (current, used, changed).
Proof.
  intros Hne Hcur Hl Hfar. induction l as [|j l IH]; [done|].
  cbn [foldl].
  assert (Merger.join_step max_gap connected (Some (current, used, changed)) j
          = Some (current, used, changed)) as ->.
  { unfold Merger.join_step. simpl.
    destruct (default false (used !! j)); [done|].
    destruct (connected !! j) as [other|] eqn:Ho.
    2:{ apply lookup_ge_None in Ho. specialize (Hl j ltac:(left)). lia. }
    simpl.
    assert (other ≠ []) as Hone by (eapply Forall_lookup_1 in Hne; eauto).
    specialize (Hfar j other ltac:(left) Ho). unfold Connector.joinable in Hfar.
    destruct (list.last current) as [ct|] eqn:Hct; [|by apply last_None in Hct].
    destruct (list.head other) as [oh|] eqn:Hoh; [|by destruct other].
    destruct (list.head current) as [ch|] eqn:Hch; [|by destruct current].
    destruct (list.last other) as [ot|] eqn:Hot; [|by apply last_None in Hot].
    simpl. by rewrite Hfar. }
  apply IH.
  - intros k Hk. apply Hl. by right.
  - intros k other Hk. apply Hfar. by right.
Qed.

Lemma merge_pass_separated max_gap (connected : list path) :
  Forall (λ p, p ≠ []) connected →
  Connector.separated max_gap connected →
  Merger.merge_pass max_gap connected = Some (connected, false).
Proof.
  intros Hne Hsep.
  assert (∀ i, (i ≤ length connected)%nat →
            foldl (Merger.merge_step max_gap connected)
                  (Some ([], replicate (length connected) false, false))
                  (seq 0 i)
            = Some (take i connected,
                    replicate i true ++ replicate (length connected - i) false,
                    false)) as Hfold.
  { induction i as [|i IH]; intros Hi.
    - simpl. by rewrite take_0, Nat.sub_0_r.
    - rewrite seq_S, foldl_app, IH by lia. simpl (0 + i)%nat. cbn [foldl].
      destruct (connected !! i) as [current|] eqn:Hcur;
        [|apply lookup_ge_None in Hcur; lia].
      unfold Merger.merge_step. cbn [mbind option_bind].
      rewrite lookup_prefix_flags, Hcur by lia.
      cbn [mbind option_bind default from_option]. unfold Datatypes.id.
      rewrite (join_fold_apart max_gap connected current); [| | | |].
      + cbn [mbind option_bind].
        by rewrite (take_S_r _ _ _ Hcur), insert_prefix_flags by lia.
      + done.
      + by eapply Forall_lookup_1 in Hne.
      + intros j Hj%elem_of_seq. lia.
      + intros j other Hj%elem_of_seq Ho.
        apply (Hsep i j current other); [lia|done..]. }
  unfold Merger.merge_pass. rewrite Hfold by done.
  cbn [mbind option_bind]. by rewrite firstn_all.
Qed.

(** C10: for a collection of non-empty paths, every path that
    [merge_adjacent_paths] or [connect_contours] returns is the
    concatenation of a group of input paths taken whole and in their own
    point order, and the groups together hold each input path exactly once
    (they are a permutation of the input collection).  Whether two paths
    are joined depends on the tail-to-head and head-to-tail distances
    alone: for paths of pixels and a whole gap, however many paths there
    are, wherever one input path is followed by another inside a returned
    path the tail of the first is closer than the gap to the head of the
    second, so closeness of two heads or of two tails joins nothing; and
    a collection in which no path has its tail closer than the gap to the
    head of a later path, nor its head to the tail of a later path, is
    returned as it is, wherever the heads lie with respect to one another
    and the tails with respect to one another. *)
Theorem merger_concatenates (paths : list path) (max_gap : Q) :
  Forall (λ p, p ≠ []) paths →
  (∃ groups : list (list path),
     Merger.merge_adjacent_paths paths max_gap = Some (@concat point <$> groups) ∧
     concat groups ≡ₚ paths) ∧
  (∃ groups : list (list path),
     Merger.connect_contours paths max_gap = Some (@concat point <$> groups) ∧
     concat groups ≡ₚ paths) ∧
  (forallb pixel_path paths = true → whole max_gap = true →
   (∃ groups : list (list path),
      Merger.merge_adjacent_paths paths max_gap
        = Some (@concat point <$> groups) ∧
      concat groups ≡ₚ paths ∧
      Forall (λ g, Merger.linked max_gap g = true) groups) ∧
   (∃ groups : list (list path),
      Merger.connect_contours paths max_gap
        = Some (@concat point <$> groups) ∧
      concat groups ≡ₚ paths ∧
      Forall (λ g, Merger.linked max_gap g = true) groups) ∧
   (Connector.separated max_gap paths →
      Merger.merge_adjacent_paths paths max_gap = Some paths ∧
      Merger.connect_contours paths max_gap = Some paths)).
Proof.
  intros Hne.
  destruct (singleton_groups paths) as [Hmap Hcat].
  pose proof (singleton_groups_nonempty paths Hne) as Hgne.
  pose proof (singleton_groups_chain max_gap paths Hne) as Hchain.
  assert (∀ groups : list (list path),
            Forall (Merger.chain max_gap) groups →
            Forall (λ g, Merger.linked max_gap g = true) groups) as Hlinked.
  { intros groups Hg. eapply Forall_impl; [done|]. by intros g [_ Hl]. }
  split_and!.
  - unfold Merger.merge_adjacent_paths.
    destruct (length paths <=? 1)%nat.
    + exists ((λ p, [p]) <$> paths). by rewrite Hmap, Hcat.
    + destruct (merge_pass_groups max_gap _ Hgne)
        as (groups' & changed & Hpass & _ & Hperm).
      rewrite Hmap in Hpass. exists groups'. rewrite Hpass.
      split; [done|]. by rewrite Hperm, Hcat.
  - unfold Merger.connect_contours.
    destruct (length paths <? 2)%nat.
    + exists ((λ p, [p]) <$> paths). by rewrite Hmap, Hcat.
    + destruct (connect_loop_groups max_gap (length paths) _ Hgne)
        as (groups' & Hloop & Hperm).
      rewrite Hmap in Hloop. exists groups'. rewrite Hloop.
      split; [done|]. by rewrite Hperm, Hcat.
  - intros _ _. split_and!.
    + unfold Merger.merge_adjacent_paths.
      destruct (length paths <=? 1)%nat.
      * exists ((λ p, [p]) <$> paths). rewrite Hmap, Hcat.
        split_and!; [done..|]. by apply Hlinked.
      * destruct (merge_pass_regroups max_gap _ Hgne (Merger.chain max_gap)
                    Hchain (chain_join max_gap))
          as (groups' & changed & Hpass & _ & Hgood & Hperm).
        rewrite Hmap in Hpass. exists groups'. rewrite Hpass.
        split_and!; [done| |by apply Hlinked]. by rewrite Hperm, Hcat.
    + unfold Merger.connect_contours.
      destruct (length paths <? 2)%nat.
      * exists ((λ p, [p]) <$> paths). rewrite Hmap, Hcat.
        split_and!; [done..|]. by apply Hlinked.
      * destruct (connect_loop_regroups max_gap (Merger.chain max_gap)
                    (chain_join max_gap) (length paths) _ Hgne Hchain)
          as (groups' & Hloop & Hgood & Hperm).
        rewrite Hmap in Hloop. exists groups'. rewrite Hloop.
        split_and!; [done| |by apply Hlinked]. by rewrite Hperm, Hcat.
    + intros Hsep.
      pose proof (merge_pass_separated max_gap paths Hne Hsep) as Hpass.
      unfold Merger.merge_adjacent_paths, Merger.connect_contours.
      split.
      * destruct (length paths <=? 1)%nat; [done|]. by rewrite Hpass.
      * destruct (Nat.ltb_spec (length paths) 2) as [|Hlong]; [done|].
        destruct (length paths) as [|budget]; [lia|].
        simpl. by rewrite Hpass.
Qed.

Lemma merger_concatenates_witness :
  (∃ groups : list (list path),
     Merger.merge_adjacent_paths
       [[(0, 0); (5, 0)]; [(100, 0); (105, 0)]; [(6, 0); (9, 0)]]%Q 3
       = Some (@concat point <$> groups) ∧
     concat groups ≡ₚ [[(0, 0); (5, 0)]; [(100, 0); (105, 0)]; [(6, 0); (9, 0)]]%Q ∧
     Forall (λ g, Merger.linked 3 g = true) groups) ∧
  Merger.merge_adjacent_paths
    [[(0, 0); (5, 0)]; [(100, 0); (105, 0)]; [(6, 0); (9, 0)]]%Q 3
  = Some [[(0, 0); (5, 0); (6, 0); (9, 0)]; [(100, 0); (105, 0)]]%Q.
Proof.
  split; [|by vm_compute].
  destruct (merger_concatenates
              [[(0, 0); (5, 0)]; [(100, 0); (105, 0)]; [(6, 0); (9, 0)]]%Q 3)
    as (_ & _ & Hlinked); [repeat constructor; discriminate|].
  by destruct Hlinked as (Hmerge & _ & _).
Defined.

(** ** Vector serializer *)

Section serializer.
Import Serializer.

Lemma map_point_at_seq {B} (f : point → B) (points : path) :
  map (λ j, f (point_at points j)) (seq 0 (length points)) = map f points.
Proof.
  induction points as [|p points IH]; [done|]. simpl. f_equal.
  rewrite <- seq_shift, map_map. apply IH.
Qed.

Lemma map_point_at_tail {B} (f : point → B) p (points : path) :
  map (λ j, f (point_at (p :: points) j)) (seq 1 (length points)) = map f points.
Proof. rewrite <- seq_shift, map_map. apply map_point_at_seq. Qed.

Lemma foldl_snoc_map {A B} (g : B → A) (l : list B) (acc : list A) :
  foldl (λ content j, content ++ [g j]) acc l = acc ++ map g l.
Proof.
  revert acc. induction l as [|j l IH]; intros acc; simpl.
  - by rewrite app_nil_r.
  - rewrite IH. by rewrite <- (assoc_L (++)).
Qed.

Lemma foldl_lineto height (points : path) (l : list nat) : ∀ content,
  foldl (λ content j,
           let '(x, y) := point_at points j in
           content ++ [AiLineto x (inject_Z height - y)%Q]) content l
  = content ++ map (λ j, AiLineto (point_at points j).1
                                  (inject_Z height - (point_at points j).2)%Q) l.
Proof.
  induction l as [|j l IH]; intros content; simpl.
  - by rewrite app_nil_r.
  - rewrite IH. destruct (point_at points j). by rewrite <- (assoc_L (++)).
Qed.

Lemma omap_ai_lineto (f : nat → point) height (l : list nat) :
  omap ai_command
       (map (λ j, AiLineto (f j).1 (inject_Z height - (f j).2)%Q) l)
  = map (λ j, LineTo (f j).1 (inject_Z height - (f j).2)%Q) l.
Proof. induction l as [|j l IH]; simpl; [done|]. f_equal. apply IH. Qed.

Lemma omap_svg_lineto (f : nat → point) (l : list nat) :
  omap svg_command (map (λ j, SvgL (f j).1 (f j).2) l)
  = map (λ j, LineTo (f j).1 (f j).2) l.
Proof. induction l as [|j l IH]; simpl; [done|]. f_equal. apply IH. Qed.

Lemma ai_path_commands height content i path :
  omap ai_command (ai_path height content (i, path))
  = omap ai_command content
    ++ path_commands (λ y, inject_Z height - y)%Q path.
Proof.
  unfold ai_path.
  destruct path as [|first [|second rest]];
    [simpl; by rewrite app_nil_r..|].
  replace (length (first :: second :: rest) <? 2)%nat with false by done.
  cbv zeta.
  rewrite foldl_lineto, !omap_app,
    (omap_ai_lineto (point_at (first :: second :: rest))).
  replace (length (first :: second :: rest) - 1)%nat
    with (length (second :: rest)) by (simpl; lia).
  rewrite (map_point_at_tail
             (λ p : point, LineTo p.1 (inject_Z height - p.2)%Q)).
  simpl. rewrite !app_nil_r. by rewrite <- !(assoc_L (++)).
Qed.

Lemma svg_path_commands content i path :
  omap svg_command (svg_path content (i, path))
  = omap svg_command content ++ path_commands (λ y, y) path.
Proof.
  unfold svg_path.
  destruct path as [|first [|second rest]];
    [simpl; by rewrite app_nil_r..|].
  replace (length (first :: second :: rest) <? 2)%nat with false by done.
  cbv zeta.
  rewrite foldl_snoc_map, !omap_app,
    (omap_svg_lineto (point_at (first :: second :: rest))).
  replace (length (first :: second :: rest) - 1)%nat
    with (length (second :: rest)) by (simpl; lia).
  rewrite (map_point_at_tail (λ p : point, LineTo p.1 p.2)).
  simpl. rewrite !app_nil_r. by rewrite <- !(assoc_L (++)).
Qed.

Lemma foldl_ai_path height entries : ∀ content,
  omap ai_command (foldl (ai_path height) content entries)
  = omap ai_command content
    ++ (entries.*2 ≫= path_commands (λ y, inject_Z height - y)%Q).
Proof.
  induction entries as [|[i path] entries IH]; intros content.
  - simpl. by rewrite app_nil_r.
  - change (foldl (ai_path height) content ((i, path) :: entries))
      with (foldl (ai_path height) (ai_path height content (i, path)) entries).
    rewrite IH, ai_path_commands, fmap_cons, bind_cons.
    by rewrite <- (assoc_L (++)).
Qed.

Lemma foldl_svg_path entries : ∀ content,
  omap svg_command (foldl svg_path content entries)
  = omap svg_command content ++ (entries.*2 ≫= path_commands (λ y, y)).
Proof.
  induction entries as [|[i path] entries IH]; intros content.
  - simpl. by rewrite app_nil_r.
  - change (foldl svg_path content ((i, path) :: entries))
      with (foldl svg_path (svg_path content (i, path)) entries).
    rewrite IH, svg_path_commands, fmap_cons, bind_cons.
    by rewrite <- (assoc_L (++)).
Qed.

End serializer.

(** C8: for every path collection and canvas size, the move-to and line-to
    commands [output_ai] writes are, path after path, nothing for a path of
    fewer than 2 points and otherwise one move-to for the first point
    followed by one line-to for each later point in order, every vertical
    coordinate written as [height - y]; those [output_svg] writes are the
    same with the coordinates as they are. *)
Theorem serializer_commands (paths : list path) (width height : Z) :
  omap Serializer.ai_command (Serializer.output_ai paths width height)
    = paths ≫= Serializer.path_commands (λ y, inject_Z height - y)%Q ∧
  omap Serializer.svg_command (Serializer.output_svg paths width height).1
    = paths ≫= Serializer.path_commands (λ y, y) ∧
  (∀ path, (length path < 2)%nat →
     ∀ vertical, Serializer.path_commands vertical path = []).
Proof.
  assert ((zip (seq 0 (length paths)) paths).*2 = paths) as Hsnd.
  { apply snd_zip. by rewrite length_seq. }
  split_and!.
  - unfold Serializer.output_ai.
    rewrite !omap_app, foldl_ai_path, Hsnd. simpl. by rewrite app_nil_r.
  - unfold Serializer.output_svg. simpl.
    rewrite !omap_app, foldl_svg_path, Hsnd. simpl. by rewrite app_nil_r.
  - intros [|p [|q rest]] Hlen vertical; simpl in *; [done..|lia].
Qed.

(** ** Short paths and failed fits *)

(** C9, as stated, fails: [optimize_contour] turns a one-point path, shorter
    than the 3 points it needs, into the empty path. *)
Lemma optimize_contour_drops_single_point :
  (length [(3, 4)]%Q < 3)%nat ∧
  Filters.optimize_contour 1000 [(3, 4)]%Q 1.5 = Some [] ∧
  Filters.optimize_contour 1000 [(3, 4)]%Q 1.5 ≠ Some [(3, 4)]%Q.
Proof. split_and!; [simpl; lia|done|discriminate]. Qed.

(** C9, amended: a path shorter than the filter's minimum length is
    returned as it is by [smooth_path], [savitzky_golay_smooth]
    (fewer points than the window), [chaikin_smooth], [curve_fitting_smooth],
    [fit_smooth_curve] (fewer than 4), [simplify_path_points],
    [simplify_path], [ramer_douglas_pecker] (fewer than 3),
    [merge_close_points] and [remove_redundant_points] (fewer than 2);
    [optimize_contour] returns a two-point path as it is and a shorter one
    as the empty path.  Whatever the numerical routines do,
    [curve_fitting_smooth] and [fit_smooth_curve] return a path, and it is
    the input path when the fit raises. *)
Theorem filters_degrade_gracefully
    (fit_at : list Q → list Q → Z → Q → option Q)
    (interp : list Q → list Q → list Q → option (list Q))
    (spline : list Q → list Q → Q → list Q → option (list Q * list Q))
    (points : path) :
  (∀ window, Z.of_nat (length points) < window →
     Filters.smooth_path points window = points) ∧
  (∀ window order, Z.of_nat (length points) < window →
     Filters.savitzky_golay_smooth fit_at points window order = points) ∧
  (∀ window order, (∀ x ys x_new, fit_at x ys order x_new = None) →
     Filters.savitzky_golay_smooth fit_at points window order = points) ∧
  ((length points < 4)%nat →
     (∀ iterations, Filters.chaikin_smooth points iterations = Some points) ∧
     (∀ n_points, Filters.curve_fitting_smooth interp points n_points = points) ∧
     (∀ smoothing, Filters.fit_smooth_curve spline points smoothing = points)) ∧
  ((length points < 3)%nat →
     ∀ tolerance,
       Filters.simplify_path_points points tolerance = points ∧
       Filters.simplify_path points tolerance = points ∧
       ∀ limit, Filters.ramer_douglas_pecker limit points tolerance
                = Some points) ∧
  ((length points < 2)%nat →
     ∀ tolerance,
       Filters.merge_close_points points tolerance = points ∧
       Filters.remove_redundant_points points tolerance = points ∧
       ∀ limit, Filters.optimize_contour limit points tolerance = Some []) ∧
  (length points = 2%nat →
     ∀ epsilon limit,
       Filters.optimize_contour limit points epsilon = Some points) ∧
  (∀ n_points,
     interp (Filters.linspace01 (length points)) points.*1
            (Filters.linspace01 (default (length points) n_points)) = None ∨
     interp (Filters.linspace01 (length points)) points.*2
            (Filters.linspace01 (default (length points) n_points)) = None →
     Filters.curve_fitting_smooth interp points n_points = points) ∧
  (∀ smoothing,
     spline points.*1 points.*2 smoothing (Filters.linspace01 (length points))
       = None →
     Filters.fit_smooth_curve spline points smoothing = points).
Proof.
  split_and!.
  - intros window Hlen. unfold Filters.smooth_path.
    by destruct (Z.ltb_spec (Z.of_nat (length points)) window); [|lia].
  - intros window order Hlen. unfold Filters.savitzky_golay_smooth.
    by destruct (Z.ltb_spec (Z.of_nat (length points)) window); [|lia].
  - intros window order Hfail. unfold Filters.savitzky_golay_smooth.
    destruct (Z.of_nat (length points) <? window); [done|]. cbv zeta.
    trans (map (λ p : point, p) points); [|apply map_id].
    rewrite <- (map_point_at_seq (λ p : point, p) points).
    apply map_ext. intros i.
    rewrite !Hfail. by destruct (point_at points i).
  - intros Hlen.
    unfold Filters.chaikin_smooth, Filters.curve_fitting_smooth,
      Filters.fit_smooth_curve.
    by destruct (Nat.ltb_spec (length points) 4); [|lia].
  - intros Hlen tolerance.
    unfold Filters.simplify_path_points, Filters.simplify_path,
      Filters.ramer_douglas_pecker.
    rewrite decimate_short by done.
    by destruct (Nat.ltb_spec (length points) 3); [|lia].
  - intros Hlen tolerance.
    unfold Filters.merge_close_points, Filters.remove_redundant_points,
      Filters.optimize_contour.
    rewrite decimate_short by done.
    destruct (Nat.ltb_spec (length points) 3); [|lia].
    by destruct (Nat.ltb_spec 1 (length points)); [lia|].
  - intros Hlen epsilon. unfold Filters.optimize_contour. by rewrite Hlen.
  - intros n_points Hfail. unfold Filters.curve_fitting_smooth.
    destruct (length points <? 4)%nat; [done|]. cbv zeta.
    destruct Hfail as [-> | Hy]; [done|].
    rewrite Hy. by destruct (interp _ points.*1 _).
  - intros smoothing Hfail. unfold Filters.fit_smooth_curve.
    destruct (length points <? 4)%nat; [done|]. cbv zeta. by rewrite Hfail.
Qed.


(** ** The mask as a list of rows *)

(** In a rectangular array every non-zero cell is a foreground pixel. *)
Lemma nonzero_cell_foreground (a : image) (y x : nat) (row : list Z) (v : Z) :
  rectangular a → a !! y = Some row → row !! x = Some v → v ≠ 0 →
  Tracer.foreground a (Z.of_nat x, Z.of_nat y).
Proof.
  intros Hrect Hrow Hv Hnz.
  pose proof (Forall_lookup_1 _ _ _ _ Hrect Hrow) as Hw. simpl in Hw.
  apply lookup_lt_Some in Hrow as Hy. apply lookup_lt_Some in Hv as Hx.
  split; [split; simpl; unfold img_height; lia|].
  unfold get2. simpl. rewrite !Nat2Z.id, Hrow. simpl. by rewrite Hv.
Qed.

(** * Further properties of the pipeline *)

(** ** Tracing with a length filter *)

(** X1: [trace_all_contours] returns on every mask; no pixel occurs twice in
    the paths it returns, neither in one path nor in two; every pixel of a
    path is a foreground pixel of the mask; and every path has more than 5
    points. *)
Theorem trace_all_contours_disjoint (skeleton : image) :
  ∃ contours,
    Tracer.trace_all_contours skeleton = Some contours ∧
    NoDup (concat contours) ∧
    (∀ i j a b p, contours !! i = Some a → contours !! j = Some b →
       p ∈ a → p ∈ b → i = j) ∧
    (∀ i path p, contours !! i = Some path → p ∈ path →
       Tracer.foreground skeleton p) ∧
    (∀ i path, contours !! i = Some path → (5 < length path)%nat).
Proof.
  destruct (trace_spec skeleton (λ n, 5 <? n)%nat)
    as (contours & Htr & Hnd & Hfg & Hpaths & _).
  exists contours. split_and!; [done|done|..].
  - intros i j a b p Hi Hj Ha Hb. by eapply (NoDup_concat_unique contours).
  - intros i path p Hi Hp. apply Hfg, elem_of_concat. eauto.
  - intros i path Hi.
    destruct (Hpaths path) as (_ & _ & Hkeep); [by eapply list_elem_of_lookup_2|].
    by apply Nat.ltb_lt in Hkeep.
Qed.

(** ** More on distance decimation *)

Section decimation_more.
Import Filters.

Context {P : Type} (far : P → P → bool).

Lemma kept_after_sublist l rest : kept_after far l rest `sublist_of` rest.
Proof.
  revert l. induction rest as [|p rest IH]; intros l; simpl; [constructor|].
  destruct (far p l); [apply sublist_skip|apply sublist_cons]; apply IH.
Qed.

Lemma kept_after_all l rest :
  (∀ p k, far p k = true) → kept_after far l rest = rest.
Proof.
  intros Hfar. revert l. induction rest as [|p rest IH]; intros l; simpl; [done|].
  by rewrite Hfar, IH.
Qed.

(** Consecutive kept points pass the test. *)
Lemma kept_after_spaced l rest i a b :
  (l :: kept_after far l rest) !! i = Some a →
  (l :: kept_after far l rest) !! S i = Some b →
  far b a = true.
Proof.
  revert l i. induction rest as [|p rest IH]; intros l i Ha Hb; simpl in *.
  - by destruct i.
  - destruct (far p l) eqn:Hfar.
    + destruct i as [|i]; simpl in *; [by simplify_eq|]. by eapply IH.
    + by eapply IH.
Qed.

(** Every walked point is kept or fails the test against a kept point. *)
Lemma kept_after_covers l rest p :
  p ∈ rest →
  ∃ k, k ∈ l :: kept_after far l rest ∧ (k = p ∨ far p k = false).
Proof.
  revert l. induction rest as [|q rest IH]; intros l Hp; [by apply elem_of_nil in Hp|].
  simpl. destruct (far q l) eqn:Hfar.
  - apply elem_of_cons in Hp as [->|Hp].
    + exists q. split; [right; left|by left].
    + destruct (IH q Hp) as (k & Hk & Hpk). exists k. split; [by right|done].
  - apply elem_of_cons in Hp as [->|Hp].
    + exists l. split; [left|by right].
    + by apply IH.
Qed.

(** A second walk with a weaker test keeps every point of the first. *)
Lemma kept_after_weaker (far' : P → P → bool) l rest :
  (∀ p k, far p k = true → far' p k = true) →
  kept_after far' l (kept_after far l rest) = kept_after far l rest.
Proof.
  intros Hweak. revert l. induction rest as [|p rest IH]; intros l; simpl; [done|].
  destruct (far p l) eqn:Hfar; simpl; [|apply IH].
  by rewrite (Hweak _ _ Hfar), IH.
Qed.

End decimation_more.

Lemma far_apart_spec tolerance p l :
  Filters.far_apart tolerance p l = true ↔
  (tolerance <= 0 ∨ tolerance * tolerance <= sqdist p l)%Q.
Proof.
  unfold Filters.far_apart, sqrt_ge, sqrt_lt.
  rewrite negb_true_iff, andb_false_iff, !Qltb_ge. tauto.
Qed.

Lemma far_apart_false tolerance p l :
  Filters.far_apart tolerance p l = false ↔
  (0 < tolerance ∧ sqdist p l < tolerance * tolerance)%Q.
Proof.
  unfold Filters.far_apart, sqrt_ge, sqrt_lt.
  by rewrite negb_false_iff, andb_true_iff, !Qltb_lt.
Qed.

(** X2: [simplify_path_points] only selects: its result is a subsequence of
    the input (same points, same order, none invented), it starts with the
    input's first point, it is empty only for an empty input, and with a
    tolerance that is not positive it is the input itself. *)
Theorem simplify_path_points_selects (points : path) (tolerance : Q) :
  Filters.simplify_path_points points tolerance `sublist_of` points ∧
  list.head (Filters.simplify_path_points points tolerance) = list.head points ∧
  (Filters.simplify_path_points points tolerance = [] → points = []) ∧
  ((tolerance <= 0)%Q → Filters.simplify_path_points points tolerance = points).
Proof.
  unfold Filters.simplify_path_points.
  destruct (decide (length points < 3)%nat) as [Hlt|Hge].
  { rewrite decimate_short by done. done. }
  destruct points as [|p0 rest]; [simpl in Hge; lia|].
  rewrite decimate_cons by lia. split_and!.
  - apply sublist_skip, kept_after_sublist.
  - done.
  - done.
  - intros Htol. f_equal. apply kept_after_all.
    intros p k. apply far_apart_spec. by left.
Qed.

(** X3: when [simplify_path_points] walks a path of at least 3 pixels
    with a whole tolerance, any two consecutive points of its result are
    at least the tolerance apart, and every input point is either kept or
    closer than the tolerance to a kept point. *)
Theorem simplify_path_points_spacing (points : path) (tolerance : Q) :
  pixel_path points = true → whole tolerance = true →
  (3 ≤ length points)%nat →
  (∀ i a b,
     Filters.simplify_path_points points tolerance !! i = Some a →
     Filters.simplify_path_points points tolerance !! S i = Some b →
     (tolerance <= 0 ∨ tolerance * tolerance <= sqdist b a)%Q) ∧
  (∀ p, p ∈ points →
     ∃ k, k ∈ Filters.simplify_path_points points tolerance ∧
          (k = p ∨ (0 < tolerance ∧ sqdist p k < tolerance * tolerance)%Q)).
Proof.
  intros _ _ Hlen. unfold Filters.simplify_path_points.
  destruct points as [|p0 rest]; [simpl in Hlen; lia|].
  rewrite decimate_cons by lia. split.
  - intros i a b Ha Hb. apply far_apart_spec. by eapply kept_after_spaced.
  - intros p [->|Hp]%elem_of_cons.
    + exists p0. split; [left|by left].
    + destruct (kept_after_covers (Filters.far_apart tolerance) p0 rest p Hp)
        as (k & Hk & [Heq|Hfar]); exists k; (split; [done|]); [by left|].
      right. by apply far_apart_false.
Qed.

Lemma simplify_path_points_spacing_witness :
  (∀ i a b,
     Filters.simplify_path_points (to_points (Filters.diagonal 50)) 5 !! i = Some a →
     Filters.simplify_path_points (to_points (Filters.diagonal 50)) 5 !! S i = Some b →
     (5 <= 0 ∨ 5 * 5 <= sqdist b a)%Q) ∧
  (∀ p, p ∈ to_points (Filters.diagonal 50) →
     ∃ k, k ∈ Filters.simplify_path_points (to_points (Filters.diagonal 50)) 5 ∧
          (k = p ∨ (0 < 5 ∧ sqdist p k < 5 * 5)%Q)).
Proof.
  apply (simplify_path_points_spacing (to_points (Filters.diagonal 50)) 5).
  - by vm_compute.
  - reflexivity.
  - vm_compute. lia.
Defined.

(** X4: in [smooth_and_clean] the step [merge_close_points] with threshold 8
    follows [simplify_path_points] with tolerance 10 and changes nothing; in
    general, decimating the result of [simplify_path_points] again by
    [merge_close_points] with a threshold no larger than the tolerance
    returns it unchanged, for every path of at least 3 points. *)
Theorem merge_close_points_after_simplify (points : path) (tolerance threshold : Q) :
  (3 ≤ length points)%nat → (threshold <= tolerance)%Q →
  Filters.merge_close_points
    (Filters.simplify_path_points points tolerance) threshold
  = Filters.simplify_path_points points tolerance.
Proof.
  intros Hlen Hle.
  unfold Filters.merge_close_points, Filters.simplify_path_points.
  destruct points as [|p0 rest]; [simpl in Hlen; lia|].
  rewrite (decimate_cons _ 3) by lia.
  destruct (decide (length (p0 :: Filters.kept_after (Filters.far_apart tolerance)
                                    p0 rest) < 2)%nat).
  - by apply decimate_short.
  - rewrite decimate_cons by lia. f_equal. apply kept_after_weaker.
    intros p k [Hneg|Hsq]%far_apart_spec; apply far_apart_spec.
    + left. lra.
    + destruct (Qlt_le_dec 0 threshold) as [Hpos|?]; [|by left].
      right. eapply Qle_trans; [|apply Hsq]. nra.
Qed.

Lemma merge_close_points_after_simplify_witness :
  Filters.merge_close_points
    (Filters.simplify_path_points (to_points (Filters.diagonal 50)) 10) 8
  = Filters.simplify_path_points (to_points (Filters.diagonal 50)) 10.
Proof.
  apply (merge_close_points_after_simplify (to_points (Filters.diagonal 50)) 10 8).
  - vm_compute. lia.
  - by vm_compute.
Defined.

(** ** More on Chaikin corner cutting *)

Lemma length_flat_map_pair {A B} (f g : A → B) (l : list A) :
  length (flat_map (λ e, [f e; g e]) l) = (2 * length l)%nat.
Proof. induction l as [|e l IH]; simpl; [done|]. rewrite IH. lia. Qed.

Lemma chaikin_step_length pts r :
  Filters.chaikin_step pts = Some r → length r = (2 * length pts)%nat.
Proof.
  unfold Filters.chaikin_step. intros Hr.
  destruct (list.head pts) as [first|] eqn:Hfirst; [|done].
  destruct (list.last pts) as [final|]; [|done].
  simpl in Hr. simplify_eq.
  rewrite length_cons, length_app,
    (length_flat_map_pair (λ e : point * point, Filters.cut_q e.1 e.2)
                          (λ e : point * point, Filters.cut_r e.1 e.2)),
    length_zip_with.
  destruct pts as [|p0 rest]; [done|]. cbn [tail length]. lia.
Qed.

(** X5: on a path of at least 4 points, [chaikin_smooth] with [k >= 0]
    iterations returns a path of [2^k] times as many points: every
    iteration doubles the point count. *)
Theorem chaikin_smooth_doubles (points : path) (iterations : Z) :
  (4 ≤ length points)%nat → 0 <= iterations →
  ∃ result,
    Filters.chaikin_smooth points iterations = Some result ∧
    length result = (2 ^ Z.to_nat iterations * length points)%nat.
Proof.
  intros Hlen Hk. unfold Filters.chaikin_smooth.
  destruct (Nat.ltb_spec (length points) 4) as [?|_]; [lia|]. simpl.
  destruct (Z.leb_spec iterations 0) as [Hz|Hpos].
  { exists points. replace iterations with 0 by lia. simpl. split; [done|lia]. }
  clear Hk Hpos. induction (Z.to_nat iterations) as [|n (r & Hr & Hl)].
  - exists points. simpl. split; [done|lia].
  - rewrite Nat.pow_succ_r', Nat.iter_succ, Hr. cbn [mbind option_bind].
    destruct (chaikin_step_ends r) as (r' & Hr' & _).
    { intros ->. simpl in Hl. pose proof (Nat.pow_nonzero 2 n). nia. }
    exists r'. split; [done|].
    rewrite (chaikin_step_length r r' Hr'), Hl. lia.
Qed.

Lemma chaikin_smooth_doubles_witness :
  ∃ result,
    Filters.chaikin_smooth (to_points (Filters.diagonal 5)) 3 = Some result ∧
    length result = (2 ^ Z.to_nat 3 * length (to_points (Filters.diagonal 5)))%nat.
Proof.
  apply (chaikin_smooth_doubles (to_points (Filters.diagonal 5)) 3).
  - vm_compute. lia.
  - lia.
Defined.

(** ** More on Douglas-Peucker simplification *)

Lemma farthest_none dist_sq points start end_ :
  (∀ i, (start < i < end_)%nat → (dist_sq (point_at points i) <= 0)%Q) →
  Filters.farthest dist_sq points start end_ = (0%Q, start).
Proof.
  intros Hd. unfold Filters.farthest.
  apply (foldl_invariant _ (λ st : Q * nat, st = (0%Q, start))); [|done].
  intros st i Hi%elem_of_seq ->. simpl.
  destruct (Qltb 0 (dist_sq (point_at points i))) eqn:Hlt; [|done].
  apply Qltb_lt in Hlt. specialize (Hd i ltac:(lia)). lra.
Qed.

(** With one interior point the farthest point is that one, when it is off
    the chord. *)
Lemma farthest_single dist_sq (p0 p1 p2 : point) :
  (0 < dist_sq p1)%Q →
  Filters.farthest dist_sq [p0; p1; p2] 0 2 = (dist_sq p1, 1%nat).
Proof.
  intros Hpos. unfold Filters.farthest. simpl.
  change (point_at [p0; p1; p2] 1) with p1.
  by apply Qltb_lt in Hpos as ->.
Qed.

Lemma sqrt_gt_above s eps : (eps * eps < s)%Q → sqrt_gt s eps = true.
Proof. intros Hs. unfold sqrt_gt. apply orb_true_iff. right. by apply Qltb_lt. Qed.

Lemma rdp_base depth (points : path) start end_ eps r :
  (end_ ≤ start + 1)%nat →
  Filters.rdp depth points start end_ eps = Some r →
  r = [point_at points start].
Proof.
  intros Hspan Hr. destruct depth as [|depth]; [done|].
  rewrite rdp_unfold in Hr.
  destruct (Nat.leb_spec end_ (start + 1)) as [_|?]; [|lia]. by simplify_eq.
Qed.

Lemma douglas_peucker_base depth (pts : path) start end_ eps r :
  (end_ ≤ start + 1)%nat →
  Filters.douglas_peucker depth start end_ pts eps = Some r →
  r = [point_at pts start; point_at pts end_].
Proof.
  intros Hspan Hr. destruct depth as [|depth]; [done|].
  rewrite douglas_peucker_unfold in Hr.
  destruct (Z.ltb_spec (Z.of_nat end_ - Z.of_nat start) 2) as [_|?]; [|lia].
  by simplify_eq.
Qed.

(** The outcomes of [rdp] on a span with one interior point. *)
Lemma rdp_three (p0 p1 p2 : point) (eps : Q) :
  ∀ depth r, Filters.rdp depth [p0; p1; p2] 0 2 eps = Some r →
    r = [p0; p2] ∨ r = [p1].
Proof.
  induction depth as [|depth IH]; intros r Hr; [done|].
  rewrite rdp_unfold in Hr. change (2 <=? 0 + 1)%nat with false in Hr.
  cbv iota in Hr.
  destruct (farthest_index
              (λ p, Filters.perpendicular_distance_sq
                      p (point_at [p0; p1; p2] 0) (point_at [p0; p1; p2] 2))
              [p0; p1; p2] 0 2) as [Hnone|Hidx].
  - rewrite Hnone in Hr. destruct (sqrt_gt 0 eps); [|left; by simplify_eq].
    destruct (Filters.rdp depth [p0; p1; p2] 0 0 eps) as [left|] eqn:Hl; [|done].
    destruct (Filters.rdp depth [p0; p1; p2] 0 2 eps) as [right|] eqn:Hrt; [|done].
    apply rdp_base in Hl as ->; [|lia]. simpl in Hr. simplify_eq. by apply IH.
  - destruct (Filters.farthest _ [p0; p1; p2] 0 2) as [max_sq max_idx].
    simpl in Hidx. assert (max_idx = 1%nat) as -> by lia.
    destruct (sqrt_gt max_sq eps); [|left; by simplify_eq].
    destruct (Filters.rdp depth [p0; p1; p2] 0 1 eps) as [left|] eqn:Hl; [|done].
    destruct (Filters.rdp depth [p0; p1; p2] 1 2 eps) as [right|] eqn:Hrt; [|done].
    apply rdp_base in Hl as ->; [|lia]. apply rdp_base in Hrt as ->; [|lia].
    simpl in Hr. right. by simplify_eq.
Qed.

(** X6: on a three-point path [ramer_douglas_pecker] returns the two ends
    or the middle point alone, and nothing else: where it splits, the
    two-point spans return their start only and the join drops the last
    point of the left part, so both ends of the path are lost.  It returns
    when [epsilon] is not negative and the interpreter allows a depth of
    3.  For three pixels with the ends on one row or one column and a
    whole [epsilon] smaller than the distance of the middle point from the
    chord, what it returns is the middle point alone. *)
Theorem ramer_douglas_pecker_loses_ends (limit : nat) (p0 p1 p2 : point)
    (eps : Q) :
  (∀ result,
     Filters.ramer_douglas_pecker limit [p0; p1; p2] eps = Some result →
     result = [p0; p2] ∨ result = [p1]) ∧
  ((0 <= eps)%Q → (3 ≤ limit)%nat →
     is_Some (Filters.ramer_douglas_pecker limit [p0; p1; p2] eps)) ∧
  (pixel_path [p0; p1; p2] = true → whole eps = true →
   axis_parallel p0 p2 = true → (2 ≤ limit)%nat →
   (eps * eps < Filters.perpendicular_distance_sq p1 p0 p2)%Q →
     Filters.ramer_douglas_pecker limit [p0; p1; p2] eps = Some [p1]).
Proof.
  split_and!.
  - intros result Hres. by apply (rdp_three p0 p1 p2 eps limit).
  - intros Heps Hlimit. by apply simplifiers_return.
  - intros _ _ _ Hlimit Hdev.
    destruct limit as [|[|limit]]; [lia..|].
    unfold Filters.ramer_douglas_pecker. simpl length.
    change (3 <? 3)%nat with false. cbv iota.
    rewrite rdp_unfold. change (3 - 1 <=? 0 + 1)%nat with false. cbv iota.
    change (point_at [p0; p1; p2] 0) with p0.
    change (point_at [p0; p1; p2] (3 - 1)) with p2.
    change (3 - 1)%nat with 2%nat.
    rewrite farthest_single by (generalize (eps * eps)%Q, Hdev; intros; nra).
    rewrite sqrt_gt_above by done.
    by rewrite !rdp_unfold.
Qed.

Lemma ramer_douglas_pecker_loses_ends_witness :
  Filters.ramer_douglas_pecker 1000 [(0, 0); (2, 2); (4, 0)]%Q 1
    = Some [(2, 2)]%Q ∧
  is_Some (Filters.ramer_douglas_pecker 1000 [(0, 0); (2, 2); (4, 0)]%Q 1).
Proof.
  destruct (ramer_douglas_pecker_loses_ends 1000 (0, 0)%Q (2, 2)%Q (4, 0)%Q 1)
    as (_ & Hreturns & Hmiddle).
  split.
  - apply Hmiddle; [reflexivity|reflexivity|reflexivity|lia|by vm_compute].
  - apply Hreturns; [by vm_compute|lia].
Defined.

(** A span that [douglas_peucker] splits at its own start is split there
    again at every depth: the right part is the span itself. *)
Lemma douglas_peucker_stuck (pts : path) (eps : Q) start end_ :
  (start + 1 < end_)%nat →
  sqrt_lt (sqdist (point_at pts end_) (point_at pts start)) 0.001 = false →
  Filters.farthest
    (λ p, Filters.line_distance_sq
            p (point_at pts start) (point_at pts end_))
    pts start end_ = (0%Q, start) →
  sqrt_gt 0 eps = true →
  ∀ depth, Filters.douglas_peucker depth start end_ pts eps = None.
Proof.
  intros Hspan Hchord Hfar Hgt. induction depth as [|depth IH]; [done|].
  rewrite douglas_peucker_unfold.
  destruct (Z.ltb_spec (Z.of_nat end_ - Z.of_nat start) 2) as [?|_]; [lia|].
  rewrite Hchord, Hfar, Hgt, IH.
  by destruct (Filters.douglas_peucker depth start start pts eps).
Qed.

(** The outcomes of [douglas_peucker] on a span with one interior point. *)
Lemma douglas_peucker_three (p0 p1 p2 : point) (eps : Q) :
  ∀ depth r, Filters.douglas_peucker depth 0 2 [p0; p1; p2] eps = Some r →
    r = [p0] ∨ r = [p0; p2] ∨ r = [p0; p1; p1; p2].
Proof.
  intros depth r Hr. pose proof Hr as Hr0.
  destruct depth as [|depth]; [done|].
  rewrite douglas_peucker_unfold in Hr.
  change (Z.of_nat 2 - Z.of_nat 0 <? 2) with false in Hr. cbv iota in Hr.
  destruct (sqrt_lt _ 0.001) eqn:Hchord; [left; by simplify_eq|].
  destruct (farthest_index
              (λ p, Filters.line_distance_sq
                      p (point_at [p0; p1; p2] 0) (point_at [p0; p1; p2] 2))
              [p0; p1; p2] 0 2) as [Hnone|Hidx].
  - rewrite Hnone in Hr.
    destruct (sqrt_gt 0 eps) eqn:Hgt; [|right; left; by simplify_eq].
    by rewrite (douglas_peucker_stuck [p0; p1; p2] eps 0 2
                  ltac:(lia) Hchord Hnone Hgt) in Hr0.
  - destruct (Filters.farthest _ [p0; p1; p2] 0 2) as [max_sq max_idx].
    simpl in Hidx. assert (max_idx = 1%nat) as -> by lia.
    destruct (sqrt_gt max_sq eps); [|right; left; by simplify_eq].
    destruct (Filters.douglas_peucker depth 0 1 [p0; p1; p2] eps)
      as [left|] eqn:Hl; [|done].
    destruct (Filters.douglas_peucker depth 1 2 [p0; p1; p2] eps)
      as [right|] eqn:Hrt; [|done].
    apply douglas_peucker_base in Hl as ->; [|lia].
    apply douglas_peucker_base in Hrt as ->; [|lia].
    simpl in Hr. right. right. by simplify_eq.
Qed.

(** X7: on a three-point path [optimize_contour] returns the first point
    alone (ends less than 0.001 apart), the two ends, or four points with
    the middle point written twice, once as the end of the left part and
    once as the start of the right part; it returns nothing else.  It
    returns when [epsilon] is not negative and the interpreter allows a
    depth of 3.  For three pixels with the ends on one row or one column,
    not the same pixel, and a whole [epsilon] smaller than the distance of
    the middle point from the line through the ends, what it returns is
    the four points. *)
Theorem optimize_contour_repeats_split (limit : nat) (p0 p1 p2 : point)
    (eps : Q) :
  (∀ result,
     Filters.optimize_contour limit [p0; p1; p2] eps = Some result →
     result = [p0] ∨ result = [p0; p2] ∨ result = [p0; p1; p1; p2]) ∧
  ((0 <= eps)%Q → (3 ≤ limit)%nat →
     is_Some (Filters.optimize_contour limit [p0; p1; p2] eps)) ∧
  (pixel_path [p0; p1; p2] = true → whole eps = true →
   axis_parallel p0 p2 = true → (2 ≤ limit)%nat →
   sqrt_lt (sqdist p2 p0) 0.001 = false →
   (eps * eps < Filters.line_distance_sq p1 p0 p2)%Q →
     Filters.optimize_contour limit [p0; p1; p2] eps
     = Some [p0; p1; p1; p2]).
Proof.
  split_and!.
  - intros result Hres. by apply (douglas_peucker_three p0 p1 p2 eps limit).
  - intros Heps Hlimit. by apply simplifiers_return.
  - intros _ _ _ Hlimit Hchord Hdev.
    destruct limit as [|[|limit]]; [lia..|].
    unfold Filters.optimize_contour. simpl length.
    change (3 <? 3)%nat with false. cbv iota.
    rewrite douglas_peucker_unfold.
    change (Z.of_nat (3 - 1) - Z.of_nat 0 <? 2) with false. cbv iota.
    change (point_at [p0; p1; p2] 0) with p0.
    change (point_at [p0; p1; p2] (3 - 1)) with p2.
    change (3 - 1)%nat with 2%nat.
    rewrite Hchord.
    rewrite farthest_single by (generalize (eps * eps)%Q, Hdev; intros; nra).
    rewrite sqrt_gt_above by done.
    by rewrite !douglas_peucker_unfold.
Qed.

Lemma optimize_contour_repeats_split_witness :
  Filters.optimize_contour 1000 [(0, 0); (2, 2); (4, 0)]%Q 1
    = Some [(0, 0); (2, 2); (2, 2); (4, 0)]%Q ∧
  is_Some (Filters.optimize_contour 1000 [(0, 0); (2, 2); (4, 0)]%Q 1).
Proof.
  destruct (optimize_contour_repeats_split 1000 (0, 0)%Q (2, 2)%Q (4, 0)%Q 1)
    as (_ & Hreturns & Hsplit).
  split.
  - apply Hsplit;
      [reflexivity|reflexivity|reflexivity|lia|by vm_compute|by vm_compute].
  - apply Hreturns; [by vm_compute|lia].
Defined.

(** A span with interior points none of which leaves the chord is split at
    its own start when [epsilon] is negative, and the right part is the
    span again: no depth is enough. *)
Lemma rdp_negative_diverges (points : path) (eps : Q) start end_ :
  (eps < 0)%Q → (start + 1 < end_)%nat →
  (∀ i, (start < i < end_)%nat →
     (Filters.perpendicular_distance_sq
        (point_at points i) (point_at points start) (point_at points end_)
      <= 0)%Q) →
  ∀ depth, Filters.rdp depth points start end_ eps = None.
Proof.
  intros Heps Hspan Hflat. induction depth as [|depth IH]; [done|].
  rewrite rdp_unfold.
  destruct (Nat.leb_spec end_ (start + 1)) as [?|_]; [lia|].
  rewrite farthest_none by done.
  assert (sqrt_gt 0 eps = true) as ->.
  { unfold sqrt_gt. apply orb_true_iff. left. by apply Qltb_lt. }
  rewrite IH. by destruct (Filters.rdp depth points start start eps).
Qed.

Lemma douglas_peucker_negative_diverges (pts : path) (eps : Q) start end_ :
  (eps < 0)%Q → (start + 1 < end_)%nat →
  sqrt_lt (sqdist (point_at pts end_) (point_at pts start)) 0.001 = false →
  (∀ i, (start < i < end_)%nat →
     (Filters.line_distance_sq
        (point_at pts i) (point_at pts start) (point_at pts end_) <= 0)%Q) →
  ∀ depth, Filters.douglas_peucker depth start end_ pts eps = None.
Proof.
  intros Heps Hspan Hchord Hflat.
  apply douglas_peucker_stuck; [done|done|by apply farthest_none|].
  unfold sqrt_gt. apply orb_true_iff. left. by apply Qltb_lt.
Qed.

(** X8: with a whole negative [epsilon], on a path of at least 3 pixels
    none of whose interior points leaves the chord between its ends (a
    straight path), [rdp] and [douglas_peucker] split the span at its own
    start and recurse on the same span until the interpreter stops them:
    whatever depth it allows, [ramer_douglas_pecker] (for a path along one
    row or one column) and [optimize_contour] (for ends that are not the
    same pixel) return no path. *)
Theorem negative_epsilon_never_returns (points : path) (eps : Q) :
  (eps < 0)%Q → whole eps = true →
  pixel_path points = true → (3 ≤ length points)%nat →
  (axis_parallel (point_at points 0) (point_at points (length points - 1))
     = true →
   (∀ i, (0 < i < length points - 1)%nat →
      (Filters.perpendicular_distance_sq
         (point_at points i) (point_at points 0)
         (point_at points (length points - 1)) <= 0)%Q) →
   ∀ limit, Filters.ramer_douglas_pecker limit points eps = None) ∧
  (sqrt_lt (sqdist (point_at points (length points - 1)) (point_at points 0))
           0.001 = false →
   (∀ i, (0 < i < length points - 1)%nat →
      (Filters.line_distance_sq
         (point_at points i) (point_at points 0)
         (point_at points (length points - 1)) <= 0)%Q) →
   ∀ limit, Filters.optimize_contour limit points eps = None).
Proof.
  intros Heps _ _ Hlen. split.
  - intros _ Hflat limit. unfold Filters.ramer_douglas_pecker.
    destruct (Nat.ltb_spec (length points) 3) as [?|_]; [lia|].
    apply rdp_negative_diverges; [done|lia|done].
  - intros Hchord Hflat limit. unfold Filters.optimize_contour.
    destruct (Nat.ltb_spec (length points) 3) as [?|_]; [lia|].
    apply douglas_peucker_negative_diverges; [done|lia|done..].
Qed.

Lemma negative_epsilon_never_returns_witness :
  Filters.ramer_douglas_pecker 1000 [(0, 0); (1, 0); (2, 0)]%Q (-1) = None ∧
  Filters.optimize_contour 1000 [(0, 0); (1, 1); (2, 2)]%Q (-1) = None.
Proof.
  split.
  - destruct (negative_epsilon_never_returns [(0, 0); (1, 0); (2, 0)]%Q (-1))
      as [Hrdp _]; [by vm_compute|reflexivity|reflexivity|simpl; lia|].
    apply Hrdp; [reflexivity|].
    intros [|[|i]] Hi; simpl in Hi; try lia. by vm_compute.
  - destruct (negative_epsilon_never_returns [(0, 0); (1, 1); (2, 2)]%Q (-1))
      as [_ Hopt]; [by vm_compute|reflexivity|reflexivity|simpl; lia|].
    apply Hopt; [by vm_compute|].
    intros [|[|i]] Hi; simpl in Hi; try lia. by vm_compute.
Defined.

(** What a span of [douglas_peucker] returns starts with the span's first
    point and holds points of the span only. *)
Lemma douglas_peucker_points (pts : path) (eps : Q) :
  ∀ depth start end_ r, (start ≤ end_)%nat →
    Filters.douglas_peucker depth start end_ pts eps = Some r →
    list.head r = Some (point_at pts start) ∧
    ∀ p, p ∈ r → ∃ i, (start ≤ i ≤ end_)%nat ∧ p = point_at pts i.
Proof.
  induction depth as [|depth IH]; intros start end_ r Hle Hr; [done|].
  rewrite douglas_peucker_unfold in Hr.
  destruct (Z.of_nat end_ - Z.of_nat start <? 2).
  { simplify_eq. split; [done|].
    intros p [->| ->%list_elem_of_singleton]%elem_of_cons;
      [exists start|exists end_]; split; (done || lia). }
  destruct (sqrt_lt _ 0.001).
  { simplify_eq. split; [done|].
    intros p ->%list_elem_of_singleton. exists start. split; (done || lia). }
  destruct (farthest_index
              (λ p, Filters.line_distance_sq
                      p (point_at pts start) (point_at pts end_))
              pts start end_) as [Hnone|Hidx].
  - rewrite Hnone in Hr. destruct (sqrt_gt 0 eps).
    + destruct (Filters.douglas_peucker depth start start pts eps) as [left|] eqn:Hl;
        [|done]. simpl in Hr.
      destruct (Filters.douglas_peucker depth start end_ pts eps) as [right|] eqn:Hrt;
        [|done]. simpl in Hr. simplify_eq.
      destruct (IH start start left) as [Hhl Hel]; [lia|done|].
      destruct (IH start end_ right) as [Hhr Her]; [lia|done|].
      split; [by rewrite head_app, Hhl|].
      intros p [Hp|Hp]%elem_of_app.
      * destruct (Hel p Hp) as (i & Hi & ->). exists i. split; (done || lia).
      * by apply Her.
    + simplify_eq. split; [done|].
      intros p [->| ->%list_elem_of_singleton]%elem_of_cons;
        [exists start|exists end_]; split; (done || lia).
  - destruct (Filters.farthest _ pts start end_) as [max_sq max_idx].
    simpl in Hidx. destruct (sqrt_gt max_sq eps).
    + destruct (Filters.douglas_peucker depth start max_idx pts eps) as [left|] eqn:Hl;
        [|done]. simpl in Hr.
      destruct (Filters.douglas_peucker depth max_idx end_ pts eps) as [right|] eqn:Hrt;
        [|done]. simpl in Hr. simplify_eq.
      destruct (IH start max_idx left) as [Hhl Hel]; [lia|done|].
      destruct (IH max_idx end_ right) as [Hhr Her]; [lia|done|].
      split; [by rewrite head_app, Hhl|].
      intros p [Hp|Hp]%elem_of_app.
      * destruct (Hel p Hp) as (i & Hi & ->). exists i. split; (done || lia).
      * destruct (Her p Hp) as (i & Hi & ->). exists i. split; (done || lia).
    + simplify_eq. split; [done|].
      intros p [->| ->%list_elem_of_singleton]%elem_of_cons;
        [exists start|exists end_]; split; (done || lia).
Qed.

(** X9: whatever depth the interpreter allows, a path that
    [optimize_contour] returns for a path of at least 2 points starts with
    the input's first point and holds input points only; and it does
    return a path when [epsilon] is not negative and the interpreter
    allows a depth of [len(points)]. *)
Theorem optimize_contour_selects (limit : nat) (points : path)
    (first : point) (eps : Q) :
  (2 ≤ length points)%nat → list.head points = Some first →
  (∀ result, Filters.optimize_contour limit points eps = Some result →
     list.head result = Some first ∧
     ∀ p, p ∈ result → p ∈ points) ∧
  ((0 <= eps)%Q → (length points ≤ limit)%nat →
     is_Some (Filters.optimize_contour limit points eps)).
Proof.
  intros Hlen Hfirst. split.
  - intros result Hres. unfold Filters.optimize_contour in Hres.
    destruct (Nat.ltb_spec (length points) 3) as [Hlt|Hge].
    + destruct (Nat.ltb_spec 1 (length points)) as [_|?]; [|lia].
      by simplify_eq.
    + destruct (douglas_peucker_points points eps limit 0
                  (length points - 1) result) as [Hhead Hel]; [lia|done|].
      split; [by rewrite Hhead, (point_at_head _ _ Hfirst)|].
      intros p Hp. destruct (Hel p Hp) as (i & Hi & ->).
      apply point_at_elem_of. lia.
  - intros Heps Hlimit. by apply simplifiers_return.
Qed.

Lemma optimize_contour_selects_witness :
  (∀ result,
     Filters.optimize_contour 1000 [(0, 0); (2, 2); (4, 0); (6, 3); (8, 0)]%Q 2
       = Some result →
     list.head result = Some (0, 0)%Q ∧
     ∀ p, p ∈ result → p ∈ [(0, 0); (2, 2); (4, 0); (6, 3); (8, 0)]%Q) ∧
  is_Some (Filters.optimize_contour
             1000 [(0, 0); (2, 2); (4, 0); (6, 3); (8, 0)]%Q 2).
Proof.
  destruct (optimize_contour_selects
              1000 [(0, 0); (2, 2); (4, 0); (6, 3); (8, 0)]%Q (0, 0)%Q 2)
    as [Hsel Hreturns]; [simpl; lia|reflexivity|].
  split; [exact Hsel|].
  apply Hreturns; [by vm_compute|simpl; lia].
Defined.

(** ** Segment-distance simplification *)

Lemma recursive_simplify_unfold depth pts start end_ tol :
  Douglas.recursive_simplify (S depth) pts start end_ tol =
    if (Z.of_nat end_ - Z.of_nat start <=? 1)%Z then Some [point_at pts start]
    else
      let '(max_sq, max_idx) :=
        Filters.farthest
          (λ p, Douglas.point_to_line_dist_sq p (point_at pts start)
                                              (point_at pts end_))
          pts start end_ in
      if sqrt_gt max_sq tol then
        left ← Douglas.recursive_simplify depth pts start max_idx tol;
        right ← Douglas.recursive_simplify depth pts max_idx end_ tol;
        Some (left ++ tail right)
      else Some [point_at pts start; point_at pts end_].
Proof. reflexivity. Qed.

Lemma point_to_line_dist_sq_le p a b :
  (Douglas.point_to_line_dist_sq p a b <= sqdist p a)%Q.
Proof.
  unfold Douglas.point_to_line_dist_sq. cbv zeta.
  destruct (Qeq_bool (b.1 - a.1) 0 && Qeq_bool (b.2 - a.2) 0); [apply Qle_refl|].
  set (vx := (b.1 - a.1)%Q). set (vy := (b.2 - a.2)%Q).
  set (ux := (p.1 - a.1)%Q). set (uy := (p.2 - a.2)%Q).
  set (l := (vx * vx + vy * vy)%Q). set (d := (ux * vx + uy * vy)%Q).
  assert (0 <= l)%Q as Hl by (unfold l; nra).
  assert (∃ t : Q, Qmax 0 (Qmin 1 (d / l)) == t ∧ 0 <= t ∧ t <= 1 ∧
                   (t * l <= d ∨ t == 0))%Q as (t & Ht & Ht0 & Ht1 & Htd).
  { exists (Qmax 0 (Qmin 1 (d / l))). split; [reflexivity|].
    destruct (Qeq_dec l 0) as [Hz|Hnz].
    - assert (d / l == 0)%Q as ->.
      { unfold Qdiv. rewrite Hz. unfold Qinv. simpl. ring. }
      rewrite (Q.min_r 1 0), (Q.max_l 0 0) by lra.
      split_and!; [lra..|by right].
    - assert (0 < l)%Q as Hpos
        by (destruct (Qlt_le_dec 0 l); [done|]; exfalso; apply Hnz; lra).
      assert (d / l * l == d)%Q as Hdl by (field; done).
      destruct (Q.min_spec 1 (d / l)) as [[Hlt Hmin]|[Hge Hmin]];
        destruct (Q.max_spec 0 (Qmin 1 (d / l))) as [[Hlt' Hmax]|[Hge' Hmax]];
        rewrite Hmax; rewrite ?Hmin; rewrite Hmin in *.
      + split_and!; [lra..|]. left. nra.
      + lra.
      + split_and!; [lra..|left; lra].
      + split_and!; [lra..|by right]. }
  unfold sqdist. simpl fst. simpl snd. rewrite Ht.
  fold ux uy.
  assert ((p.1 - (a.1 + t * vx)) == ux - t * vx)%Q as -> by (unfold ux; ring).
  assert ((p.2 - (a.2 + t * vy)) == uy - t * vy)%Q as -> by (unfold uy; ring).
  assert ((ux - t * vx) * (ux - t * vx) + (uy - t * vy) * (uy - t * vy)
          == ux * ux + uy * uy - t * (2 * d - t * l))%Q as ->
    by (unfold d, l; ring).
  destruct Htd as [Htd|Htz]; [nra|rewrite Htz; lra].
Qed.

Lemma recursive_simplify_total (pts : path) (tol : Q) :
  (0 <= tol)%Q →
  ∀ depth start end_, (end_ - start < depth)%nat →
    is_Some (Douglas.recursive_simplify depth pts start end_ tol).
Proof.
  intros Htol. induction depth as [|depth IH]; intros start end_ Hdepth; [lia|].
  rewrite recursive_simplify_unfold.
  destruct (Z.of_nat end_ - Z.of_nat start <=? 1); [done|].
  destruct (farthest_index
              (λ p, Douglas.point_to_line_dist_sq
                      p (point_at pts start) (point_at pts end_))
              pts start end_) as [Hnone|Hidx].
  - rewrite Hnone. by rewrite sqrt_gt_zero_false.
  - destruct (Filters.farthest _ pts start end_) as [max_sq max_idx].
    simpl in Hidx. destruct (sqrt_gt max_sq tol); [|done].
    destruct (IH start max_idx) as [left ->]; [lia|].
    destruct (IH max_idx end_) as [right ->]; [lia|].
    done.
Qed.

Lemma recursive_simplify_points (pts : path) (tol : Q) :
  ∀ depth start end_ r, (start ≤ end_)%nat →
    Douglas.recursive_simplify depth pts start end_ tol = Some r →
    list.head r = Some (point_at pts start) ∧
    ∀ p, p ∈ r → ∃ i, (start ≤ i ≤ end_)%nat ∧ p = point_at pts i.
Proof.
  induction depth as [|depth IH]; intros start end_ r Hle Hr; [done|].
  rewrite recursive_simplify_unfold in Hr.
  destruct (Z.of_nat end_ - Z.of_nat start <=? 1).
  { simplify_eq. split; [done|].
    intros p ->%list_elem_of_singleton. exists start. split; (done || lia). }
  assert (∀ r0 : path, r0 = [point_at pts start; point_at pts end_] →
            list.head r0 = Some (point_at pts start) ∧
            ∀ p, p ∈ r0 → ∃ i, (start ≤ i ≤ end_)%nat ∧ p = point_at pts i)
    as Hchord.
  { intros r0 ->. split; [done|].
    intros p [->| ->%list_elem_of_singleton]%elem_of_cons;
      [exists start|exists end_]; split; (done || lia). }
  assert (∀ max_idx left right, (start ≤ max_idx ≤ end_)%nat →
            Douglas.recursive_simplify depth pts start max_idx tol = Some left →
            Douglas.recursive_simplify depth pts max_idx end_ tol = Some right →
            list.head (left ++ tail right) = Some (point_at pts start) ∧
            ∀ p, p ∈ left ++ tail right →
                 ∃ i, (start ≤ i ≤ end_)%nat ∧ p = point_at pts i)
    as Hsplit.
  { intros max_idx left right Hidx Hl Hrt.
    destruct (IH start max_idx left) as [Hhl Hel]; [lia|done|].
    destruct (IH max_idx end_ right) as [Hhr Her]; [lia|done|].
    split; [by rewrite head_app, Hhl|].
    intros p [Hp|Hp]%elem_of_app.
    - destruct (Hel p Hp) as (i & Hi & ->). exists i. split; (done || lia).
    - destruct (Her p) as (i & Hi & ->).
      { destruct right; [done|]. by right. }
      exists i. split; (done || lia). }
  destruct (farthest_index
              (λ p, Douglas.point_to_line_dist_sq
                      p (point_at pts start) (point_at pts end_))
              pts start end_) as [Hnone|Hidx].
  - rewrite Hnone in Hr. destruct (sqrt_gt 0 tol); [|by apply Hchord; simplify_eq].
    destruct (Douglas.recursive_simplify depth pts start start tol) as [left|] eqn:Hl;
      [|done]. simpl in Hr.
    destruct (Douglas.recursive_simplify depth pts start end_ tol) as [right|] eqn:Hrt;
      [|done]. simpl in Hr. simplify_eq.
    apply (Hsplit start); (done || lia).
  - destruct (Filters.farthest _ pts start end_) as [max_sq max_idx].
    simpl in Hidx.
    destruct (sqrt_gt max_sq tol); [|by apply Hchord; simplify_eq].
    destruct (Douglas.recursive_simplify depth pts start max_idx tol) as [left|] eqn:Hl;
      [|done]. simpl in Hr.
    destruct (Douglas.recursive_simplify depth pts max_idx end_ tol) as [right|] eqn:Hrt;
      [|done]. simpl in Hr. simplify_eq.
    apply (Hsplit max_idx); (done || lia).
Qed.

Lemma recursive_simplify_base depth (pts : path) start end_ tol r :
  (end_ ≤ start + 1)%nat →
  Douglas.recursive_simplify depth pts start end_ tol = Some r →
  r = [point_at pts start].
Proof.
  intros Hspan Hr. destruct depth as [|depth]; [done|].
  rewrite recursive_simplify_unfold in Hr.
  destruct (Z.leb_spec (Z.of_nat end_ - Z.of_nat start) 1) as [_|?]; [|lia].
  by simplify_eq.
Qed.

(** X10: whatever depth the interpreter allows, a path that
    [simplify_path_douglas] returns starts with the input's first point
    and holds input points only; it does return a path when the tolerance
    is not negative and the interpreter allows a depth of [len(points)];
    and for a path of 3 pixels or more a tolerance larger than the
    bounding diagonal leaves exactly the first and the last point. *)
Theorem simplify_path_douglas_selects (limit : nat) (points : path)
    (first final : point) (tolerance : Q) :
  list.head points = Some first → list.last points = Some final →
  (∀ result,
     Douglas.simplify_path_douglas limit points tolerance = Some result →
     list.head result = Some first ∧
     ∀ p, p ∈ result → p ∈ points) ∧
  ((0 <= tolerance)%Q → (length points ≤ limit)%nat →
     is_Some (Douglas.simplify_path_douglas limit points tolerance)) ∧
  (pixel_path points = true → (3 ≤ length points)%nat → (1 ≤ limit)%nat →
   Filters.exceeds_diagonal tolerance points →
   Douglas.simplify_path_douglas limit points tolerance
   = Some [first; final]).
Proof.
  intros Hfirst Hfinal.
  pose proof (point_at_head _ _ Hfirst) as H0.
  pose proof (point_at_last _ _ Hfinal) as Hn.
  unfold Douglas.simplify_path_douglas.
  destruct (Nat.leb_spec (length points) 2) as [Hle|Hgt].
  { split_and!; [|done|lia]. intros result [= <-]. done. }
  split_and!.
  - intros result Hres.
    destruct (recursive_simplify_points points tolerance limit 0
                (length points - 1) result) as [Hhead Hel]; [lia|done|].
    split; [by rewrite Hhead, H0|].
    intros p Hp. destruct (Hel p Hp) as (i & Hi & ->).
    apply point_at_elem_of. lia.
  - intros Htol Hlimit. apply recursive_simplify_total; [done|lia].
  - intros _ _ Hlimit [Hpos Hdiag].
    destruct limit as [|limit]; [lia|].
    destruct (length points) as [|n] eqn:Hlen; [lia|].
    rewrite recursive_simplify_unfold.
    destruct (Z.leb_spec (Z.of_nat (S n - 1) - Z.of_nat 0) 1) as [?|_]; [lia|].
    destruct (Filters.farthest _ points 0 (S n - 1)) as [max_sq max_idx] eqn:Hfar.
    rewrite (sqrt_gt_bounded max_sq (Filters.diagonal_sq points) tolerance);
      [by rewrite H0, Hn| |lra|lra].
    change max_sq with (max_sq, max_idx).1. rewrite <- Hfar.
    apply farthest_le.
    + eapply Qle_trans; [apply (sqdist_nonneg first final)|].
      apply sqdist_le_diagonal;
        [by apply head_Some_elem_of|by apply last_Some_elem_of].
    + intros i Hi. eapply Qle_trans; [apply point_to_line_dist_sq_le|].
      apply sqdist_le_diagonal; apply point_at_elem_of; lia.
Qed.

Lemma simplify_path_douglas_selects_witness :
  (∀ result,
     Douglas.simplify_path_douglas
       1000 [(0, 0); (2, 2); (4, 0); (6, 3); (8, 0)]%Q 20 = Some result →
     list.head result = Some (0, 0)%Q ∧
     ∀ p, p ∈ result → p ∈ [(0, 0); (2, 2); (4, 0); (6, 3); (8, 0)]%Q) ∧
  is_Some (Douglas.simplify_path_douglas
             1000 [(0, 0); (2, 2); (4, 0); (6, 3); (8, 0)]%Q 20) ∧
  Douglas.simplify_path_douglas
    1000 [(0, 0); (2, 2); (4, 0); (6, 3); (8, 0)]%Q 20
  = Some [(0, 0); (8, 0)]%Q.
Proof.
  destruct (simplify_path_douglas_selects
              1000 [(0, 0); (2, 2); (4, 0); (6, 3); (8, 0)]%Q
              (0, 0)%Q (8, 0)%Q 20)
    as (Hsel & Hreturns & Hdiag); [reflexivity|reflexivity|].
  split_and!.
  - exact Hsel.
  - apply Hreturns; [by vm_compute|simpl; lia].
  - apply Hdiag; [reflexivity|simpl; lia|lia|split; by vm_compute].
Defined.

(** The outcomes of [recursive_simplify] on a span with one interior
    point. *)
Lemma recursive_simplify_three (p0 p1 p2 : point) (tol : Q) :
  ∀ depth r,
    Douglas.recursive_simplify depth [p0; p1; p2] 0 2 tol = Some r →
    r = [p0; p2] ∨ r = [p0].
Proof.
  induction depth as [|depth IH]; intros r Hr; [done|].
  rewrite recursive_simplify_unfold in Hr.
  change (Z.of_nat 2 - Z.of_nat 0 <=? 1) with false in Hr. cbv iota in Hr.
  destruct (farthest_index
              (λ p, Douglas.point_to_line_dist_sq
                      p (point_at [p0; p1; p2] 0) (point_at [p0; p1; p2] 2))
              [p0; p1; p2] 0 2) as [Hnone|Hidx].
  - rewrite Hnone in Hr. destruct (sqrt_gt 0 tol); [|left; by simplify_eq].
    destruct (Douglas.recursive_simplify depth [p0; p1; p2] 0 0 tol)
      as [left|] eqn:Hl; [|done].
    destruct (Douglas.recursive_simplify depth [p0; p1; p2] 0 2 tol)
      as [right|] eqn:Hrt; [|done].
    apply recursive_simplify_base in Hl as ->; [|lia].
    simpl in Hr. simplify_eq.
    destruct (IH right eq_refl) as [-> | ->]; [by left|by right].
  - destruct (Filters.farthest _ [p0; p1; p2] 0 2) as [max_sq max_idx].
    simpl in Hidx. assert (max_idx = 1%nat) as -> by lia.
    destruct (sqrt_gt max_sq tol); [|left; by simplify_eq].
    destruct (Douglas.recursive_simplify depth [p0; p1; p2] 0 1 tol)
      as [left|] eqn:Hl; [|done].
    destruct (Douglas.recursive_simplify depth [p0; p1; p2] 1 2 tol)
      as [right|] eqn:Hrt; [|done].
    apply recursive_simplify_base in Hl as ->; [|lia].
    apply recursive_simplify_base in Hrt as ->; [|lia].
    simpl in Hr. right. by simplify_eq.
Qed.

(** X11: on a three-point path [simplify_path_douglas] returns the two
    ends or the first point alone, and nothing else: where it splits, each
    two-point span gives its start only, and the join [left + right[1:]]
    then drops the split point too.  It returns when the tolerance is not
    negative and the interpreter allows a depth of 3.  For three pixels
    with the ends on one row or one column and a whole tolerance smaller
    than the distance of the middle point from the segment between the
    ends, what it returns is the first point alone. *)
Theorem simplify_path_douglas_loses_points (limit : nat) (p0 p1 p2 : point)
    (tolerance : Q) :
  (∀ result,
     Douglas.simplify_path_douglas limit [p0; p1; p2] tolerance = Some result →
     result = [p0; p2] ∨ result = [p0]) ∧
  ((0 <= tolerance)%Q → (3 ≤ limit)%nat →
     is_Some (Douglas.simplify_path_douglas limit [p0; p1; p2] tolerance)) ∧
  (pixel_path [p0; p1; p2] = true → whole tolerance = true →
   axis_parallel p0 p2 = true → (2 ≤ limit)%nat →
   (tolerance * tolerance < Douglas.point_to_line_dist_sq p1 p0 p2)%Q →
     Douglas.simplify_path_douglas limit [p0; p1; p2] tolerance = Some [p0]).
Proof.
  split_and!.
  - intros result Hres.
    by apply (recursive_simplify_three p0 p1 p2 tolerance limit).
  - intros Htol Hlimit. unfold Douglas.simplify_path_douglas. simpl length.
    change (3 <=? 2)%nat with false. cbv iota.
    apply recursive_simplify_total; [done|simpl; lia].
  - intros _ _ _ Hlimit Hdev.
    destruct limit as [|[|limit]]; [lia..|].
    unfold Douglas.simplify_path_douglas. simpl length.
    change (3 <=? 2)%nat with false. cbv iota.
    rewrite recursive_simplify_unfold.
    change (Z.of_nat (3 - 1) - Z.of_nat 0 <=? 1) with false. cbv iota.
    change (point_at [p0; p1; p2] 0) with p0.
    change (point_at [p0; p1; p2] (3 - 1)) with p2.
    change (3 - 1)%nat with 2%nat.
    rewrite farthest_single
      by (generalize (tolerance * tolerance)%Q, Hdev; intros; nra).
    rewrite sqrt_gt_above by done.
    by rewrite !recursive_simplify_unfold.
Qed.

Lemma simplify_path_douglas_loses_points_witness :
  Douglas.simplify_path_douglas 1000 [(0, 0); (2, 2); (4, 0)]%Q 1
    = Some [(0, 0)]%Q ∧
  is_Some (Douglas.simplify_path_douglas 1000 [(0, 0); (2, 2); (4, 0)]%Q 1).
Proof.
  destruct (simplify_path_douglas_loses_points
              1000 (0, 0)%Q (2, 2)%Q (4, 0)%Q 1)
    as (_ & Hreturns & Hfirst).
  split.
  - apply Hfirst; [reflexivity|reflexivity|reflexivity|lia|by vm_compute].
  - apply Hreturns; [by vm_compute|lia].
Defined.

(** ** More on the endpoint bridger *)

(** A property of the loop state and of the items already handled that
    every iteration preserves holds of all items when the loop ends. *)
Lemma foldl_prefix_invariant {A B} (f : A → B → A) (P : list B → A → Prop)
    (l : list B) :
  (∀ pre x a, x ∈ l → P pre a → P (pre ++ [x]) (f a x)) →
  ∀ a, P [] a → P l (foldl f a l).
Proof.
  intros Hstep.
  enough (∀ suf pre a, (∀ x, x ∈ suf → x ∈ l) → P pre a →
            P (pre ++ suf) (foldl f a suf)) as Hgen
    by (intros a Ha; by apply (Hgen l [] a)).
  induction suf as [|x suf IH]; intros pre a Hsub Ha; simpl.
  - by rewrite app_nil_r.
  - rewrite (cons_middle x pre suf), (assoc_L (++)). apply IH.
    + intros y Hy. apply Hsub. by right.
    + apply Hstep; [apply Hsub; left|done].
Qed.

Section bridger_more.
Import Bridger.

Variables (endpoints : path) (max_dist : Q).

Let dist (i j : nat) : Q := sqdist (point_at endpoints i) (point_at endpoints j).

(** After the inner loop no unused later endpoint is below [min_dist]. *)
Lemma nearest_minimal used i j :
  (i < j < length endpoints)%nat → j ∉ used →
  below (dist i j) (nearest endpoints used max_dist i).1 = false.
Proof.
  intros Hj Hused. unfold nearest.
  assert (j ∈ seq (i + 1) (length endpoints - (i + 1))) as Hin
    by (apply elem_of_seq; lia).
  revert Hin.
  apply (foldl_prefix_invariant (nearest_step endpoints used i)
           (λ seen st, j ∈ seen → below (dist i j) st.1 = false)
           (seq (i + 1) (length endpoints - (i + 1))));
    [|by intros []%elem_of_nil].
  intros seen k st _ Hst Hseen. unfold nearest_step.
  assert (∀ s b, below s b = false → ∀ s', below s' b = true →
                 below s (Found s') = false) as Hmono.
  { intros s [g|s0] Hs s' Hs'; simpl in *; apply Qltb_ge.
    - unfold sqrt_lt in *. apply andb_true_iff in Hs' as [Hg%Qltb_lt Hs'%Qltb_lt].
      apply andb_false_iff in Hs as [Hs%Qltb_ge|Hs%Qltb_ge]; lra.
    - apply Qltb_ge in Hs. apply Qltb_lt in Hs'. lra. }
  case_bool_decide as Hk.
  - apply Hst. apply elem_of_app in Hseen as [?| ->%list_elem_of_singleton]; done.
  - fold (dist i k).
    destruct (below (dist i k) st.1) eqn:Hbelow; simpl.
    + apply elem_of_app in Hseen as [Hseen| ->%list_elem_of_singleton].
      * by eapply Hmono; [apply Hst|].
      * apply Qltb_ge, Qle_refl.
    + apply elem_of_app in Hseen as [Hseen| ->%list_elem_of_singleton]; [auto|done].
Qed.

(** The state of the outer loop after the indices [seen]: an index handled
    and still unused has no unused later endpoint within [max_dist], and
    every connection made is to a nearest endpoint among the later ones
    still unused. *)
Lemma pair_step_greedy seen st i :
  pair_inv endpoints max_dist st →
  ((∀ a, a ∈ seen → a ∉ st.2 →
      ∀ b, (a < b < length endpoints)%nat → b ∉ st.2 →
           sqrt_lt (dist a b) max_dist = false) ∧
   (∀ a c, (a, c) ∈ st.1 →
      ∀ b, (a < b < length endpoints)%nat → b ∉ st.2 →
           (dist a c <= dist a b)%Q)) →
  let st' := pair_step endpoints max_dist st i in
  (∀ a, a ∈ seen ++ [i] → a ∉ st'.2 →
     ∀ b, (a < b < length endpoints)%nat → b ∉ st'.2 →
          sqrt_lt (dist a b) max_dist = false) ∧
  (∀ a c, (a, c) ∈ st'.1 →
     ∀ b, (a < b < length endpoints)%nat → b ∉ st'.2 →
          (dist a c <= dist a b)%Q).
Proof.
  intros Hinv [Hmax Hnear]. unfold pair_step. cbv zeta.
  case_bool_decide as Hi.
  { split; [|done].
    intros a [Ha| ->%list_elem_of_singleton]%elem_of_app; [by apply Hmax|done]. }
  pose proof (nearest_spec endpoints max_dist st.2 i) as Hspec.
  pose proof (nearest_minimal st.2 i) as Hmin.
  unfold nearest_inv in Hspec.
  destruct (nearest endpoints st.2 max_dist i) as [min_dist [c|]]; simpl in *.
  - destruct Hspec as (-> & Hc & Hic & Hlt).
    assert (∀ k : nat, k ∉ ({[c]} ∪ ({[i]} ∪ st.2) : gset nat) →
                       (k ∉ st.2) ∧ k ≠ i) as Hout.
    { intros k Hk. rewrite !elem_of_union, !elem_of_singleton in Hk. tauto. }
    split.
    + intros a [Ha| ->%list_elem_of_singleton]%elem_of_app Hau b Hb Hbu.
      * apply Hmax; [done|by apply Hout|done|by apply Hout].
      * by destruct (Hout _ Hau).
    + intros a c' [Hac| [= -> ->]%list_elem_of_singleton]%elem_of_app b Hb Hbu.
      * apply Hnear; [done..|by apply Hout].
      * pose proof (Hmin b Hb (proj1 (Hout _ Hbu))) as Hmin'. simpl in Hmin'.
        by apply Qltb_ge in Hmin'.
  - subst min_dist. split; [|done].
    intros a [Ha| ->%list_elem_of_singleton]%elem_of_app Hau b Hb Hbu;
      [by apply Hmax|].
    by apply (Hmin b).
Qed.

Lemma find_close_pairs_greedy :
  ∃ used,
    pair_inv endpoints max_dist (find_close_pairs endpoints max_dist, used) ∧
    (∀ a, (a < length endpoints)%nat → a ∉ used →
       ∀ b, (a < b < length endpoints)%nat → b ∉ used →
            sqrt_lt (dist a b) max_dist = false) ∧
    (∀ a c, (a, c) ∈ find_close_pairs endpoints max_dist →
       ∀ b, (a < b < length endpoints)%nat → b ∉ used →
            (dist a c <= dist a b)%Q).
Proof.
  unfold find_close_pairs.
  destruct (Nat.ltb_spec (length endpoints) 2) as [Hshort|Hlong].
  { exists ∅. split_and!.
    - split_and!; simpl; [|constructor|intros i j []%elem_of_nil].
      intros k. split; [intros []%elem_of_empty|intros []%elem_of_nil].
    - intros a Ha _ b Hb _. lia.
    - intros a c []%elem_of_nil. }
  pose proof (foldl_prefix_invariant (pair_step endpoints max_dist)
    (λ seen st,
       pair_inv endpoints max_dist st ∧
       (∀ a, a ∈ seen → a ∉ st.2 →
          ∀ b, (a < b < length endpoints)%nat → b ∉ st.2 →
               sqrt_lt (dist a b) max_dist = false) ∧
       (∀ a c, (a, c) ∈ st.1 →
          ∀ b, (a < b < length endpoints)%nat → b ∉ st.2 →
               (dist a c <= dist a b)%Q))
    (seq 0 (length endpoints))) as Hfold.
  destruct (Hfold) with (a := (@nil (nat * nat), (∅ : gset nat)))
    as (Hinv & Hmax & Hnear).
  { intros seen i st _ (Hinv & Hgreedy). split.
    - by apply pair_step_inv.
    - by apply pair_step_greedy. }
  { split_and!.
    - split_and!; simpl; [|constructor|intros i j []%elem_of_nil].
      intros k. split; [intros []%elem_of_empty|intros []%elem_of_nil].
    - intros a []%elem_of_nil.
    - intros a c []%elem_of_nil. }
  destruct (foldl (pair_step endpoints max_dist) ([], ∅)
                  (seq 0 (length endpoints))) as [pairs used].
  exists used. split_and!; [done| |done].
  intros a Ha. apply Hmax, elem_of_seq. lia.
Qed.

End bridger_more.

(** X12: when [find_close_endpoints] has run on endpoints that are pixels,
    with a whole [max_dist], no two endpoints that are left unconnected are
    closer than [max_dist]: the greedy pairing stops only when nothing
    more can be paired. *)
Theorem find_close_endpoints_maximal (endpoints : path) (max_dist : Q) :
  pixel_path endpoints = true → whole max_dist = true →
  ∀ i j, (i < j < length endpoints)%nat →
    i ∉ Bridger.paired (Bridger.find_close_pairs endpoints max_dist) →
    j ∉ Bridger.paired (Bridger.find_close_pairs endpoints max_dist) →
    ¬ (0 < max_dist ∧
       sqdist (point_at endpoints i) (point_at endpoints j)
       < max_dist * max_dist)%Q.
Proof.
  intros _ _ i j Hij Hi Hj.
  destruct (find_close_pairs_greedy endpoints max_dist)
    as (used & (Hused & _ & _) & Hmax & _). simpl in Hused.
  specialize (Hmax i ltac:(lia) ltac:(by rewrite Hused) j Hij
                   ltac:(by rewrite Hused)).
  intros [Hpos Hlt]. unfold sqrt_lt in Hmax.
  apply andb_false_iff in Hmax as [H%Qltb_ge|H%Qltb_ge]; lra.
Qed.

(** X13: every connection [find_close_endpoints] makes, from an endpoint
    [i] to a later endpoint [c], goes to a nearest one: no later endpoint
    that stays unconnected is closer to [i] than [c] is. *)
Theorem find_close_endpoints_nearest (endpoints : path) (max_dist : Q) :
  ∀ i c, (i, c) ∈ Bridger.find_close_pairs endpoints max_dist →
    ∀ j, (i < j < length endpoints)%nat →
      j ∉ Bridger.paired (Bridger.find_close_pairs endpoints max_dist) →
      (sqdist (point_at endpoints i) (point_at endpoints c)
       <= sqdist (point_at endpoints i) (point_at endpoints j))%Q.
Proof.
  intros i c Hic j Hj Hju.
  destruct (find_close_pairs_greedy endpoints max_dist)
    as (used & (Hused & _ & _) & _ & Hnear). simpl in Hused.
  apply Hnear; [done..|]. by rewrite Hused.
Qed.

Lemma find_close_endpoints_maximal_witness :
  ¬ (0 < 30 ∧
     sqdist (point_at [(0, 0); (100, 0); (10, 0); (3, 0); (103, 0); (500, 500)]%Q 2)
            (point_at [(0, 0); (100, 0); (10, 0); (3, 0); (103, 0); (500, 500)]%Q 5)
     < 30 * 30)%Q.
Proof.
  apply (find_close_endpoints_maximal
           [(0, 0); (100, 0); (10, 0); (3, 0); (103, 0); (500, 500)]%Q 30
           eq_refl eq_refl 2 5).
  - simpl. lia.
  - apply (bool_decide_unpack _). by vm_compute.
  - apply (bool_decide_unpack _). by vm_compute.
Defined.

Lemma find_close_endpoints_nearest_witness :
  (sqdist (point_at [(0, 0); (100, 0); (10, 0); (3, 0); (103, 0); (500, 500)]%Q 0)
          (point_at [(0, 0); (100, 0); (10, 0); (3, 0); (103, 0); (500, 500)]%Q 3)
   <= sqdist (point_at [(0, 0); (100, 0); (10, 0); (3, 0); (103, 0); (500, 500)]%Q 0)
             (point_at [(0, 0); (100, 0); (10, 0); (3, 0); (103, 0); (500, 500)]%Q 2))%Q.
Proof.
  apply (find_close_endpoints_nearest
           [(0, 0); (100, 0); (10, 0); (3, 0); (103, 0); (500, 500)]%Q 30 0 3).
  - apply (bool_decide_unpack _). by vm_compute.
  - simpl. lia.
  - apply (bool_decide_unpack _). by vm_compute.
Defined.

(** ** More on the path merger *)

Lemma concat_Permutation {A} (l k : list (list A)) :
  l ≡ₚ k → concat l ≡ₚ concat k.
Proof.
  induction 1 as [|x l k _ IH|x y l|l1 l2 l3 _ IH1 _ IH2]; simpl.
  - done.
  - by rewrite IH.
  - rewrite !(assoc_L (++)). f_equiv. apply Permutation_app_comm.
  - by rewrite IH1.
Qed.

Lemma concat_concat {A} (groups : list (list (list A))) :
  concat (@concat A <$> groups) = concat (concat groups).
Proof.
  induction groups as [|g groups IH]; [done|].
  rewrite fmap_cons. cbn [concat]. by rewrite concat_app, IH.
Qed.

Lemma length_nonempty_groups {A} (groups : list (list A)) :
  Forall (λ g, g ≠ []) groups → (length groups ≤ length (concat groups))%nat.
Proof.
  induction 1 as [|g groups Hg _ IH]; simpl; [done|].
  rewrite length_app. destruct g; [done|]. simpl. lia.
Qed.

Lemma nonempty_concat_groups (groups : list (list path)) :
  Forall (λ g : list path, concat g ≠ []) groups →
  Forall (λ g : list path, g ≠ []) groups ∧
  Forall (λ p : path, p ≠ []) (@concat point <$> groups).
Proof.
  intros Hne. split.
  - eapply Forall_impl; [done|]. by intros [|] ?.
  - by apply Forall_fmap.
Qed.

(** X14: for a collection of non-empty paths, [merge_adjacent_paths] and
    [connect_contours] return collections of non-empty paths with no more
    paths than the input and with the same points: the points of the output
    paths are a permutation of the points of the input paths, so none is
    lost and none is added. *)
Theorem merger_conserves_points (paths : list path) (max_gap : Q) :
  Forall (λ p, p ≠ []) paths →
  (∃ merged,
     Merger.merge_adjacent_paths paths max_gap = Some merged ∧
     concat merged ≡ₚ concat paths ∧
     (length merged ≤ length paths)%nat ∧
     Forall (λ p, p ≠ []) merged) ∧
  (∃ connected,
     Merger.connect_contours paths max_gap = Some connected ∧
     concat connected ≡ₚ concat paths ∧
     (length connected ≤ length paths)%nat ∧
     Forall (λ p, p ≠ []) connected).
Proof.
  intros Hne.
  destruct (singleton_groups paths) as [Hmap Hcat].
  pose proof (singleton_groups_nonempty paths Hne) as Hgne.
  assert (∀ groups' : list (list path),
            Forall (λ g : list path, concat g ≠ []) groups' →
            concat groups' ≡ₚ paths →
            concat (@concat point <$> groups') ≡ₚ concat paths ∧
            (length (@concat point <$> groups') ≤ length paths)%nat ∧
            Forall (λ p : path, p ≠ []) (@concat point <$> groups')) as Hgroups.
  { intros groups' Hne' Hperm.
    destruct (nonempty_concat_groups groups' Hne') as [Hg Hp].
    split_and!; [|..|done].
    - rewrite concat_concat. by apply concat_Permutation.
    - rewrite length_fmap, <- Hperm. by apply length_nonempty_groups. }
  split.
  - unfold Merger.merge_adjacent_paths. destruct (length paths <=? 1)%nat.
    + by exists paths.
    + destruct (merge_pass_groups max_gap _ Hgne)
        as (groups' & changed & Hpass & Hne' & Hperm).
      rewrite Hmap in Hpass. rewrite Hcat in Hperm. rewrite Hpass. simpl.
      exists (@concat point <$> groups'). split; [done|]. by apply Hgroups.
  - unfold Merger.connect_contours. destruct (length paths <? 2)%nat.
    + by exists paths.
    + assert (∀ budget (groups : list (list path)),
                Forall (λ g : list path, concat g ≠ []) groups →
                ∃ groups',
                  Merger.connect_loop budget max_gap (@concat point <$> groups)
                    = Some (@concat point <$> groups') ∧
                  Forall (λ g : list path, concat g ≠ []) groups' ∧
                  concat groups' ≡ₚ concat groups) as Hloop.
      { induction budget as [|budget IH]; intros groups Hg; simpl.
        - by exists groups.
        - destruct (merge_pass_groups max_gap groups Hg)
            as (groups1 & changed & -> & Hne1 & Hperm1). simpl.
          destruct changed; [|by exists groups1].
          destruct (IH groups1 Hne1) as (groups2 & -> & Hne2 & Hperm2).
          exists groups2. split_and!; [done..|]. by rewrite Hperm2. }
      destruct (Hloop (length paths) _ Hgne) as (groups' & Hres & Hne' & Hperm).
      rewrite Hmap in Hres. rewrite Hcat in Hperm. rewrite Hres.
      exists (@concat point <$> groups'). split; [done|]. by apply Hgroups.
Qed.

Lemma merger_conserves_points_witness :
  (∃ merged,
     Merger.merge_adjacent_paths
       [[(0, 0); (5, 0)]; [(100, 0); (105, 0)]; [(6, 0); (9, 0)]]%Q 3 = Some merged ∧
     concat merged ≡ₚ concat [[(0, 0); (5, 0)]; [(100, 0); (105, 0)]; [(6, 0); (9, 0)]]%Q ∧
     (length merged ≤ 3)%nat ∧
     Forall (λ p, p ≠ []) merged) ∧
  (∃ connected,
     Merger.connect_contours
       [[(0, 0); (5, 0)]; [(100, 0); (105, 0)]; [(6, 0); (9, 0)]]%Q 3 = Some connected ∧
     concat connected ≡ₚ concat [[(0, 0); (5, 0)]; [(100, 0); (105, 0)]; [(6, 0); (9, 0)]]%Q ∧
     (length connected ≤ 3)%nat ∧
     Forall (λ p, p ≠ []) connected).
Proof.
  apply (merger_conserves_points
           [[(0, 0); (5, 0)]; [(100, 0); (105, 0)]; [(6, 0); (9, 0)]]%Q 3).
  repeat constructor; discriminate.
Defined.

(** X15: two non-empty paths of pixels [a] and [b] whose tail-to-head or
    head-to-tail distance is below a whole gap are merged by
    [merge_adjacent_paths] into one path: [a] followed by [b] when the
    distance from the tail of [a] to the head of [b] is strictly the
    smaller of the two, and [b] followed by [a] otherwise, also when the
    two distances are equal. *)
Theorem merge_two_paths (max_gap : Q) (a b : path) (ah at_ bh bt : point) :
  pixel_path a = true → pixel_path b = true → whole max_gap = true →
  list.head a = Some ah → list.last a = Some at_ →
  list.head b = Some bh → list.last b = Some bt →
  sqrt_lt (sqdist at_ bh) max_gap || sqrt_lt (sqdist ah bt) max_gap = true →
  Merger.merge_adjacent_paths [a; b] max_gap
  = Some [if Qltb (sqdist at_ bh) (sqdist ah bt) then a ++ b else b ++ a].
Proof.
  intros _ _ _ Hah Hat Hbh Hbt Hnear.
  unfold Merger.merge_adjacent_paths, Merger.merge_pass. simpl.
  rewrite Hat, Hah. simpl. rewrite Hbh, Hbt. simpl.
  rewrite Hnear. done.
Qed.

Lemma merge_two_paths_witness :
  Merger.merge_adjacent_paths [[(6, 0); (9, 0)]; [(0, 0); (5, 0)]]%Q 3
  = Some [[(0, 0); (5, 0); (6, 0); (9, 0)]]%Q.
Proof.
  apply (merge_two_paths 3 [(6, 0); (9, 0)]%Q [(0, 0); (5, 0)]%Q
           (6, 0)%Q (9, 0)%Q (0, 0)%Q (5, 0)%Q); by vm_compute.
Defined.

(** ** Stability of the connected collection *)

Lemma count_used_le used : (Connector.count_used used ≤ length used)%nat.
Proof. induction used as [|[] used IH]; simpl; lia. Qed.

Lemma count_used_insert used j :
  used !! j = Some false →
  Connector.count_used (<[j := true]> used) = S (Connector.count_used used).
Proof.
  revert j. induction used as [|b used IH]; intros [|j] Hj; simpl in *;
    try done.
  - by injection Hj as ->.
  - by rewrite (IH j Hj), Nat.add_succ_r.
Qed.

Lemma count_used_prefix a b :
  Connector.count_used (replicate a true ++ replicate b false) = a.
Proof.
  induction a as [|a IH]; simpl.
  - induction b as [|b IH]; simpl; done.
  - by rewrite IH.
Qed.

Section connector.
Import Merger Connector.

Variables (max_gap : Q) (connected : list path).
Hypothesis connected_nonempty : Forall (λ p, p ≠ []) connected.

Lemma join_step_progress i start changed0 j st :
  (i < j < length connected)%nat →
  join_progress max_gap connected i start changed0 j st →
  join_progress max_gap connected i start changed0 (S j)
                (join_step max_gap connected st j).
Proof.
  intros Hj (current & used & changed & -> & Hne & Hlen & Hcnt & Hmono
             & Hfalse & Htrue).
  unfold join_step. simpl.
  destruct (used !! j) as [b|] eqn:Hu; [|apply lookup_ge_None in Hu; lia].
  destruct b; simpl.
  { exists current, used, changed. split_and!; try done.
    intros ->. destruct (Hfalse eq_refl) as (Hc0 & Hcur & -> & Hfar).
    split_and!; try done. intros j' other Hj' Hs Ho.
    destruct (decide (j' = j)) as [->|Hne']; [congruence|].
    apply (Hfar j' other); [lia|done..]. }
  destruct (connected !! j) as [other|] eqn:Ho;
    [|apply lookup_ge_None in Ho; lia].
  simpl.
  assert (other ≠ []) as Hone.
  { eapply Forall_lookup_1 in connected_nonempty; eauto. }
  destruct (list.last current) as [ct|] eqn:Hct; [|by apply last_None in Hct].
  destruct (list.head other) as [oh|] eqn:Hoh; [|by destruct other].
  destruct (list.head current) as [ch|] eqn:Hch; [|by destruct current].
  destruct (list.last other) as [ot|] eqn:Hot; [|by apply last_None in Hot].
  simpl.
  destruct (sqrt_lt (sqdist ct oh) max_gap || sqrt_lt (sqdist ch ot) max_gap)
    eqn:Hnear.
  - exists (if Qltb (sqdist ct oh) (sqdist ch ot) then current ++ other
            else other ++ current), (<[j := true]> used), true.
    split_and!; try done.
    + destruct (Qltb _ _); [by destruct current|by destruct other].
    + by rewrite length_insert.
    + rewrite count_used_insert by done. lia.
    + intros k Hk. destruct (decide (j = k)) as [->|Hjk].
      * apply list_lookup_insert_eq. lia.
      * rewrite list_lookup_insert_ne by done. by apply Hmono.
    + intros _. right. rewrite count_used_insert by done. lia.
  - exists current, used, changed. split_and!; try done.
    intros ->. destruct (Hfalse eq_refl) as (Hc0 & Hcur & -> & Hfar).
    split_and!; try done. intros j' other' Hj' Hs Ho'.
    destruct (decide (j' = j)) as [->|Hne'].
    + rewrite Ho in Ho'. injection Ho' as <-.
      unfold joinable. by rewrite Hct, Hoh, Hch, Hot.
    + apply (Hfar j' other'); [lia|done..].
Qed.

Lemma join_fold_progress i start changed0 st m :
  (i + 1 + m ≤ length connected)%nat →
  join_progress max_gap connected i start changed0 (i + 1) st →
  join_progress max_gap connected i start changed0 (i + 1 + m)
                (foldl (join_step max_gap connected) st (seq (i + 1) m)).
Proof.
  intros Hm Hst. induction m as [|m IH].
  - by rewrite Nat.add_0_r.
  - rewrite seq_S, foldl_app. simpl.
    replace (i + 1 + S m)%nat with (S (i + 1 + m)) by lia.
    apply join_step_progress; [lia|]. apply IH. lia.
Qed.

Lemma merge_step_progress i st :
  (i < length connected)%nat →
  merge_progress max_gap connected i st →
  merge_progress max_gap connected (S i) (merge_step max_gap connected st i).
Proof.
  intros Hi (result & used & changed & -> & Hres & Hlen & Hseen & Hsome
             & Hfalse & Htrue).
  unfold merge_step. simpl.
  destruct (used !! i) as [b|] eqn:Hu; [|apply lookup_ge_None in Hu; lia].
  destruct b; simpl.
  { exists result, used, changed. split_and!; try done.
    - intros k Hk. destruct (decide (k = i)) as [->|]; [done|].
      apply Hseen. lia.
    - intros ->. destruct (Hfalse eq_refl) as (_ & Hused & _).
      rewrite Hused, lookup_prefix_flags in Hu by lia. done. }
  destruct (connected !! i) as [current|] eqn:Hcur;
    [|apply lookup_ge_None in Hcur; lia].
  simpl.
  assert (current ≠ []) as Hcne.
  { eapply Forall_lookup_1 in connected_nonempty; eauto. }
  destruct (join_fold_progress i (<[i := true]> used) changed
              (Some (current, <[i := true]> used, changed))
              (length connected - (i + 1)))
    as (current' & used' & changed' & Hfold & Hne' & Hlen' & Hcnt' & Hmono'
        & Hfalse' & Htrue').
  { lia. }
  { exists current, (<[i := true]> used), changed. split_and!; try done.
    - by rewrite length_insert.
    - intros ->. split_and!; try done. intros j' other Hj'. lia.
    - intros ->. by left. }
  rewrite Hfold. simpl.
  assert (length result ≤ count_used used)%nat as Hle.
  { destruct changed.
    - specialize (Htrue eq_refl). lia.
    - destruct (Hfalse eq_refl) as (-> & -> & _).
      rewrite count_used_prefix, length_take. lia. }
  exists (result ++ [current']), used', changed'. split_and!; try done.
  - apply Forall_app. split; [done|]. by apply Forall_singleton.
  - intros k Hk. apply Hmono'. destruct (decide (i = k)) as [->|Hik].
    + apply list_lookup_insert_eq. lia.
    + rewrite list_lookup_insert_ne by done. apply Hseen. lia.
  - intros k _. by destruct result.
  - intros ->. destruct (Hfalse' eq_refl) as (-> & Hcur' & -> & Hfar).
    destruct (Hfalse eq_refl) as (-> & -> & Hold).
    rewrite Hcur in Hcur'. injection Hcur' as <-.
    split_and!.
    + by rewrite (take_S_r _ _ _ Hcur).
    + by apply insert_prefix_flags.
    + intros a b pa pb Ha Hab Hpa Hpb.
      destruct (decide (a = i)) as [->|Hai].
      * rewrite Hcur in Hpa. injection Hpa as <-.
        apply lookup_lt_Some in Hpb as Hb.
        apply (Hfar b pb); [lia| |done].
        rewrite insert_prefix_flags by done. apply lookup_prefix_flags. lia.
      * apply (Hold a b pa pb); [lia|done..].
  - intros ->. rewrite length_app. simpl.
    rewrite count_used_insert in Hcnt' by done.
    destruct (Htrue' eq_refl) as [->|Hlt].
    + specialize (Htrue eq_refl). lia.
    + rewrite count_used_insert in Hlt by done. lia.
Qed.

(** One round either joins nothing, returns its input and finds every
    path apart from the later ones, or returns fewer paths. *)
Lemma merge_pass_progress :
  ∃ result changed,
    merge_pass max_gap connected = Some (result, changed) ∧
    Forall (λ p, p ≠ []) result ∧
    (connected ≠ [] → result ≠ []) ∧
    (changed = false → result = connected ∧ separated max_gap connected) ∧
    (changed = true → (length result < length connected)%nat).
Proof.
  assert (∀ i, (i ≤ length connected)%nat →
            merge_progress max_gap connected i
              (foldl (merge_step max_gap connected)
                 (Some ([], replicate (length connected) false, false))
                 (seq 0 i))) as Hfold.
  { induction i as [|i IH]; intros Hi.
    - exists [], (replicate (length connected) false), false.
      split_and!; try done.
      + by rewrite length_replicate.
      + lia.
      + intros k [[=] _]%lookup_replicate.
      + intros _. rewrite take_0, Nat.sub_0_r. split_and!; try done. lia.
    - rewrite seq_S, foldl_app. simpl.
      apply merge_step_progress; [lia|]. apply IH. lia. }
  destruct (Hfold (length connected))
    as (result & used & changed & Hres & Hne & Hlen & Hseen & Hsome
        & Hfalse & Htrue); [done|].
  exists result, changed. unfold merge_pass. rewrite Hres. simpl.
  split_and!; try done.
  - intros Hc. apply (Hsome 0%nat), Hseen. destruct connected; simpl; [done|lia].
  - intros Hch. destruct (Hfalse Hch) as (-> & _ & Hfar).
    split; [by rewrite firstn_all|].
    intros a b pa pb Hab Hpa Hpb. apply (Hfar a b pa pb); try done.
    by apply lookup_lt_Some in Hpa.
  - intros Hch. specialize (Htrue Hch).
    pose proof (count_used_le used). lia.
Qed.

End connector.

Lemma connect_loop_stable max_gap : ∀ budget (connected : list path),
  Forall (λ p, p ≠ []) connected → connected ≠ [] →
  (length connected ≤ budget + 1)%nat →
  ∃ result,
    Merger.connect_loop budget max_gap connected = Some result ∧
    Forall (λ p, p ≠ []) result ∧
    Merger.merge_pass max_gap result = Some (result, false) ∧
    Connector.separated max_gap result.
Proof.
  induction budget as [|budget IH]; intros connected Hne Hc Hlen; simpl.
  - exists connected. split_and!; try done;
      destruct (merge_pass_progress max_gap connected Hne)
        as (result & changed & Hpass & Hres & Hnil & Hfalse & Htrue);
      (destruct changed;
        [specialize (Htrue eq_refl); specialize (Hnil Hc);
         destruct result; simpl in *; [done|lia]|]);
      destruct (Hfalse eq_refl) as [-> Hsep]; done.
  - destruct (merge_pass_progress max_gap connected Hne)
      as (result & changed & Hpass & Hres & Hnil & Hfalse & Htrue).
    rewrite Hpass. simpl. destruct changed.
    + specialize (Htrue eq_refl). apply IH; [done|by apply Hnil|lia].
    + destruct (Hfalse eq_refl) as [-> Hsep]. by exists connected.
Qed.

Lemma sqrt_lt_false s t :
  sqrt_lt s t = false → ¬ (0 < t ∧ s < t * t)%Q.
Proof.
  unfold sqrt_lt. intros Hf [Ht Hs].
  apply Qltb_lt in Ht, Hs. by rewrite Ht, Hs in Hf.
Qed.

(** X16: for non-empty paths of pixels and a whole gap,
    [connect_contours] returns a collection on which another run changes
    nothing, and in which no two different paths can still be joined: the
    tail of one is never closer than the gap to the head of another.  The
    bound of [len(contours)] rounds is never what stops the loop short of
    this. *)
Theorem connect_contours_stable (contours : list path) (max_gap : Q) :
  forallb pixel_path contours = true → whole max_gap = true →
  Forall (λ p, p ≠ []) contours →
  ∃ connected,
    Merger.connect_contours contours max_gap = Some connected ∧
    Merger.connect_contours connected max_gap = Some connected ∧
    ∀ a b pa pb t h, a ≠ b →
      connected !! a = Some pa → connected !! b = Some pb →
      list.last pa = Some t → list.head pb = Some h →
      ¬ (0 < max_gap ∧ sqdist t h < max_gap * max_gap)%Q.
Proof.
  intros _ _ Hne.
  assert (∀ connected : list path,
            Forall (λ p, p ≠ []) connected →
            Connector.separated max_gap connected →
            ∀ a b pa pb t h, a ≠ b →
              connected !! a = Some pa → connected !! b = Some pb →
              list.last pa = Some t → list.head pb = Some h →
              ¬ (0 < max_gap ∧ sqdist t h < max_gap * max_gap)%Q) as Hapart.
  { intros connected Hcne Hsep a b pa pb t h Hab Hpa Hpb Ht Hh.
    assert (pa ≠ [] ∧ pb ≠ []) as [Hpane Hpbne].
    { split.
      - by apply (Forall_lookup_1 _ _ _ _ Hcne Hpa).
      - by apply (Forall_lookup_1 _ _ _ _ Hcne Hpb). }
    destruct (list.head pa) as [h'|] eqn:Hh'; [|by destruct pa].
    destruct (list.last pb) as [t'|] eqn:Ht'; [|by apply last_None in Ht'].
    destruct (decide (a < b)%nat) as [Hlt|Hge].
    - pose proof (Hsep a b pa pb Hlt Hpa Hpb) as Hj.
      unfold Connector.joinable in Hj. rewrite Ht, Hh, Hh', Ht' in Hj.
      apply orb_false_iff in Hj as [Hj _]. by apply sqrt_lt_false.
    - pose proof (Hsep b a pb pa ltac:(lia) Hpb Hpa) as Hj.
      unfold Connector.joinable in Hj. rewrite Ht, Hh, Hh', Ht' in Hj.
      apply orb_false_iff in Hj as [_ Hj]. apply sqrt_lt_false in Hj.
      by rewrite (sqdist_sym t h). }
  unfold Merger.connect_contours at 1.
  destruct (length contours <? 2)%nat eqn:Hshort.
  - exists contours. split_and!; [done|by unfold Merger.connect_contours; rewrite Hshort|].
    intros a b pa pb t h Hab Hpa%lookup_lt_Some Hpb%lookup_lt_Some.
    apply Nat.ltb_lt in Hshort. lia.
  - apply Nat.ltb_ge in Hshort.
    destruct (connect_loop_stable max_gap (length contours) contours)
      as (connected & Hloop & Hcne & Hpass & Hsep); [done| |lia|].
    { destruct contours; simpl in *; [lia|done]. }
    exists connected. split_and!; [done| |by apply Hapart].
    unfold Merger.connect_contours. destruct (length connected <? 2)%nat; [done|].
    destruct (length connected) as [|k]; simpl; [done|].
    by rewrite Hpass.
Qed.

Lemma connect_contours_stable_witness :
  ∃ connected,
    Merger.connect_contours
      [[(0, 0); (5, 0)]; [(100, 0); (105, 0)]; [(6, 0); (9, 0)]; [(10, 0); (99, 0)]]%Q 3
      = Some connected ∧
    Merger.connect_contours connected 3 = Some connected ∧
    ∀ a b pa pb t h, a ≠ b →
      connected !! a = Some pa → connected !! b = Some pb →
      list.last pa = Some t → list.head pb = Some h →
      ¬ (0 < 3 ∧ sqdist t h < 3 * 3)%Q.
Proof.
  apply (connect_contours_stable
           [[(0, 0); (5, 0)]; [(100, 0); (105, 0)]; [(6, 0); (9, 0)]; [(10, 0); (99, 0)]]%Q 3
           eq_refl eq_refl).
  repeat constructor; discriminate.
Defined.

(** ** The paths of the tracer are whole components *)

Lemma nonnegative_get2 (a : image) y x :
  Components.nonnegative a = true → 0 <= get2 a y x.
Proof.
  intros Hnn. unfold get2.
  destruct (a !! Z.to_nat y) as [row|] eqn:Hrow; simpl; [|done].
  destruct (row !! Z.to_nat x) as [c|] eqn:Hc; simpl; [|done].
  unfold Components.nonnegative in Hnn.
  rewrite forallb_forall in Hnn.
  apply list_elem_of_lookup_2, list_elem_of_In, Hnn in Hrow.
  rewrite forallb_forall in Hrow.
  apply list_elem_of_lookup_2, list_elem_of_In, Hrow in Hc. lia.
Qed.

Lemma adjacent8_sym p q : Tracer.adjacent8 p q → Tracer.adjacent8 q p.
Proof. unfold Tracer.adjacent8. lia. Qed.

Lemma adjacent8_offset (cx cy : Z) (q : Z * Z) :
  Tracer.adjacent8 (cx, cy) q →
  ∃ d, d ∈ Tracer.offsets ∧ d ≠ (0, 0) ∧ q = (cx + d.1, cy + d.2).
Proof.
  destruct q as [qx qy]. unfold Tracer.adjacent8. simpl. intros Hadj.
  exists (qx - cx, qy - cy). split_and!.
  - assert (qx - cx = -1 ∨ qx - cx = 0 ∨ qx - cx = 1) as Hx by lia.
    assert (qy - cy = -1 ∨ qy - cy = 0 ∨ qy - cy = 1) as Hy by lia.
    unfold Tracer.offsets. simpl.
    destruct Hx as [->|[->| ->]], Hy as [->|[->| ->]];
      repeat first [by left|right].
  - intros [= Hx Hy]. lia.
  - simpl. f_equal; lia.
Qed.

Lemma zeros_unmarked h w p : ¬ Tracer.marked (zeros h w) p.
Proof.
  destruct p as [px py]. intros (Hx & Hy & Hm). apply Hm. simpl in *.
  unfold get2, zeros.
  destruct (replicate h (replicate w 0) !! Z.to_nat py) as [row|] eqn:Hrow;
    [|done].
  apply lookup_replicate in Hrow as [-> _]. simpl.
  destruct (replicate w 0 !! Z.to_nat px) as [c|] eqn:Hc; [|done].
  by apply lookup_replicate in Hc as [-> _].
Qed.

Section components.
Import Tracer Components.

Variable skeleton : image.
Hypothesis skeleton_nonnegative : nonnegative skeleton = true.

Let H := img_height skeleton.
Let W := img_width skeleton.

Lemma foreground_positive p : foreground skeleton p → positive skeleton p.
Proof.
  intros [Hin Hfg]. split; [done|].
  pose proof (nonnegative_get2 skeleton p.2 p.1 skeleton_nonnegative). lia.
Qed.

(** The neighbour test claims the neighbour it looks at, if it is positive
    and was not claimed before. *)
Lemma visit_marks cx cy st d :
  shaped H W st.2 → d ≠ (0, 0) →
  positive skeleton (cx + d.1, cy + d.2) →
  marked (visit skeleton (Z.of_nat W) (Z.of_nat H) cx cy st d).2
         (cx + d.1, cy + d.2).
Proof.
  intros Hs Hd [[Hx Hy] Hpos]. destruct st as [stack v], d as [dx dy].
  simpl in *. fold W H in Hx, Hy. unfold visit.
  destruct ((dx =? 0) && (dy =? 0)) eqn:Hzero.
  { apply andb_prop in Hzero as [->%Z.eqb_eq ->%Z.eqb_eq]. done. }
  cbv zeta.
  destruct ((0 <=? cx + dx) && (cx + dx <? Z.of_nat W)
            && (0 <=? cy + dy) && (cy + dy <? Z.of_nat H)) eqn:Hin.
  2: { repeat (apply andb_false_iff in Hin as [Hin|Hin]); lia. }
  destruct (get2 skeleton (cy + dy) (cx + dx) >? 0) eqn:Hfg; [|lia].
  destruct (get2 v (cy + dy) (cx + dx) =? 0) eqn:Hun; simpl.
  - apply (marked_set2 skeleton); [done|lia|lia|by right].
  - split_and!; simpl; lia.
Qed.

Lemma foldl_visit_marked cx cy q ds : ∀ st,
  shaped H W st.2 → (∀ d, d ∈ ds → d ∈ offsets) → marked st.2 q →
  marked (foldl (visit skeleton (Z.of_nat W) (Z.of_nat H) cx cy) st ds).2 q.
Proof.
  intros st Hs Hds Hm.
  destruct (foldl_visit_pushed skeleton cx cy ds st Hs Hds)
    as [new (_ & _ & _ & _ & Hm')].
  apply Hm'. by left.
Qed.

Lemma foldl_visit_marks cx cy d ds : ∀ st,
  shaped H W st.2 → (∀ d', d' ∈ ds → d' ∈ offsets) →
  d ∈ ds → d ≠ (0, 0) → positive skeleton (cx + d.1, cy + d.2) →
  marked (foldl (visit skeleton (Z.of_nat W) (Z.of_nat H) cx cy) st ds).2
         (cx + d.1, cy + d.2).
Proof.
  induction ds as [|d0 ds IH]; intros st Hs Hds Hd Hnz Hpos.
  - by apply elem_of_nil in Hd.
  - simpl.
    destruct (visit_pushed skeleton cx cy st d0 Hs) as [new (_ & Hs' & _)];
      [apply Hds; left|].
    assert (∀ d', d' ∈ ds → d' ∈ offsets) as Hds'
      by (intros d' Hd'; apply Hds; by right).
    apply elem_of_cons in Hd as [->|Hd].
    + apply foldl_visit_marked; [done..|]. by apply visit_marks.
    + by apply IH.
Qed.

Lemma flood_closed v0 fuel : ∀ stack points v,
  flood_inv skeleton v0 stack points v →
  neighbours_marked skeleton v points →
  (H * W ≤ fuel + length points)%nat →
  ∃ pts v',
    flood fuel skeleton (Z.of_nat W) (Z.of_nat H) stack points v
      = Some (pts, v') ∧
    flood_inv skeleton v0 [] pts v' ∧
    (∀ p, p ∈ points ++ stack → p ∈ pts) ∧
    neighbours_marked skeleton v' pts.
Proof.
  induction fuel as [|fuel IH]; intros stack points v Hinv Hnb Hfuel.
  - destruct (flood_spec skeleton v0 0 stack points v Hinv Hfuel)
      as (pts & v' & Hfl & Hres & Hsub).
    exists pts, v'. split_and!; try done.
    destruct stack as [|[cx cy] rest]; simpl in Hfl; [|done].
    by injection Hfl as <- <-.
  - destruct stack as [|[cx cy] rest].
    + exists points, v. split_and!; try done.
      intros p. by rewrite app_nil_r.
    + rewrite flood_unfold.
      destruct (foldl (visit skeleton (Z.of_nat W) (Z.of_nat H) cx cy)
                      (rest, v) offsets) as [stack' v'] eqn:Hfold.
      destruct (flood_inv_step skeleton _ _ _ _ _ _ _ _ Hinv Hfold)
        as [Hinv' Hkeep].
      assert (shaped H W v) as Hs by apply Hinv.
      destruct (IH stack' (points ++ [(cx, cy)]) v' Hinv')
        as (pts & v'' & Hfl & Hres & Hsub & Hnb').
      { intros p q [Hp| ->%list_elem_of_singleton]%elem_of_app Hadj Hpos.
        - pose proof (foldl_visit_marked cx cy q offsets (rest, v) Hs
                        (λ d Hd, Hd) (Hnb p q Hp Hadj Hpos)) as Hm.
          by rewrite Hfold in Hm.
        - destruct (adjacent8_offset cx cy q Hadj) as (d & Hd & Hnz & ->).
          pose proof (foldl_visit_marks cx cy d offsets (rest, v) Hs
                        (λ d Hd, Hd) Hd Hnz Hpos) as Hm.
          by rewrite Hfold in Hm. }
      { rewrite length_app. simpl. lia. }
      exists pts, v''. split_and!; try done.
      intros p Hp. by apply Hsub, Hkeep.
Qed.

Lemma scan_closed_step keep pre st p :
  in_bounds skeleton p → scan_inv skeleton keep pre st →
  scan_closed skeleton keep st →
  scan_closed skeleton keep (scan_step keep skeleton st p).
Proof.
  intros Hin (visited & contours & -> & Hs & Hnd & Hcm & Hmf & Hpre & Hpaths
              & Hall)
    (visited0 & contours0 & [= <- <-] & Hcl & Hpcl & Hcov).
  destruct p as [x y]. destruct Hin as [Hx Hy]. simpl in Hx, Hy.
  unfold scan_step. simpl.
  destruct ((get2 skeleton y x =? 0) || negb (get2 visited y x =? 0)) eqn:Hskip.
  { by exists visited, contours. }
  apply orb_false_elim in Hskip as [Hfg Hvis].
  apply negb_false_iff in Hvis.
  assert (foreground skeleton (x, y)) as Hseed by (split; [split|]; simpl; lia).
  assert (¬ marked visited (x, y)) as Hnew
    by (intros (_ & _ & Hm); simpl in Hm; lia).
  destruct (flood_closed visited (H * W) [(x, y)] [] (set2 visited y x 255))
    as (pts & v' & Hfl & (Hs' & Hnd' & Hfg' & Hm' & Hto' & _) & Hsub & Hnb).
  { split_and!.
    - by apply shaped_set2.
    - apply NoDup_singleton.
    - intros q ->%list_elem_of_singleton. done.
    - intros q. simpl. rewrite list_elem_of_singleton.
      by apply (marked_set2 skeleton).
    - apply tree_order_nil.
    - left. split; [done|simpl; lia]. }
  { intros q r Hq. by apply elem_of_nil in Hq. }
  { simpl. lia. }
  fold H W. rewrite Hfl. simpl.
  rewrite app_nil_r in Hnd', Hfg', Hm'.
  assert (∀ q r, marked v' q → adjacent8 q r → foreground skeleton r →
            marked v' r) as Hcl'.
  { intros q r [Hq|Hq]%Hm' Hadj Hr.
    - apply Hm'. left. by apply (Hcl q r).
    - apply (Hnb q r Hq Hadj). by apply foreground_positive. }
  assert (closed skeleton pts) as Hpts.
  { intros q r Hq Hadj Hr.
    assert (marked v' r) as [Hold|Hr']%Hm'; [|exfalso|done].
    { apply (Hnb q r Hq Hadj). by apply foreground_positive. }
    destruct (Hfg' q Hq) as [Hqf Hqn]. apply Hqn.
    apply (Hcl r q); [done|by apply adjacent8_sym|done]. }
  destruct (keep (length pts)) eqn:Hkeep.
  - exists v', (contours ++ [pts]). split_and!; try done.
    + intros path [Hp| ->%list_elem_of_singleton]%elem_of_app;
        [by apply Hpcl|done].
    + intros q [Hq|Hq]%Hm'; rewrite concat_app, elem_of_app; simpl;
        rewrite app_nil_r.
      * destruct (Hcov q Hq) as [Hin|Hrej]; [left; by left|by right].
      * left. by right.
  - exists v', contours. split_and!; try done.
    intros q [Hq|Hq]%Hm'; [by apply Hcov|].
    right. by exists pts.
Qed.

Lemma foldl_scan_closed keep (l pre : list pixel) st :
  (∀ p, p ∈ l → in_bounds skeleton p) → scan_inv skeleton keep pre st →
  scan_closed skeleton keep st →
  scan_closed skeleton keep (foldl (scan_step keep skeleton) st l).
Proof.
  revert pre st. induction l as [|p l IH]; intros pre st Hl Hinv Hcl; simpl.
  - done.
  - apply (IH (pre ++ [p])).
    + intros q Hq. apply Hl. by right.
    + apply scan_inv_step; [apply Hl; left|done].
    + eapply scan_closed_step; [apply Hl; left|done..].
Qed.

(** Whatever the length filter, each returned path is closed under
    foreground adjacency, and a foreground pixel outside the paths is in a
    closed component that the filter turned down. *)
Lemma trace_closed keep :
  ∃ contours, trace keep skeleton = Some contours ∧
    (∀ path, path ∈ contours → closed skeleton path) ∧
    (∀ p, foreground skeleton p →
       p ∈ concat contours ∨
       ∃ comp, p ∈ comp ∧ closed skeleton comp ∧ tree_order comp ∧
               keep (length comp) = false).
Proof.
  assert (∀ p, p ∈ scan_order H W → in_bounds skeleton p) as Hscan
    by (intros p Hp; by apply elem_of_scan_order).
  destruct (foldl_scan_inv skeleton keep (scan_order H W) []
              (Some (zeros H W, [])) Hscan (scan_inv_init skeleton keep))
    as (visited & contours & Hst & Hs & Hnd & Hcm & Hmf & Hpre & Hpaths & Hall).
  destruct (foldl_scan_closed keep (scan_order H W) []
              (Some (zeros H W, [])) Hscan (scan_inv_init skeleton keep))
    as (visited0 & contours0 & Hst0 & Hcl & Hpcl & Hcov).
  { exists (zeros H W), []. split_and!; try done.
    - intros p q Hp. by apply zeros_unmarked in Hp.
    - intros path Hp. by apply elem_of_nil in Hp.
    - intros p Hp. by apply zeros_unmarked in Hp. }
  rewrite Hst in Hst0. injection Hst0 as <- <-.
  exists contours. unfold trace. fold H W. rewrite Hst. simpl.
  split_and!; try done.
  intros p Hp. apply Hcov, Hpre; [|done].
  simpl. apply elem_of_scan_order, Hp.
Qed.

End components.

(** X17: on a mask without negative cells, each path returned by
    [trace_all_contours] (and by [skeleton_to_contours], the same code) and
    by [remove_noise_from_skeleton] is a whole 8-connected component: every
    foreground 8-neighbour of a pixel of the path is in the same path.  A
    foreground pixel that is in no returned path lies in such a component
    that the length filter turned down: at most 5 pixels for the former,
    fewer than [min_length] for the latter. *)
Theorem tracer_whole_components (skeleton : image) (min_length : Z) :
  Components.nonnegative skeleton = true →
  (∃ contours,
     Tracer.trace_all_contours skeleton = Some contours ∧
     (∀ path p q, path ∈ contours → p ∈ path → Tracer.adjacent8 p q →
        Tracer.foreground skeleton q → q ∈ path) ∧
     (∀ p, Tracer.foreground skeleton p →
        p ∈ concat contours ∨
        ∃ comp, p ∈ comp ∧ Components.closed skeleton comp ∧
                Tracer.tree_order comp ∧ (length comp ≤ 5)%nat)) ∧
  (∃ contours,
     Tracer.remove_noise_from_skeleton skeleton min_length = Some contours ∧
     (∀ path p q, path ∈ contours → p ∈ path → Tracer.adjacent8 p q →
        Tracer.foreground skeleton q → q ∈ path) ∧
     (∀ p, Tracer.foreground skeleton p →
        p ∈ concat contours ∨
        ∃ comp, p ∈ comp ∧ Components.closed skeleton comp ∧
                Tracer.tree_order comp ∧ Z.of_nat (length comp) < min_length)).
Proof.
  intros Hnn. split.
  - destruct (trace_closed skeleton Hnn (λ n, 5 <? n)%nat)
      as (contours & Htrace & Hclosed & Hcov).
    exists contours. split_and!; [done| |].
    + intros path p q Hpath. by apply Hclosed.
    + intros p Hp.
      destruct (Hcov p Hp) as [Hin|(comp & Hc & Hcl & Hto & Hk)]; [by left|].
      right. exists comp. split_and!; try done. apply Nat.ltb_ge in Hk. lia.
  - destruct (trace_closed skeleton Hnn (λ n, min_length <=? Z.of_nat n))
      as (contours & Htrace & Hclosed & Hcov).
    exists contours. split_and!; [done| |].
    + intros path p q Hpath. by apply Hclosed.
    + intros p Hp.
      destruct (Hcov p Hp) as [Hin|(comp & Hc & Hcl & Hto & Hk)]; [by left|].
      right. exists comp. split_and!; try done. lia.
Qed.

Lemma tracer_whole_components_witness :
  (∃ contours,
     Tracer.trace_all_contours Tracer.vee = Some contours ∧
     (∀ path p q, path ∈ contours → p ∈ path → Tracer.adjacent8 p q →
        Tracer.foreground Tracer.vee q → q ∈ path) ∧
     (∀ p, Tracer.foreground Tracer.vee p →
        p ∈ concat contours ∨
        ∃ comp, p ∈ comp ∧ Components.closed Tracer.vee comp ∧
                Tracer.tree_order comp ∧ (length comp ≤ 5)%nat)) ∧
  (∃ contours,
     Tracer.remove_noise_from_skeleton Tracer.vee 3 = Some contours ∧
     (∀ path p q, path ∈ contours → p ∈ path → Tracer.adjacent8 p q →
        Tracer.foreground Tracer.vee q → q ∈ path) ∧
     (∀ p, Tracer.foreground Tracer.vee p →
        p ∈ concat contours ∨
        ∃ comp, p ∈ comp ∧ Components.closed Tracer.vee comp ∧
                Tracer.tree_order comp ∧ Z.of_nat (length comp) < 3)).
Proof. apply (tracer_whole_components Tracer.vee 3). reflexivity. Defined.

(** ** Moving average *)

Lemma py_int_lower lo q : (inject_Z lo <= q)%Q → lo <= Filters.py_int q.
Proof.
  destruct q as [n d]. unfold Qle, Filters.py_int, inject_Z. simpl. intros Hle.
  Z.to_euclidean_division_equations. nia.
Qed.

Lemma py_int_upper hi q : (q <= inject_Z hi)%Q → Filters.py_int q <= hi.
Proof.
  destruct q as [n d]. unfold Qle, Filters.py_int, inject_Z. simpl. intros Hle.
  Z.to_euclidean_division_equations. nia.
Qed.

Lemma mean_bounds (xs : list Q) (a b : Q) :
  xs ≠ [] → (∀ x, x ∈ xs → a <= x <= b)%Q →
  (a <= Filters.mean xs <= b)%Q.
Proof.
  intros Hne Hxs.
  assert (a * inject_Z (Z.of_nat (length xs)) <= foldr Qplus 0 xs
          <= b * inject_Z (Z.of_nat (length xs)))%Q as [Hlo Hhi].
  { clear Hne. induction xs as [|x xs IH].
    - simpl. split; ring_simplify; apply Qle_refl.
    - destruct IH as [IHlo IHhi]; [intros y Hy; apply Hxs; by right|].
      destruct (Hxs x) as [Hax Hxb]; [left|].
      cbn [length foldr]. rewrite Nat2Z.inj_succ, <- Z.add_1_r, inject_Z_plus.
      revert IHlo IHhi.
      generalize (foldr Qplus 0%Q xs) (inject_Z (Z.of_nat (length xs))).
      intros s k IHlo IHhi. change (inject_Z 1) with 1%Q. split; lra. }
  assert (0 < inject_Z (Z.of_nat (length xs)))%Q as Hpos.
  { destruct xs; [done|]. unfold Qlt. simpl. lia. }
  unfold Filters.mean. split.
  - by apply Qle_shift_div_l.
  - by apply Qle_shift_div_r.
Qed.

Lemma foldl_append_map {A B} (c : B → bool) (g : B → A) (l : list B) :
  (∀ i, i ∈ l → c i = true) →
  ∀ acc, foldl (λ acc i, if c i then acc ++ [g i] else acc) acc l
         = acc ++ (g <$> l).
Proof.
  induction l as [|i l IH]; intros Hc acc; simpl.
  - by rewrite app_nil_r.
  - rewrite (Hc i) by left. rewrite IH by (intros j Hj; apply Hc; by right).
    by rewrite <- (assoc_L (++)).
Qed.

(** The window of [smooth_path] around an index of the path holds that
    index, and nothing but points of the path. *)
Lemma smooth_window (points : path) (window : Z) (i : nat) :
  0 <= window → (i < length points)%nat →
  let window_points :=
    Filters.py_slice points (Z.max 0 (Z.of_nat i - window / 2))
      (Z.min (Z.of_nat (length points)) (Z.of_nat i + window / 2 + 1)) in
  (0 < length window_points)%nat ∧ window_points ⊆ points.
Proof.
  intros Hw Hi. cbv zeta. unfold Filters.py_slice. split.
  - rewrite length_take, length_drop. unfold Filters.py_bound.
    assert (0 <= window / 2) as Hh by (apply Z.div_pos; lia).
    revert Hh. generalize (window / 2). intros h Hh.
    destruct (Z.ltb_spec (Z.min (Z.of_nat (length points))
                                (Z.of_nat i + h + 1)) 0); [lia|].
    destruct (Z.ltb_spec (Z.max 0 (Z.of_nat i - h)) 0); lia.
  - etrans; [apply subseteq_take|apply subseteq_drop].
Qed.

Lemma smooth_path_box (pixels : list (Z * Z)) (window : Z) :
  0 <= window <= Z.of_nat (length pixels) →
  ∃ smoothed : list (Z * Z),
    Filters.smooth_path (to_points pixels) window = to_points smoothed ∧
    length smoothed = length pixels ∧
    ∀ x0 x1 y0 y1,
      (∀ p, p ∈ pixels → x0 <= p.1 <= x1 ∧ y0 <= p.2 <= y1) →
      ∀ q, q ∈ smoothed → x0 <= q.1 <= x1 ∧ y0 <= q.2 <= y1.
Proof.
  intros [Hw0 Hwn].
  assert (length (to_points pixels) = length pixels) as Hlen
    by apply length_map.
  set (w := λ i : nat,
         Filters.py_slice (to_points pixels) (Z.max 0 (Z.of_nat i - window / 2))
           (Z.min (Z.of_nat (length (to_points pixels)))
                  (Z.of_nat i + window / 2 + 1))).
  exists ((λ i, (Filters.py_int (Filters.mean (w i).*1),
                 Filters.py_int (Filters.mean (w i).*2)))
          <$> seq 0 (length (to_points pixels))).
  split_and!.
  - unfold Filters.smooth_path.
    destruct (Z.ltb_spec (Z.of_nat (length (to_points pixels))) window);
      [lia|].
    change (foldl _ [] (seq 0 (length (to_points pixels))))
      with (foldl (λ acc i,
                     if (0 <? length (w i))%nat
                     then acc ++ [(inject_Z (Filters.py_int (Filters.mean (w i).*1)),
                                   inject_Z (Filters.py_int (Filters.mean (w i).*2)))]
                     else acc) [] (seq 0 (length (to_points pixels)))).
    rewrite (foldl_append_map (λ i, (0 <? length (w i))%nat)).
    + simpl. generalize (seq 0 (length (to_points pixels))). intros l.
      unfold to_points. induction l as [|k l IH]; [done|].
      rewrite !fmap_cons. cbn [map]. by f_equal.
    + intros i Hi%elem_of_seq. apply Nat.ltb_lt.
      destruct (smooth_window (to_points pixels) window i) as [Hpos _];
        [done|lia|done].
  - by rewrite length_fmap, length_seq.
  - intros x0 x1 y0 y1 Hbox q (i & -> & Hi%elem_of_seq)%list_elem_of_fmap.
    destruct (smooth_window (to_points pixels) window i) as [Hpos Hsub];
      [done|lia|]. fold (w i) in Hpos, Hsub.
    assert (∀ pt, pt ∈ w i →
              (inject_Z x0 <= pt.1 <= inject_Z x1)%Q ∧
              (inject_Z y0 <= pt.2 <= inject_Z y1)%Q) as Hin.
    { intros pt Hpt%Hsub. unfold to_points in Hpt.
      apply list_elem_of_In, in_map_iff in Hpt as (p & <- & Hp%list_elem_of_In).
      destruct (Hbox p Hp) as [[? ?] [? ?]]. simpl.
      rewrite <- !Zle_Qle. done. }
    assert ((w i).*1 ≠ [] ∧ (w i).*2 ≠ []) as [Hne1 Hne2].
    { destruct (w i); [simpl in Hpos; lia|done]. }
    destruct (mean_bounds (w i).*1 (inject_Z x0) (inject_Z x1) Hne1)
      as [Hx0 Hx1].
    { intros x (pt & -> & Hpt)%list_elem_of_fmap. by apply Hin. }
    destruct (mean_bounds (w i).*2 (inject_Z y0) (inject_Z y1) Hne2)
      as [Hy0 Hy1].
    { intros y (pt & -> & Hpt)%list_elem_of_fmap. by apply Hin. }
    simpl. split_and!;
      [by apply py_int_lower|by apply py_int_upper
      |by apply py_int_lower|by apply py_int_upper].
Qed.

(** X18: for a path of pixels and a window between 0 and the length of the
    path, [smooth_path] returns as many points as it is given, with integer
    coordinates, and none of them leaves the bounding box of the input. *)
Theorem smooth_path_in_box (pixels : list (Z * Z)) (window : Z) :
  0 <= window <= Z.of_nat (length pixels) →
  ∃ smoothed : list (Z * Z),
    Filters.smooth_path (to_points pixels) window = to_points smoothed ∧
    length smoothed = length pixels ∧
    ∀ x0 x1 y0 y1,
      (∀ p, p ∈ pixels → x0 <= p.1 <= x1 ∧ y0 <= p.2 <= y1) →
      ∀ q, q ∈ smoothed → x0 <= q.1 <= x1 ∧ y0 <= q.2 <= y1.
Proof. apply smooth_path_box. Qed.

Lemma smooth_path_in_box_witness :
  ∃ smoothed : list (Z * Z),
    Filters.smooth_path (to_points [(0, 0); (3, 1); (6, 0); (9, 4); (12, 0)]) 3
      = to_points smoothed ∧
    length smoothed = 5%nat ∧
    ∀ x0 x1 y0 y1,
      (∀ p, p ∈ [(0, 0); (3, 1); (6, 0); (9, 4); (12, 0)] →
         x0 <= p.1 <= x1 ∧ y0 <= p.2 <= y1) →
      ∀ q, q ∈ smoothed → x0 <= q.1 <= x1 ∧ y0 <= q.2 <= y1.
Proof.
  apply (smooth_path_in_box [(0, 0); (3, 1); (6, 0); (9, 4); (12, 0)] 3).
  simpl. lia.
Defined.

(** ** Sampling a contour down to a target size *)

Lemma py_stride_length points step :
  length (Sampler.py_stride points step)
  = ((length points + step - 1) / step)%nat.
Proof. unfold Sampler.py_stride. by rewrite length_fmap, length_seq. Qed.

Lemma py_stride_lookup points step k p :
  (0 < step)%nat → Sampler.py_stride points step !! k = Some p →
  points !! (k * step)%nat = Some p.
Proof.
  intros Hstep. unfold Sampler.py_stride. rewrite list_lookup_fmap.
  destruct (seq 0 ((length points + step - 1) / step) !! k) as [k'|] eqn:Hk;
    [|done].
  apply lookup_seq in Hk as [-> Hk]. simpl. intros [= <-].
  assert (k * step < length points)%nat as Hlt.
  { pose proof (Nat.Div0.mul_div_le (length points + step - 1) step). nia. }
  unfold point_at.
  destruct (points !! (k * step)%nat) as [q|] eqn:Hq; [done|].
  apply lookup_ge_None in Hq. lia.
Qed.

Lemma py_stride_one points : Sampler.py_stride points 1 = points.
Proof.
  apply list_eq. intros k. unfold Sampler.py_stride.
  rewrite list_lookup_fmap, Nat.add_sub, Nat.div_1_r.
  destruct (points !! k) as [q|] eqn:Hq.
  - apply lookup_lt_Some in Hq as Hk.
    rewrite (lookup_seq_lt _ _ _ Hk). simpl.
    unfold point_at. by rewrite Nat.mul_1_r, Hq.
  - apply lookup_ge_None in Hq. by rewrite lookup_seq_ge.
Qed.

Lemma py_slice_take {A} (l : list A) (stop : Z) :
  0 <= stop → Filters.py_slice l 0 stop = take (Z.to_nat stop) l.
Proof.
  intros Hstop. unfold Filters.py_slice, Filters.py_bound.
  destruct (Z.ltb_spec stop 0); [lia|]. simpl.
  rewrite (Z.min_l 0) by lia. rewrite Z.sub_0_r. simpl.
  destruct (decide (stop <= Z.of_nat (length l))).
  - by rewrite Z.min_l by lia.
  - rewrite Z.min_r by lia. rewrite (take_ge l (Z.to_nat stop)) by lia.
    apply take_ge. lia.
Qed.

Lemma py_slice_init {A} (l : list A) :
  Filters.py_slice l 0 (-1) = take (length l - 1) l.
Proof.
  unfold Filters.py_slice, Filters.py_bound. simpl.
  rewrite (Z.min_l 0) by lia. rewrite Z.sub_0_r. simpl. f_equal. lia.
Qed.

(** X19: asked for a target between 1 and the length of the contour,
    [simplify_contour_aggressive] returns [target_points] points, or one
    fewer when more than two are left and the first and last are close;
    the point at position [k] of the result is the input point at index
    [k * step], with [step = len(points) // target_points].  So when the
    contour is shorter than twice the target, the step is 1 and the result
    is only the beginning of the contour: its end is cut off. *)
Theorem simplify_contour_aggressive_samples (points : path) (target_points : Z) :
  1 <= target_points < Z.of_nat (length points) →
  ∃ result,
    Sampler.simplify_contour_aggressive points target_points = Some result ∧
    (Z.of_nat (length result) = target_points ∨
     (2 < target_points ∧ Z.of_nat (length result) = target_points - 1)) ∧
    (∀ k p, result !! k = Some p →
       points !! (k * Z.to_nat (Z.of_nat (length points) / target_points))%nat
       = Some p) ∧
    (Z.of_nat (length points) < 2 * target_points → result `prefix_of` points).
Proof.
  intros [Ht Hn]. unfold Sampler.simplify_contour_aggressive.
  destruct (Z.leb_spec (Z.of_nat (length points)) target_points); [lia|].
  destruct (Z.eqb_spec target_points 0); [lia|].
  assert (1 <= Z.of_nat (length points) / target_points) as Hstep
    by (apply Z.div_le_lower_bound; lia).
  cbv zeta.
  destruct (Z.ltb_spec (Z.of_nat (length points) / target_points) 1); [lia|].
  set (step := Z.to_nat (Z.of_nat (length points) / target_points)).
  assert (0 < step)%nat as Hpos by lia.
  assert (Z.to_nat target_points * step ≤ length points)%nat as Hfit.
  { unfold step. pose proof (Z.mul_div_le (Z.of_nat (length points))
                               target_points ltac:(lia)). nia. }
  assert (Z.to_nat target_points ≤ length (Sampler.py_stride points step))%nat
    as Hlen.
  { rewrite py_stride_length. apply Nat.div_le_lower_bound; lia. }
  assert ((if Z.of_nat (length (Sampler.py_stride points step)) >? target_points
           then Filters.py_slice (Sampler.py_stride points step) 0 target_points
           else Sampler.py_stride points step)
          = take (Z.to_nat target_points) (Sampler.py_stride points step))
    as ->.
  { destruct (Z.gtb_spec (Z.of_nat (length (Sampler.py_stride points step)))
                target_points).
    - apply py_slice_take. lia.
    - rewrite take_ge; [done|lia]. }
  set (cut := take (Z.to_nat target_points) (Sampler.py_stride points step)).
  assert (length cut = Z.to_nat target_points) as Hcut
    by (unfold cut; rewrite length_take; lia).
  assert (∀ r, ∀ k p, take r cut !! k = Some p →
            points !! (k * step)%nat = Some p) as Hlook.
  { intros r k p Hk. apply (py_stride_lookup points step k p Hpos).
    apply lookup_take_Some in Hk as [Hk _].
    unfold cut in Hk. by apply lookup_take_Some in Hk as [Hk _]. }
  assert (∀ r, Z.of_nat (length points) < 2 * target_points →
            take r cut `prefix_of` points) as Hprefix.
  { intros r Hshort.
    assert (step = 1%nat) as Hone.
    { unfold step.
      assert (Z.of_nat (length points) / target_points < 2)
        by (apply Z.div_lt_upper_bound; lia). lia. }
    unfold cut. rewrite Hone, py_stride_one.
    etrans; apply prefix_take. }
  destruct (2 <? length cut)%nat eqn:Hlong;
    [destruct (Filters.allclose _ _)|].
  - exists (take (length cut - 1) cut). rewrite py_slice_init.
    split_and!; [done| |by apply Hlook|by apply Hprefix].
    right. apply Nat.ltb_lt in Hlong. rewrite length_take. lia.
  - exists cut. pose proof (Hlook (length cut)) as Hl.
    pose proof (Hprefix (length cut)) as Hp.
    rewrite take_ge in Hl, Hp by done.
    split_and!; [done| |done..]. left. lia.
  - exists cut. pose proof (Hlook (length cut)) as Hl.
    pose proof (Hprefix (length cut)) as Hp.
    rewrite take_ge in Hl, Hp by done.
    split_and!; [done| |done..]. left. lia.
Qed.

Lemma simplify_contour_aggressive_samples_witness :
  ∃ result,
    Sampler.simplify_contour_aggressive
      [(0, 0); (1, 0); (2, 0); (3, 0); (4, 0)]%Q 3 = Some result ∧
    (Z.of_nat (length result) = 3 ∨
     (2 < 3 ∧ Z.of_nat (length result) = 3 - 1)) ∧
    (∀ k p, result !! k = Some p →
       [(0, 0); (1, 0); (2, 0); (3, 0); (4, 0)]%Q
         !! (k * Z.to_nat (Z.of_nat (length [(0, 0); (1, 0); (2, 0); (3, 0); (4, 0)]%Q) / 3))%nat
       = Some p) ∧
    (Z.of_nat (length [(0, 0); (1, 0); (2, 0); (3, 0); (4, 0)]%Q) < 2 * 3 →
     result `prefix_of` [(0, 0); (1, 0); (2, 0); (3, 0); (4, 0)]%Q).
Proof.
  apply (simplify_contour_aggressive_samples
           [(0, 0); (1, 0); (2, 0); (3, 0); (4, 0)]%Q 3).
  simpl. lia.
Defined.

(** ** Numbering of the written paths *)

Section numbering.
Import Serializer Numbering.

Lemma svg_path_layout content i (path : path) :
  svg_path content (i, path)
  = content ++
    (if (length path <? 2)%nat then []
     else SvgPathOpen i
          :: SvgM (point_at path 0).1 (point_at path 0).2
          :: map (λ j, SvgL (point_at path j).1 (point_at path j).2)
                 (seq 1 (length path - 1))
          ++ [SvgPathClose]).
Proof.
  unfold svg_path. destruct (length path <? 2)%nat; [by rewrite app_nil_r|].
  cbv zeta. rewrite foldl_snoc_map. by rewrite <- !(assoc_L (++)).
Qed.

Lemma ai_path_layout height content i (path : path) :
  ai_path height content (i, path)
  = content ++
    (if (length path <? 2)%nat then []
     else AiPathComment (i + 1) (length path)
          :: AiNewpath
          :: AiMoveto (point_at path 0).1
                      (inject_Z height - (point_at path 0).2)%Q
          :: map (λ j, AiLineto (point_at path j).1
                                (inject_Z height - (point_at path j).2)%Q)
                 (seq 1 (length path - 1))
          ++ [AiStroke]).
Proof.
  unfold ai_path. destruct (length path <? 2)%nat; [by rewrite app_nil_r|].
  cbv zeta. rewrite foldl_lineto. by rewrite <- !(assoc_L (++)).
Qed.

Lemma omap_svg_id_lineto (f : nat → point) (l : list nat) :
  omap svg_id (map (λ j, SvgL (f j).1 (f j).2) l) = [].
Proof. induction l as [|j l IH]; simpl; [done|]. apply IH. Qed.

Lemma omap_ai_comment_lineto (f : nat → point) height (l : list nat) :
  omap ai_comment
       (map (λ j, AiLineto (f j).1 (inject_Z height - (f j).2)%Q) l) = [].
Proof. induction l as [|j l IH]; simpl; [done|]. apply IH. Qed.

Lemma foldl_svg_id (entries : list (nat * path)) : ∀ content,
  omap svg_id (foldl svg_path content entries)
  = omap svg_id content
    ++ (filter (λ entry, 2 ≤ length entry.2)%nat entries).*1.
Proof.
  induction entries as [|[i path] entries IH]; intros content.
  - simpl. by rewrite app_nil_r.
  - change (foldl svg_path content ((i, path) :: entries))
      with (foldl svg_path (svg_path content (i, path)) entries).
    rewrite IH, svg_path_layout, omap_app, filter_cons. simpl.
    destruct (Nat.ltb_spec (length path) 2).
    + rewrite decide_False by lia. simpl. by rewrite app_nil_r.
    + rewrite decide_True by lia. simpl.
      rewrite omap_app, (omap_svg_id_lineto (point_at path)). simpl.
      by rewrite <- (assoc_L (++)).
Qed.

Lemma foldl_ai_comment height (entries : list (nat * path)) : ∀ content,
  omap ai_comment (foldl (ai_path height) content entries)
  = omap ai_comment content
    ++ ((λ entry, (entry.1 + 1, length entry.2)%nat)
          <$> filter (λ entry, 2 ≤ length entry.2)%nat entries).
Proof.
  induction entries as [|[i path] entries IH]; intros content.
  - simpl. by rewrite app_nil_r.
  - change (foldl (ai_path height) content ((i, path) :: entries))
      with (foldl (ai_path height) (ai_path height content (i, path)) entries).
    rewrite IH, ai_path_layout, omap_app, filter_cons. simpl.
    destruct (Nat.ltb_spec (length path) 2).
    + rewrite decide_False by lia. simpl. by rewrite app_nil_r.
    + rewrite decide_True by lia. simpl.
      rewrite omap_app, (omap_ai_comment_lineto (point_at path)). simpl.
      by rewrite <- (assoc_L (++)).
Qed.

End numbering.

(** X20: the files number the paths by their position in the collection,
    not by what is written.  [output_svg] gives a written path the id
    [p{i}] and [output_ai] the comment [Path {i + 1}] with its point count,
    where [i] counts every path of the collection from 0, also those of
    fewer than 2 points that are left out; and both headers print the size
    of the whole collection, [output_svg] with the points of all paths. *)
Theorem serializer_numbering (paths : list path) (width height : Z) :
  omap Numbering.svg_id (Serializer.output_svg paths width height).1
    = (Numbering.written paths).*1 ∧
  omap Numbering.ai_comment (Serializer.output_ai paths width height)
    = (λ entry, (entry.1 + 1, length entry.2)%nat) <$> Numbering.written paths ∧
  list.head (Serializer.output_svg paths width height).1
    = Some (Serializer.SvgHeader width height (length paths)
              (sum_list (length <$> paths))) ∧
  list.head (Serializer.output_ai paths width height)
    = Some (Serializer.AiHeader width height (length paths)) ∧
  (length (Numbering.written paths) ≤ length paths)%nat.
Proof.
  unfold Numbering.written. split_and!.
  - unfold Serializer.output_svg. simpl.
    rewrite omap_app, foldl_svg_id. simpl. by rewrite app_nil_r.
  - unfold Serializer.output_ai.
    rewrite !omap_app, foldl_ai_comment. simpl. by rewrite app_nil_r.
  - unfold Serializer.output_svg. simpl.
    generalize (zip (seq 0 (length paths)) paths). intros entries.
    assert (∀ content piece, list.head content = Some piece →
              list.head (foldl Serializer.svg_path content entries ++ [Serializer.SvgFooter])
              = Some piece) as Hhead.
    { induction entries as [|[i path] entries IH]; intros content piece Hc.
      - simpl. by destruct content.
      - cbn [foldl]. apply IH. rewrite svg_path_layout. by destruct content. }
    by apply Hhead.
  - unfold Serializer.output_ai.
    generalize (zip (seq 0 (length paths)) paths). intros entries.
    assert (∀ content line, list.head content = Some line →
              list.head (foldl (Serializer.ai_path height) content entries
                         ++ [Serializer.AiShowpage] ++ [Serializer.AiEndDocument])
              = Some line) as Hhead.
    { induction entries as [|[i path] entries IH]; intros content line Hc.
      - simpl. by destruct content.
      - cbn [foldl]. apply IH. rewrite ai_path_layout. by destruct content. }
    by apply Hhead.
  - etrans; [apply length_filter|].
    rewrite length_zip, length_seq. lia.
Qed.

(** ** The queue and the stack trace the same components *)

Lemma visit_sim skeleton w h cx cy (q s : list Tracer.pixel) v d :
  ∃ new v',
    Queue.visit skeleton w h cx cy (q, v) d = (q ++ new, v') ∧
    Tracer.visit skeleton w h cx cy (s, v) d = (reverse new ++ s, v').
Proof.
  destruct d as [dx dy]. unfold Queue.visit, Tracer.visit.
  destruct ((dx =? 0) && (dy =? 0));
    [exists [], v; by rewrite app_nil_r|].
  cbv zeta.
  destruct ((0 <=? cx + dx) && (cx + dx <? w) && (0 <=? cy + dy)
            && (cy + dy <? h));
    [|exists [], v; by rewrite app_nil_r].
  destruct ((get2 skeleton (cy + dy) (cx + dx) >? 0)
            && (get2 v (cy + dy) (cx + dx) =? 0));
    [|exists [], v; by rewrite app_nil_r].
  by exists [(cx + dx, cy + dy)], (set2 v (cy + dy) (cx + dx) 255).
Qed.

Lemma foldl_visit_sim skeleton w h cx cy ds : ∀ (q s : list Tracer.pixel) v,
  ∃ new v',
    foldl (Queue.visit skeleton w h cx cy) (q, v) ds = (q ++ new, v') ∧
    foldl (Tracer.visit skeleton w h cx cy) (s, v) ds = (reverse new ++ s, v').
Proof.
  induction ds as [|d ds IH]; intros q s v.
  - exists [], v. simpl. by rewrite app_nil_r.
  - cbn [foldl].
    destruct (visit_sim skeleton w h cx cy q s v d) as (new1 & v1 & -> & ->).
    destruct (IH (q ++ new1) (reverse new1 ++ s) v1)
      as (new2 & v2 & -> & ->).
    exists (new1 ++ new2), v2. by rewrite reverse_app, !(assoc_L (++)).
Qed.

Lemma flood_inv_perm skeleton v0 stack stack' points v :
  stack ≡ₚ stack' →
  Tracer.flood_inv skeleton v0 stack points v →
  Tracer.flood_inv skeleton v0 stack' points v.
Proof.
  intros Hp (Hs & Hnd & Hfg & Hm & Hto & Hst). split_and!; try done.
  - by rewrite <- Hp.
  - intros p Hin. apply Hfg. by rewrite Hp.
  - intros p. rewrite (Hm p). by rewrite Hp.
  - destruct Hst as [[-> Hl]|Hst].
    + left. by rewrite <- Hp.
    + right. intros s0 Hs0. apply Hst. by rewrite Hp.
Qed.

Lemma queue_flood_unfold fuel skeleton w h queue idx points v :
  Queue.flood fuel skeleton w h queue idx points v
  = match queue !! idx with
    | None => Some (points, v)
    | Some (cx, cy) =>
        match fuel with
        | O => None
        | S fuel' =>
            let '(queue', v') :=
              foldl (Queue.visit skeleton w h cx cy) (queue, v) Tracer.offsets in
            Queue.flood fuel' skeleton w h queue' (S idx)
                        (points ++ [(cx, cy)]) v'
        end
    end.
Proof. by destruct fuel. Qed.

(** The first point of a traced path is the pixel the walk starts from. *)
Lemma flood_head skeleton w h fuel : ∀ stack points v pts v',
  Tracer.flood fuel skeleton w h stack points v = Some (pts, v') →
  points ++ take 1 stack `prefix_of` pts.
Proof.
  induction fuel as [|fuel IH]; intros [|[cx cy] rest] points v pts v' Hfl.
  - injection Hfl as <- <-. by rewrite app_nil_r.
  - done.
  - injection Hfl as <- <-. by rewrite app_nil_r.
  - rewrite flood_unfold in Hfl.
    destruct (foldl (Tracer.visit skeleton w h cx cy) (rest, v) Tracer.offsets)
      as [stack' v1].
    apply IH in Hfl. by apply prefix_app_l in Hfl.
Qed.

Lemma tree_order_init (l : list Tracer.pixel) p :
  Tracer.tree_order (l ++ [p]) → Tracer.tree_order l ∧ Tracer.attached l p.
Proof.
  intros Hto. split.
  - intros l1 x l2 ->. apply (Hto l1 x (l2 ++ [p])).
    by rewrite <- (assoc_L (++)).
  - apply (Hto l p []). done.
Qed.

(** A property that holds of the first pixel of a path in tree order and
    passes from a pixel to its 8-neighbours on the path holds of the whole
    path. *)
Lemma tree_order_spread (S : Tracer.pixel → Prop) seed :
  S seed →
  ∀ l : list Tracer.pixel,
    Tracer.tree_order l → (l = [] ∨ [seed] `prefix_of` l) →
    (∀ q p, S q → p ∈ l → Tracer.adjacent8 q p → S p) →
    ∀ p, p ∈ l → S p.
Proof.
  intros Hseed l.
  induction l as [|x l IH] using rev_ind; intros Hto Hhead Hstep p Hp.
  - by apply elem_of_nil in Hp.
  - apply tree_order_init in Hto as [Hto Hatt].
    assert (l = [] ∨ [seed] `prefix_of` l) as Hhead'.
    { destruct l as [|y l]; [by left|right].
      destruct Hhead as [?|[k Hk]]; [by destruct l|].
      injection Hk as -> _. by exists l. }
    assert (∀ p, p ∈ l → S p) as Hl.
    { apply IH; [done..|]. intros q r Hq Hr. apply Hstep; [done|].
      apply elem_of_app. by left. }
    apply elem_of_app in Hp as [Hp| ->%list_elem_of_singleton]; [by apply Hl|].
    destruct Hatt as [->|(q & Hq & Hadj)].
    + destruct Hhead as [?|[k Hk]]; [done|]. by injection Hk as ->.
    + apply (Hstep q x); [by apply Hl| |done].
      apply elem_of_app. right. left.
Qed.

Section queue.
Import Tracer Components.

Variable skeleton : image.
Hypothesis skeleton_nonnegative : nonnegative skeleton = true.

Let H := img_height skeleton.
Let W := img_width skeleton.

Lemma queue_flood_closed v0 fuel : ∀ queue idx points v,
  flood_inv skeleton v0 (drop idx queue) points v →
  neighbours_marked skeleton v points →
  (H * W ≤ fuel + length points)%nat →
  ∃ pts v',
    Queue.flood fuel skeleton (Z.of_nat W) (Z.of_nat H) queue idx points v
      = Some (pts, v') ∧
    flood_inv skeleton v0 [] pts v' ∧
    (∀ p, p ∈ points ++ drop idx queue → p ∈ pts) ∧
    neighbours_marked skeleton v' pts ∧
    points ++ take 1 (drop idx queue) `prefix_of` pts.
Proof.
  induction fuel as [|fuel IH]; intros queue idx points v Hinv Hnb Hfuel;
    rewrite queue_flood_unfold;
    (destruct (queue !! idx) as [[cx cy]|] eqn:Hq;
      [|apply lookup_ge_None in Hq; rewrite drop_ge in * by done;
        exists points, v;
        split_and!;
          [done|done|intros p; by rewrite app_nil_r|done
          |simpl; by rewrite app_nil_r]]).
  - exfalso. rewrite (drop_S _ _ _ Hq) in Hinv.
    destruct (flood_spec skeleton v0 0 _ points v Hinv Hfuel)
      as (pts & v' & Hfl & _). done.
  - rewrite (drop_S _ _ _ Hq) in Hinv |- *.
    destruct (foldl_visit_sim skeleton (Z.of_nat W) (Z.of_nat H) cx cy offsets
                queue (drop (S idx) queue) v) as (new & v' & -> & Hfold).
    destruct (flood_inv_step skeleton _ _ _ _ _ _ _ _ Hinv Hfold)
      as [Hinv' Hkeep].
    assert (shaped H W v) as Hs by apply Hinv.
    assert (drop (S idx) (queue ++ new) = drop (S idx) queue ++ new) as Hdrop.
    { apply drop_app_le. apply lookup_lt_Some in Hq. lia. }
    destruct (IH (queue ++ new) (S idx) (points ++ [(cx, cy)]) v')
      as (pts & v'' & Hfl & Hres & Hsub & Hnb' & Hpre).
    { rewrite Hdrop. eapply flood_inv_perm; [|done].
      rewrite reverse_Permutation. apply Permutation_app_comm. }
    { intros p q [Hp| ->%list_elem_of_singleton]%elem_of_app Hadj Hpos.
      - assert (marked (foldl (visit skeleton (Z.of_nat W) (Z.of_nat H) cx cy)
                          (drop (S idx) queue, v) offsets).2 q) as Hm
          by exact (foldl_visit_marked skeleton cx cy q offsets
                      (drop (S idx) queue, v) Hs (λ d Hd, Hd)
                      (Hnb p q Hp Hadj Hpos)).
        by rewrite Hfold in Hm.
      - destruct (adjacent8_offset cx cy q Hadj) as (d & Hd & Hnz & ->).
        assert (marked (foldl (visit skeleton (Z.of_nat W) (Z.of_nat H) cx cy)
                          (drop (S idx) queue, v) offsets).2
                       (cx + d.1, cy + d.2)) as Hm
          by exact (foldl_visit_marks skeleton cx cy d
                      offsets (drop (S idx) queue, v) Hs (λ d Hd, Hd)
                      Hd Hnz Hpos).
        by rewrite Hfold in Hm. }
    { rewrite length_app. simpl. lia. }
    exists pts, v''. split_and!; try done.
    + intros p Hp. apply Hsub. rewrite Hdrop.
      apply Hkeep in Hp. revert Hp.
      rewrite !elem_of_app, elem_of_reverse. tauto.
    + by apply prefix_app_l in Hpre.
Qed.

Lemma scan_step_agree keep pre st1 st2 p :
  in_bounds skeleton p → scan_inv skeleton keep pre st1 →
  Queue.agree skeleton st1 st2 →
  Queue.agree skeleton (scan_step keep skeleton st1 p)
                       (Queue.scan_step keep skeleton st2 p).
Proof.
  intros Hin (visited & contours & -> & Hs & Hnd & Hcm & Hmf & Hpre & Hpaths
              & Hall)
    (v1 & c1 & v2 & paths & [= <- <-] & -> & Hs2 & Hmarked & Hperm & Htree).
  destruct p as [x y]. destruct Hin as [Hx Hy]. simpl in Hx, Hy.
  unfold scan_step, Queue.scan_step. simpl.
  assert ((get2 v2 y x =? 0) = (get2 visited y x =? 0)) as ->.
  { pose proof (Hmarked (x, y)) as Hxy. unfold marked in Hxy. simpl in Hxy.
    destruct (Z.eqb_spec (get2 v2 y x) 0), (Z.eqb_spec (get2 visited y x) 0);
      try done; exfalso; intuition lia. }
  destruct ((get2 skeleton y x =? 0) || negb (get2 visited y x =? 0)) eqn:Hskip.
  { by exists visited, contours, v2, paths. }
  apply orb_false_elim in Hskip as [Hfg Hvis].
  apply negb_false_iff in Hvis.
  assert (foreground skeleton (x, y)) as Hseed by (split; [split|]; simpl; lia).
  assert (¬ marked visited (x, y)) as Hnew
    by (intros (_ & _ & Hm); simpl in Hm; lia).
  assert (¬ marked v2 (x, y)) as Hnew2 by (by rewrite <- Hmarked).
  destruct (flood_closed skeleton visited (H * W)
              [(x, y)] [] (set2 visited y x 255))
    as (pts1 & v1' & Hfl1 & (Hs1' & Hnd1 & Hfg1 & Hm1 & Hto1 & _) & Hsub1 & Hnb1).
  { split_and!.
    - by apply shaped_set2.
    - apply NoDup_singleton.
    - intros q ->%list_elem_of_singleton. done.
    - intros q. simpl. rewrite list_elem_of_singleton.
      by apply (marked_set2 skeleton).
    - apply tree_order_nil.
    - left. split; [done|simpl; lia]. }
  { intros q r Hq. by apply elem_of_nil in Hq. }
  { simpl. lia. }
  destruct (queue_flood_closed v2 (H * W) [(x, y)] 0 [] (set2 v2 y x 255))
    as (pts2 & v2' & Hfl2 & (Hs2' & Hnd2 & Hfg2 & Hm2 & Hto2 & _) & Hsub2
        & Hnb2 & Hhead2).
  { split_and!.
    - by apply shaped_set2.
    - apply NoDup_singleton.
    - intros q ->%list_elem_of_singleton. done.
    - intros q. simpl. rewrite list_elem_of_singleton.
      by apply (marked_set2 skeleton).
    - apply tree_order_nil.
    - left. split; [done|simpl; lia]. }
  { intros q r Hq. by apply elem_of_nil in Hq. }
  { simpl. lia. }
  pose proof (flood_head _ _ _ _ _ _ _ _ _ Hfl1) as Hhead1.
  unfold H, W in Hfl1, Hfl2. rewrite Hfl1, Hfl2. simpl.
  simpl in Hhead1, Hhead2.
  rewrite app_nil_r in Hnd1, Hfg1, Hm1, Hnd2, Hfg2, Hm2.
  assert (pts1 ≡ₚ pts2) as Hpts.
  { apply NoDup_Permutation; [done..|]. intros p. split.
    - apply (tree_order_spread (λ p, p ∈ pts2) (x, y)); [|done|by right|].
      + apply Hsub2. left.
      + intros q r Hq Hr Hadj. simpl in *.
        destruct (Hfg1 r Hr) as [Hrf Hrn].
        assert (marked v2' r) as [Hold|Hr']%Hm2; [|exfalso|done].
        { apply (Hnb2 q r Hq Hadj).
          by apply foreground_positive. }
        by apply Hrn, Hmarked.
    - apply (tree_order_spread (λ p, p ∈ pts1) (x, y)); [|done|by right|].
      + apply Hsub1. left.
      + intros q r Hq Hr Hadj. simpl in *.
        destruct (Hfg2 r Hr) as [Hrf Hrn].
        assert (marked v1' r) as [Hold|Hr']%Hm1; [|exfalso|done].
        { apply (Hnb1 q r Hq Hadj).
          by apply foreground_positive. }
        by apply Hrn, Hmarked. }
  rewrite <- (Permutation_length Hpts).
  exists v1', (if keep (length pts1) then contours ++ [pts1] else contours),
         v2', (if keep (length pts1) then paths ++ [pts2] else paths).
  split_and!; try done.
  - intros p. rewrite (Hm1 p), (Hm2 p), (Hmarked p), Hpts. done.
  - destruct (keep (length pts1)); [|done].
    apply Forall2_app; [done|]. by constructor.
  - destruct (keep (length pts1)); [|done].
    apply Forall_app. split; [done|]. by apply Forall_singleton.
Qed.

Lemma foldl_scan_agree keep (l pre : list pixel) st1 st2 :
  (∀ p, p ∈ l → in_bounds skeleton p) → scan_inv skeleton keep pre st1 →
  Queue.agree skeleton st1 st2 →
  scan_inv skeleton keep (pre ++ l) (foldl (scan_step keep skeleton) st1 l) ∧
  Queue.agree skeleton (foldl (scan_step keep skeleton) st1 l)
                       (foldl (Queue.scan_step keep skeleton) st2 l).
Proof.
  revert pre st1 st2.
  induction l as [|p l IH]; intros pre st1 st2 Hl Hinv Hag; cbn [foldl].
  - by rewrite app_nil_r.
  - rewrite (cons_middle p pre l), (assoc_L (++)). apply IH.
    + intros q Hq. apply Hl. by right.
    + apply scan_inv_step; [apply Hl; left|done].
    + eapply scan_step_agree; [apply Hl; left|done..].
Qed.

(** Whatever the length filter, the walk with a queue and the walk with a
    stack return the same paths, up to the order of the points of each. *)
Lemma trace_agree keep :
  ∃ paths contours,
    Queue.trace keep skeleton = Some paths ∧
    trace keep skeleton = Some contours ∧
    Forall2 (≡ₚ) paths contours ∧ Forall tree_order paths.
Proof.
  destruct (foldl_scan_agree keep (scan_order H W) []
              (Some (zeros H W, [])) (Some (zeros H W, [])))
    as [_ (v1 & contours & v2 & paths & Hst1 & Hst2 & _ & _ & Hperm & Htree)].
  { intros p Hp. by apply elem_of_scan_order. }
  { apply scan_inv_init. }
  { exists (zeros H W), [], (zeros H W), []. split_and!; try done.
    apply shaped_zeros. }
  exists paths, contours. unfold trace, Queue.trace. fold H W.
  rewrite Hst1, Hst2. done.
Qed.

End queue.

Lemma concat_Forall2_Permutation {A} (l k : list (list A)) :
  Forall2 (≡ₚ) l k → concat l ≡ₚ concat k.
Proof.
  induction 1 as [|x y l k Hxy _ IH]; simpl; [done|]. by rewrite Hxy, IH.
Qed.

(** X21: on a mask without negative cells, [extract_long_paths], which walks
    each component with a queue, returns the same paths as the stack-based
    [remove_noise_from_skeleton] called with the same [min_length], in the
    same order, each with the same pixels; only the order of the pixels
    inside a path differs.  Its paths are in tree order too, share no pixel
    and have at least [min_length] pixels. *)
Theorem extract_long_paths_agrees (skeleton : image) (min_length : Z) :
  Components.nonnegative skeleton = true →
  ∃ paths contours,
    Queue.extract_long_paths skeleton min_length = Some paths ∧
    Tracer.remove_noise_from_skeleton skeleton min_length = Some contours ∧
    Forall2 (≡ₚ) paths contours ∧
    Forall Tracer.tree_order paths ∧
    NoDup (concat paths) ∧
    Forall (λ path, min_length <= Z.of_nat (length path)) paths.
Proof.
  intros Hnn.
  destruct (trace_agree skeleton Hnn (λ n, min_length <=? Z.of_nat n))
    as (paths & contours & Hq & Hs & Hperm & Htree).
  destruct (trace_spec skeleton (λ n, min_length <=? Z.of_nat n))
    as (contours' & Hs' & Hnd & _ & Hpaths & _).
  rewrite Hs in Hs'. injection Hs' as <-.
  exists paths, contours. split_and!; try done.
  - by rewrite (concat_Forall2_Permutation _ _ Hperm).
  - clear Hq Hs Hnd Htree.
    induction Hperm as [|path contour paths contours Hpc _ IH];
      constructor.
    + destruct (Hpaths contour) as (_ & _ & Hk); [left|].
      rewrite Hpc. lia.
    + apply IH. intros c Hc. apply Hpaths. by right.
Qed.

Lemma extract_long_paths_agrees_witness :
  ∃ paths contours,
    Queue.extract_long_paths Tracer.vee 3 = Some paths ∧
    Tracer.remove_noise_from_skeleton Tracer.vee 3 = Some contours ∧
    Forall2 (≡ₚ) paths contours ∧
    Forall Tracer.tree_order paths ∧
    NoDup (concat paths) ∧
    Forall (λ path, 3 <= Z.of_nat (length path)) paths.
Proof. apply (extract_long_paths_agrees Tracer.vee 3). reflexivity. Defined.

(** ** Corner cutting stays inside the bounding box *)

Lemma chaikin_step_in_box (x0 x1 y0 y1 : Q) pts r :
  Filters.chaikin_step pts = Some r →
  (∀ p, p ∈ pts → (x0 <= p.1 <= x1 ∧ y0 <= p.2 <= y1)%Q) →
  ∀ q, q ∈ r → (x0 <= q.1 <= x1 ∧ y0 <= q.2 <= y1)%Q.
Proof.
  unfold Filters.chaikin_step. intros Hr Hbox q Hq.
  destruct (list.head pts) as [first|] eqn:Hfirst; [|done].
  destruct (list.last pts) as [final|] eqn:Hfinal; [|done].
  simpl in Hr. injection Hr as <-.
  apply elem_of_cons in Hq as [->|Hq].
  { apply Hbox. destruct pts; [done|]. injection Hfirst as ->. left. }
  apply elem_of_app in Hq as [Hq| ->%list_elem_of_singleton].
  2: { apply Hbox. by apply last_Some_elem_of. }
  apply list_elem_of_In, in_flat_map in Hq as ([a b] & He%list_elem_of_In & Hq).
  assert (a ∈ pts ∧ b ∈ pts) as [Ha Hb].
  { split; [by apply elem_of_zip_l in He|].
    apply elem_of_zip_r in He. destruct pts; [done|]. by right. }
  destruct (Hbox a Ha) as [[? ?] [? ?]], (Hbox b Hb) as [[? ?] [? ?]].
  simpl in Hq. destruct Hq as [<-|[<-|[]]];
    unfold Filters.cut_q, Filters.cut_r; simpl; split; split; lra.
Qed.

Lemma chaikin_smooth_box (points : path) (iterations : Z) :
  ∃ result,
    Filters.chaikin_smooth points iterations = Some result ∧
    ∀ x0 x1 y0 y1 : Q,
      (∀ p, p ∈ points → (x0 <= p.1 <= x1 ∧ y0 <= p.2 <= y1)%Q) →
      ∀ q, q ∈ result → (x0 <= q.1 <= x1 ∧ y0 <= q.2 <= y1)%Q.
Proof.
  unfold Filters.chaikin_smooth.
  destruct ((length points <? 4)%nat || (iterations <=? 0)) eqn:Hguard.
  { by exists points. }
  assert (points ≠ []) as Hne by (intros ->; done).
  clear Hguard. induction (Z.to_nat iterations) as [|n (r & Hr & Hbox)].
  - by exists points.
  - destruct (chaikin_iter_ends n points Hne) as (r0 & Hr0 & Hh & _).
    rewrite Hr in Hr0. injection Hr0 as <-.
    destruct (chaikin_step_ends r) as (r' & Hr' & _).
    { intros ->. by destruct points. }
    exists r'. rewrite Nat.iter_succ, Hr. split; [done|].
    intros x0 x1 y0 y1 Hin.
    apply (chaikin_step_in_box x0 x1 y0 y1 r r' Hr'). by apply Hbox.
Qed.

(** X22: [chaikin_smooth] never leaves the bounding box of its input: for
    every path and iteration count it returns a path, and every box that
    holds the input points holds the returned points. *)
Theorem chaikin_smooth_in_box (points : path) (iterations : Z) :
  ∃ result,
    Filters.chaikin_smooth points iterations = Some result ∧
    ∀ x0 x1 y0 y1 : Q,
      (∀ p, p ∈ points → (x0 <= p.1 <= x1 ∧ y0 <= p.2 <= y1)%Q) →
      ∀ q, q ∈ result → (x0 <= q.1 <= x1 ∧ y0 <= q.2 <= y1)%Q.
Proof. apply chaikin_smooth_box. Qed.

(** ** The optimising pipeline *)

Lemma decimate_sublist {P} (far : P → P → bool) guard (points : list P) :
  Filters.decimate far guard points `sublist_of` points.
Proof.
  destruct (decide (length points < guard)%nat) as [Hlt|Hge].
  - by rewrite decimate_short.
  - destruct points as [|p0 rest]; [by rewrite decimate_nil|].
    rewrite decimate_cons by lia. apply sublist_skip, kept_after_sublist.
Qed.

Lemma decimate_spaced {P} (far : P → P → bool) guard (points : list P) i a b :
  (guard ≤ length points)%nat →
  Filters.decimate far guard points !! i = Some a →
  Filters.decimate far guard points !! S i = Some b →
  far b a = true.
Proof.
  intros Hlen. destruct points as [|p0 rest]; [by rewrite decimate_nil|].
  rewrite decimate_cons by done. apply kept_after_spaced.
Qed.








(** ** The smoothing pipeline *)

Lemma decimate_twice {P} (far far' : P → P → bool) (points : list P) :
  (∀ p k, far p k = true → far' p k = true) →
  (3 ≤ length points)%nat →
  Filters.decimate far' 2 (Filters.decimate far 3 points)
  = Filters.decimate far 3 points.
Proof.
  intros Hweak Hlen. destruct points as [|p0 rest]; [simpl in Hlen; lia|].
  rewrite (decimate_cons _ 3) by lia.
  destruct (decide (length (p0 :: Filters.kept_after far p0 rest) < 2)%nat).
  - by apply decimate_short.
  - rewrite decimate_cons by lia. f_equal. by apply kept_after_weaker.
Qed.

(** X24: the pipeline of [smooth_and_clean] (components of at least 80
    pixels, moving average over 7, one round of corner cutting, thinning
    with distances 10 and 8) returns for every mask, and stays on the
    canvas: every point of every returned path lies within the pixel
    bounds of the mask.  Each returned path has more than 4 points, and
    consecutive points of a path are at least 10 apart. *)
Theorem smooth_and_clean_on_canvas (skeleton : image) :
  ∃ segments,
    Pipeline.smooth_and_clean skeleton = Some segments ∧
    ∀ path, path ∈ segments →
      (4 < length path)%nat ∧
      (∀ pt, pt ∈ path →
         (0 <= pt.1 <= inject_Z (Z.of_nat (img_width skeleton) - 1) ∧
          0 <= pt.2 <= inject_Z (Z.of_nat (img_height skeleton) - 1))%Q) ∧
      (∀ i a b, path !! i = Some a → path !! S i = Some b →
         (10 * 10 <= sqdist b a)%Q).
Proof.
  unfold Pipeline.smooth_and_clean.
  destruct (trace_spec skeleton (λ n, 80 <=? Z.of_nat n))
    as (raw & Hraw & _ & Hfg & _).
  unfold Tracer.remove_noise_from_skeleton. rewrite Hraw. simpl.
  set (good := λ path : path,
         (4 < length path)%nat ∧
         (∀ pt, pt ∈ path →
            (0 <= pt.1 <= inject_Z (Z.of_nat (img_width skeleton) - 1) ∧
             0 <= pt.2 <= inject_Z (Z.of_nat (img_height skeleton) - 1))%Q) ∧
         (∀ i a b, path !! i = Some a → path !! S i = Some b →
            (10 * 10 <= sqdist b a)%Q)).
  assert (∀ segments st,
            (∀ segment px, segment ∈ segments → px ∈ segment →
               Tracer.in_bounds skeleton px) →
            (∃ out, st = Some out ∧ ∀ path, path ∈ out → good path) →
            ∃ out, foldl Pipeline.clean_step st segments = Some out ∧
                   ∀ path, path ∈ out → good path) as Hfold.
  { induction segments as [|segment segments IH]; intros st Hsub Hst; [done|].
    cbn [foldl]. apply IH; [intros c px Hc; apply Hsub; by right|].
    destruct Hst as (out & -> & Hout).
    unfold Pipeline.clean_step. simpl.
    destruct (Nat.ltb_spec (length segment) 10) as [|Hten]; [by exists out|].
    destruct (smooth_path_box segment 7) as (sm & -> & Hsm & Hbox); [lia|].
    destruct (4 <? length (to_points sm))%nat; [|by exists out].
    destruct (chaikin_smooth_box (to_points sm) 1) as (chaikin & -> & Hcbox).
    simpl.
    destruct (Nat.ltb_spec 4 (length chaikin)) as [Hfour|]; [|by exists out].
    assert (Filters.merge_close_points
              (Filters.simplify_path_points chaikin 10) 8
            = Filters.simplify_path_points chaikin 10) as ->.
    { apply (decimate_twice (Filters.far_apart 10) (Filters.far_apart 8));
        [|lia].
      intros p k [Hneg|Hsq]%far_apart_spec; apply far_apart_spec.
      - left. lra.
      - right. eapply Qle_trans; [|apply Hsq]. lra. }
    destruct (Nat.ltb_spec 4 (length (Filters.simplify_path_points chaikin 10)))
      as [Hlong|]; [|by exists out].
    eexists. split; [done|].
    intros path [Hp| ->%list_elem_of_singleton]%elem_of_app; [by apply Hout|].
    unfold Filters.simplify_path_points in *.
    pose proof (decimate_sublist (Filters.far_apart 10) 3 chaikin) as Hsl.
    split_and!; [done| |].
    - intros pt Hpt.
      apply (Hcbox 0%Q (inject_Z (Z.of_nat (img_width skeleton) - 1))
                   0%Q (inject_Z (Z.of_nat (img_height skeleton) - 1)));
        [|by eapply elem_of_sublist].
      intros q Hq. unfold to_points in Hq.
      apply list_elem_of_In, in_map_iff in Hq as (px & <- & Hpx%list_elem_of_In).
      destruct (Hbox 0 (Z.of_nat (img_width skeleton) - 1)
                     0 (Z.of_nat (img_height skeleton) - 1)) with (q := px)
        as [[? ?] [? ?]]; [|done|].
      { intros px' Hpx'. destruct (Hsub segment px') as [? ?]; [left|done|lia]. }
      simpl. change 0%Q with (inject_Z 0). rewrite <- !Zle_Qle. done.
    - intros i a b Ha Hb.
      assert (Filters.far_apart 10 b a = true) as [?|Hfar]%far_apart_spec;
        [|done|done].
      apply (decimate_spaced (Filters.far_apart 10) 3 chaikin i a b);
        [lia|done..]. }
  destruct (Hfold raw (Some [])) as (out & Hres & Hout).
  { intros segment px [i Hi]%list_elem_of_lookup_1 Hpx.
    apply Hfg, elem_of_concat. by exists segment, i. }
  { exists []. split; [done|]. intros path Hp. by apply elem_of_nil in Hp. }
  by exists out.
Qed.
